(** * KataCoffee book generation ([cpp/command/genbook.cpp])

    A shallow embedding of the [genbook] and [checkbook] commands: the
    bonus scan, the start-up checks, the expansion loop, the value refresh
    and the recursive splice of a finished search into the book.

    Conventions.
    - C++ [int] and [int64_t] values are integers [Z]; [/] and [%] on them
      are [Z.quot] and [Z.rem] (truncation), and a zero divisor is an
      explicit error.
    - [double] and [float] values are rationals [Q]. The code only copies
      and compares them, except for one [pow], which is a parameter.
    - [std::map] and [std::set] are stdpp's [gmap] and [gset].
    - A thrown [StringError] is a result of its own ([Throw], [Threw]), and
      so are a failed [assert] and the use of a null node. *)

From Stdlib Require Import ZArith QArith List String Bool Lia Lqa Sorted.
From stdpp Require Import gmap strings list fin_maps.

Local Open Scope string_scope.
Local Open Scope list_scope.
Local Open Scope Z_scope.

(** ** The expansion loop of [MainCmds::genbook] (genbook.cpp:1160-1207) *)

Module Loop.

(** What one run of the loop does to the outside, in order. *)
Inductive Event : Type :=
| SaveToFile (iteration : Z)
| GetNextNToExpand (iteration : Z) (n : Z)
| ExpandAndRecompute (iteration : Z).

Inductive Outcome : Type :=
| LoopEnded
| DivisionByZero (iteration : Z).

(** C++ [a % b] on [int]: undefined for [b = 0]. *)
Definition cmod (a b : Z) : option Z :=
  if b =? 0 then None else Some (Z.rem a b).

(** C++ [a / 2] on a non-negative [int]. *)
Definition cdiv2 (a : Z) : Z := Z.quot a 2.

(** [shouldStop] is set asynchronously by the signal handler; the loop
    reads it at the top of an iteration ([stopBefore]) and after the
    recomputation ([stopAfter]). *)
Record StopOracle : Type := {
  stopBefore : Z -> bool;
  stopAfter : Z -> bool
}.

Definition neverStop : StopOracle :=
  {| stopBefore := fun _ => false; stopAfter := fun _ => false |}.

(** [for(int iteration = 0; iteration < numIterations; iteration++)], with
    [remaining = numIterations - iteration] iterations left to run. *)
Fixpoint iterate (stop : StopOracle) (saveEveryIterations numToExpandPerIteration : Z)
    (remaining : nat) (iteration : Z) (trace : list Event) : Outcome * list Event :=
  match remaining with
  | O => (LoopEnded, trace)
  | S remaining' =>
    if stopBefore stop iteration then (LoopEnded, trace)
    else
      match cmod iteration saveEveryIterations with
      | None => (DivisionByZero iteration, trace)
      | Some r =>
        let trace1 :=
          if (r =? 0) && negb (iteration =? 0)
          then trace ++ [SaveToFile iteration] else trace in
        let n := Z.min (1 + cdiv2 iteration) numToExpandPerIteration in
        let trace2 := trace1 ++ [GetNextNToExpand iteration n; ExpandAndRecompute iteration] in
        if stopAfter stop iteration then (LoopEnded, trace2)
        else iterate stop saveEveryIterations numToExpandPerIteration
               remaining' (iteration + 1) trace2
      end
  end.

Definition expansionLoop (stop : StopOracle)
    (numIterations saveEveryIterations numToExpandPerIteration : Z) : Outcome * list Event :=
  iterate stop saveEveryIterations numToExpandPerIteration (Z.to_nat numIterations) 0 [].

(** The arguments of the calls to [getNextNToExpand], in order. *)
Fixpoint requests (trace : list Event) : list (Z * Z) :=
  match trace with
  | [] => []
  | GetNextNToExpand i n :: rest => (i, n) :: requests rest
  | _ :: rest => requests rest
  end.

(** The ramp of the specification: iteration [i] asks for [min(1 + i/2, configured)]. *)
Definition ramp (numToExpandPerIteration : Z) (i : Z) : Z * Z :=
  (i, Z.min (1 + i / 2) numToExpandPerIteration).

End Loop.

(** ** Positions, players and numbers *)

Definition Loc : Type := Z.
Definition BookHash : Type := Z.

Inductive Player : Type := P_BLACK | P_WHITE.

Definition getOpp (pla : Player) : Player :=
  match pla with P_BLACK => P_WHITE | P_WHITE => P_BLACK end.

Definition Player_eqb (a b : Player) : bool :=
  match a, b with
  | P_BLACK, P_BLACK | P_WHITE, P_WHITE => true
  | _, _ => false
  end.

(** [x < y] on [double]. *)
Definition Qltb (x y : Q) : bool := negb (Qle_bool y x).

(** [x != y] on [double]. *)
Definition Qneb (x y : Q) : bool := negb (Qeq_bool x y).

(** A [BoardHistory] from the book's initial position: who moves first and
    the moves made. The rules that decide legality and the end of the game
    live in [Rules] below; the board itself is not needed by [genbook]. *)
Record BoardHistory : Type := {
  initialPla : Player;
  moveHistory : list (Loc * Player)
}.

Definition presumedNextMovePla (hist : BoardHistory) : Player :=
  match last (moveHistory hist) with
  | Some (_, pla) => getOpp pla
  | None => initialPla hist
  end.

(** [hist.makeBoardMoveAssumeLegal(board, loc, pla, nullptr)]. *)
Definition makeBoardMoveAssumeLegal (hist : BoardHistory) (loc : Loc) (pla : Player)
    : BoardHistory :=
  {| initialPla := initialPla hist; moveHistory := moveHistory hist ++ [(loc, pla)] |}.

(** The parts of [board.h], [boardhistory.h] and [book.h] that [genbook]
    calls and that are not part of this tree, as parameters. *)
Record Rules : Type := {
  (** [Board::MAX_ARR_SIZE] *)
  MAX_ARR_SIZE : nat;
  (** [Book::LATEST_BOOK_VERSION] *)
  LATEST_BOOK_VERSION : Z;
  isLegal : BoardHistory -> Loc -> Player -> bool;
  (** success of [hist.makeBoardMoveTolerant(board, loc, pla)] *)
  moveTolerated : BoardHistory -> Loc -> Player -> bool;
  isGameFinished : BoardHistory -> bool;
  isPastNormalPhaseEnd : BoardHistory -> bool;
  isNoResult : BoardHistory -> bool;
  winner : BoardHistory -> option Player;
  finalWhiteMinusBlackScore : BoardHistory -> Q;
  (** [BookHash::getHashAndSymmetry(hist, repBound, hashRet, ..., bookVersion)],
      the hash it returns. *)
  getHashAndSymmetry : BoardHistory -> Z -> Z -> BookHash
}.

(** ** The bonus scan of [MainCmds::genbook] (genbook.cpp:154-189) *)

Module Bonus.

(** One call of the callback of [iterAllUniquePositions]: the history of
    the SGF position and its comment. *)
Record PositionSample : Type := {
  sgfHist : BoardHistory;
  comments : string
}.

Inductive Event : Type :=
| AddingBonus (bonus : Q) (hash : BookHash).

Inductive Outcome : Type :=
| Scanned (bonusByHash : gmap BookHash Q) (log : list Event)
| Throw (msg : string).

(** Replaying the SGF moves with [makeBoardMoveTolerant]; [None] when a
    move is refused, where the callback returns. *)
Fixpoint replay (R : Rules) (hist : BoardHistory) (moves : list (Loc * Player))
    : option BoardHistory :=
  match moves with
  | [] => Some hist
  | (loc, pla) :: rest =>
    if moveTolerated R hist loc pla
    then replay R (makeBoardMoveAssumeLegal hist loc pla) rest
    else None
  end.

(** [comments.find("BONUS")]. *)
Definition findBONUS (comments : string) : option nat :=
  String.index 0 "BONUS" comments.

(** [comments.substr(comments.find("BONUS")+5)]. *)
Definition afterBONUS (comments : string) (pos : nat) : string :=
  String.substring (pos + 5) (String.length comments - (pos + 5)) comments.

(** The book versions the inner loop runs over:
    [for(int bookVersion = 1; bookVersion < Book::LATEST_BOOK_VERSION; bookVersion++)]. *)
Definition versionsHashed (R : Rules) : list Z :=
  map (fun k => 1 + Z.of_nat k) (seq 0 (Z.to_nat (LATEST_BOOK_VERSION R - 1))).

(** The inner loop: [bonusByHash[hashRet] = bonus] and one log line per version. *)
Fixpoint addBonus (R : Rules) (repBound : Z) (hist : BoardHistory) (bonus : Q)
    (versions : list Z) (acc : gmap BookHash Q * list Event)
    : gmap BookHash Q * list Event :=
  match versions with
  | [] => acc
  | bookVersion :: rest =>
    let hashRet := getHashAndSymmetry R hist repBound bookVersion in
    addBonus R repBound hist bonus rest
      (<[hashRet := bonus]> (fst acc), snd acc ++ [AddingBonus bonus hashRet])
  end.

(** The callback. [stringToDouble] is [Global::stringToDouble] after
    [Global::trim] ([None] when it throws). *)
Definition onPosition (R : Rules) (stringToDouble : string -> option Q) (repBound : Z)
    (sample : PositionSample) (acc : gmap BookHash Q * list Event)
    : option (gmap BookHash Q * list Event) :=
  match findBONUS (comments sample) with
  | None => Some acc
  | Some pos =>
    match replay R {| initialPla := initialPla (sgfHist sample); moveHistory := [] |}
            (moveHistory (sgfHist sample)) with
    | None => Some acc
    | Some hist =>
      match stringToDouble (afterBONUS (comments sample) pos) with
      | None => None
      | Some bonus => Some (addBonus R repBound hist bonus (versionsHashed R) acc)
      end
    end
  end.

Fixpoint scan (R : Rules) (stringToDouble : string -> option Q) (repBound : Z)
    (samples : list PositionSample) (acc : gmap BookHash Q * list Event) : Outcome :=
  match samples with
  | [] => Scanned (fst acc) (snd acc)
  | sample :: rest =>
    match onPosition R stringToDouble repBound sample acc with
    | None => Throw "could not parse double"
    | Some acc' => scan R stringToDouble repBound rest acc'
    end
  end.

(** [bonusByHash] after the scan of the positions of the bonus SGF. *)
Definition bonusByHashOf (R : Rules) (stringToDouble : string -> option Q) (repBound : Z)
    (samples : list PositionSample) : Outcome :=
  scan R stringToDouble repBound samples (∅, []).

(** Modelled from the spec: [Book::setBonusByHash] is not in this tree. The
    bonus of a node is "[book.bonus[H]] from the user-supplied annotation
    map", subtracted from the node's cost: a book built at [bookVersion]
    finds the entry of [bonusByHash] at the node's hash, and no bonus when
    there is none. *)
Definition bonusOfNode (R : Rules) (repBound bookVersion : Z)
    (bonusByHash : gmap BookHash Q) (hist : BoardHistory) : Q :=
  match bonusByHash !! getHashAndSymmetry R hist repBound bookVersion with
  | Some bonus => bonus
  | None => 0%Q
  end.

End Bonus.

(** ** The book ([book.h], not in this tree) as [genbook] uses it *)

(** [BookValues]: the fields of [thisValuesNotInBook] that [genbook] writes. *)
Record BookValues : Type := {
  winLossValue : Q;
  scoreMean : Q;
  sharpScoreMean : Q;
  winLossError : Q;
  scoreError : Q;
  scoreStdev : Q;
  maxPolicy : Q;
  weight : Q;
  visits : Q
}.

Definition noValues : BookValues :=
  {| winLossValue := 0; scoreMean := 0; sharpScoreMean := 0; winLossError := 0;
     scoreError := 0; scoreStdev := 0; maxPolicy := 0; weight := 0; visits := 0 |}.

(** The cost and bonus constants of a book, each with a getter and a setter
    in the source. *)
Inductive ParamName : Type :=
| errorFactor | costPerMove | costPerUCBWinLossLoss | costPerUCBWinLossLossPow3
| costPerUCBWinLossLossPow7 | costPerUCBScoreLoss | costPerLogPolicy
| costPerMovesExpanded | costPerSquaredMovesExpanded | costWhenPassFavored
| bonusPerWinLossError | bonusPerScoreError | bonusPerSharpScoreDiscrepancy
| bonusPerExcessUnexpandedPolicy | bonusForWLPV1 | bonusForWLPV2
| bonusForBiggestWLCost | scoreLossCap | utilityPerScore
| policyBoostSoftUtilityScale | utilityPerPolicyForSorting | maxVisitsForReExpansion.

#[global] Instance ParamName_eq_dec : EqDecision ParamName.
Proof. solve_decision. Defined.

(** In the order of the comparisons of genbook.cpp:267-288 and 294-315. *)
Definition allParamNames : list ParamName :=
  [errorFactor; costPerMove; costPerUCBWinLossLoss; costPerUCBWinLossLossPow3;
   costPerUCBWinLossLossPow7; costPerUCBScoreLoss; costPerLogPolicy;
   costPerMovesExpanded; costPerSquaredMovesExpanded; costWhenPassFavored;
   bonusPerWinLossError; bonusPerScoreError; bonusPerSharpScoreDiscrepancy;
   bonusPerExcessUnexpandedPolicy; bonusForWLPV1; bonusForWLPV2;
   bonusForBiggestWLCost; scoreLossCap; utilityPerScore;
   policyBoostSoftUtilityScale; utilityPerPolicyForSorting; maxVisitsForReExpansion].

(** Modelled from the spec: [BookNode] is not in this tree; these are the
    fields of the spec's node that [genbook] reads or writes. The moves of
    [childrenInBook] are kept in the frame of the position the caller holds: [SymBookNode] maps locations through the
    node's symmetry, which is the identity here. [historyReachingHere] is
    what [getBoardHistoryReachingHere] rebuilds, [None] when it fails. *)
Record BookNode : Type := {
  pla : Player;
  historyReachingHere : option BoardHistory;
  (** canonical move -> (child, raw policy of the edge) *)
  childrenInBook : gmap Loc (BookHash * Q);
  thisValuesNotInBook : BookValues;
  (** [recursiveValues().visits] *)
  recursiveVisits : Q;
  canExpand : bool;
  canReExpand : bool
}.

(** Modelled from the spec: [Book] is not in this tree; the header of the
    book file, the bonus map and the node table. *)
Record Book : Type := {
  bookVersion : Z;
  initialBoardXSize : Z;
  initialBoardYSize : Z;
  (** the initial board, named by a number: boards are only compared *)
  initialBoard : Z;
  bookInitialPla : Player;
  bookRules : Z;
  repBound : Z;
  params : ParamName -> Q;
  bonusByHash : gmap BookHash Q;
  nodes : gmap BookHash BookNode
}.

Definition setParam (name : ParamName) (value : Q) (book : Book) : Book :=
  {| bookVersion := bookVersion book;
     initialBoardXSize := initialBoardXSize book;
     initialBoardYSize := initialBoardYSize book;
     initialBoard := initialBoard book;
     bookInitialPla := bookInitialPla book;
     bookRules := bookRules book;
     repBound := repBound book;
     params := fun n => if decide (n = name) then value else params book n;
     bonusByHash := bonusByHash book;
     nodes := nodes book |}.

Definition setBonusByHash (bonus : gmap BookHash Q) (book : Book) : Book :=
  {| bookVersion := bookVersion book;
     initialBoardXSize := initialBoardXSize book;
     initialBoardYSize := initialBoardYSize book;
     initialBoard := initialBoard book;
     bookInitialPla := bookInitialPla book;
     bookRules := bookRules book;
     repBound := repBound book;
     params := params book;
     bonusByHash := bonus;
     nodes := nodes book |}.

Definition setNodes (ns : gmap BookHash BookNode) (book : Book) : Book :=
  {| bookVersion := bookVersion book;
     initialBoardXSize := initialBoardXSize book;
     initialBoardYSize := initialBoardYSize book;
     initialBoard := initialBoard book;
     bookInitialPla := bookInitialPla book;
     bookRules := bookRules book;
     repBound := repBound book;
     params := params book;
     bonusByHash := bonusByHash book;
     nodes := ns |}.

(** Modelled from the spec: the [BookNode] constructor is not in this tree.
    A node enters the book expandable, re-expandable ("never the primary
    target of an expansion"), without children and without values. *)
Definition newNode (p : Player) (hist : option BoardHistory) : BookNode :=
  {| pla := p; historyReachingHere := hist; childrenInBook := ∅;
     thisValuesNotInBook := noValues; recursiveVisits := 0;
     canExpand := true; canReExpand := true |}.

(** ** Start-up of [MainCmds::genbook] (genbook.cpp:234-376) *)

Module Startup.

Record Args : Type := {
  traceBookFile : string;
  bonusFile : string;
  numIterations : Z;
  allowChangingBookParams : bool
}.

(** The values read from the configuration file. *)
Record Config : Type := {
  boardSizeX : Z;
  boardSizeY : Z;
  cfgRepBound : Z;
  rules : Z;
  cfgParams : ParamName -> Q
}.

(** What the bonus scan leaves for the start-up: the map, the initial board
    and the first player of the SGF. *)
Record BonusSetup : Type := {
  scannedBonusByHash : gmap BookHash Q;
  bonusInitialBoard : Z;
  bonusInitialPla : Player
}.

Inductive Event : Type :=
| LoadedBookFile
| ChangingParam (name : ParamName) (old new : Q)
| CreatedNewBook
| SavedBookFile
| WroteCfgSidecar
| LoadedTraceBook
| SetBonusByHash
| RecomputedEverything.

Inductive Status : Type :=
| Proceed
| Threw (msg : string).

(** Where the start-up stands: the book in memory, if one was made, and
    what was done so far. *)
Record Outcome : Type := {
  status : Status;
  book : option Book;
  events : list Event
}.

Definition anyParamDiffers (cfg : Config) (b : Book) : bool :=
  existsb (fun n => Qneb (cfgParams cfg n) (params b n)) allParamNames.

(** One line of genbook.cpp:294-315:
    [if(x != book->getX()) { logger.write(...); book->setX(x); }]. *)
Definition changeParam (cfg : Config) (acc : Book * list Event) (name : ParamName)
    : Book * list Event :=
  if Qneb (cfgParams cfg name) (params (fst acc) name)
  then (setParam name (cfgParams cfg name) (fst acc),
        snd acc ++ [ChangingParam name (params (fst acc) name) (cfgParams cfg name)])
  else acc.

(** The branch [if(bookFileExists)] (genbook.cpp:240-320). *)
Definition loadExisting (args : Args) (cfg : Config) (bonus : BonusSetup) (b : Book)
    : Outcome :=
  if negb (boardSizeX cfg =? initialBoardXSize b)
     || negb (boardSizeY cfg =? initialBoardYSize b)
     || negb (cfgRepBound cfg =? repBound b)
     || negb (rules cfg =? bookRules b)
  then {| status := Threw "Book parameters do not match";
          book := Some b; events := [LoadedBookFile] |}
  else if negb (String.eqb (bonusFile args) "")
          && negb (bonusInitialBoard bonus =? initialBoard b)
  then {| status := Threw "Book initial board and initial board in bonus sgf file do not match";
          book := Some b; events := [LoadedBookFile] |}
  else if negb (String.eqb (bonusFile args) "")
          && negb (Player_eqb (bonusInitialPla bonus) (bookInitialPla b))
  then {| status := Threw "Book initial player and initial player in bonus sgf file do not match";
          book := Some b; events := [LoadedBookFile] |}
  else if negb (allowChangingBookParams args)
  then
    if anyParamDiffers cfg b
    then {| status := Threw "Book parameters do not match";
            book := Some b; events := [LoadedBookFile] |}
    else {| status := Proceed; book := Some b; events := [LoadedBookFile] |}
  else
    let changed := fold_left (changeParam cfg) allParamNames (b, [LoadedBookFile]) in
    {| status := Proceed; book := Some (fst changed); events := snd changed |}.

(** The branch [else] (genbook.cpp:321-363): [new Book(Book::LATEST_BOOK_VERSION, ...)],
    saved at once together with the configuration sidecar. Modelled from the
    spec: the [Book] constructor is not in this tree; the new book holds "the
    initial root (from a configured starting board+komi+rules)". *)
Definition createNew (R : Rules) (cfg : Config) (bonus : BonusSetup) : Outcome :=
  let initialHist := {| initialPla := bonusInitialPla bonus; moveHistory := [] |} in
  let rootHash := getHashAndSymmetry R initialHist (cfgRepBound cfg) (LATEST_BOOK_VERSION R) in
  {| status := Proceed;
     book := Some
       {| bookVersion := LATEST_BOOK_VERSION R;
          initialBoardXSize := boardSizeX cfg;
          initialBoardYSize := boardSizeY cfg;
          initialBoard := bonusInitialBoard bonus;
          bookInitialPla := bonusInitialPla bonus;
          bookRules := rules cfg;
          repBound := cfgRepBound cfg;
          params := cfgParams cfg;
          bonusByHash := ∅;
          nodes := {[ rootHash := newNode (bonusInitialPla bonus) (Some initialHist) ]} |};
     events := [CreatedNewBook; SavedBookFile; WroteCfgSidecar] |}.

(** genbook.cpp:365-376: the trace book, then the bonuses and the first
    recomputation. *)
Definition afterBook (args : Args) (bonus : BonusSetup) (o : Outcome) : Outcome :=
  match status o with
  | Threw _ => o
  | Proceed =>
    if negb (String.length (traceBookFile args) =? 0)%nat && (numIterations args >? 0)
    then {| status := Threw "Cannot specify iterations and trace book at the same time";
            book := book o; events := events o |}
    else
      let traced :=
        if negb (String.length (traceBookFile args) =? 0)%nat
        then events o ++ [LoadedTraceBook] else events o in
      {| status := Proceed;
         book := option_map (setBonusByHash (scannedBonusByHash bonus)) (book o);
         events := traced ++ [SetBonusByHash; RecomputedEverything] |}
  end.

(** genbook.cpp:234-363. [onDisk] is the content of [bookFile] when the
    file can be opened. *)
Definition openBook (R : Rules) (args : Args) (cfg : Config) (bonus : BonusSetup)
    (onDisk : option Book) : Outcome :=
  match onDisk with
  | Some b => loadExisting args cfg bonus b
  | None => createNew R cfg bonus
  end.

Definition startup (R : Rules) (args : Args) (cfg : Config) (bonus : BonusSetup)
    (onDisk : option Book) : Outcome :=
  afterBook args bonus (openBook R args cfg bonus onDisk).

(** The events that change the book in memory or on disk. *)
Definition changesBook (e : Event) : bool :=
  match e with
  | ChangingParam _ _ _ | CreatedNewBook | SavedBookFile
  | SetBonusByHash | RecomputedEverything => true
  | LoadedBookFile | WroteCfgSidecar | LoadedTraceBook => false
  end.

(** The saves of the book file. *)
Definition savesBook (e : Event) : bool :=
  match e with
  | SavedBookFile => true
  | _ => false
  end.

(** The events that come after the check of the trace book. *)
Definition afterTraceCheck (e : Event) : bool :=
  match e with
  | LoadedTraceBook | SetBonusByHash | RecomputedEverything => true
  | _ => false
  end.

End Startup.

(** ** The search ([search.h], [searchnode.h], not in this tree) as [genbook] reads it *)

Module Reported.

(** [ReportedSearchValues] (search/reportedsearchvalues.h:8-14). *)
Record ReportedSearchValues : Type := {
  winValue : Q;
  lossValue : Q;
  winLossValue : Q;
  utility : Q;
  weight : Q;
  visits : Z
}.

(** Modelled from the spec: genbook.cpp:556 and 560 read two members of the
    pruned values of a search node, [expectedScore] and
    [expectedScoreStdev], that [search/reportedsearchvalues.h] of this tree
    does not declare. The spec has the values of a node set "from MCTS
    aggregated values", "[scoreMean] from expected score" and
    "[scoreStdev] from pruned-root stdev": the two numbers come from the
    search together with the pruned values. *)
Record ScoreMembers : Type := {
  expectedScore : Q;
  expectedScoreStdev : Q
}.

End Reported.

Record SearchParams : Type := {
  maxVisits : Z;
  wideRootNoise : Q;
  cpuctExploration : Q;
  cpuctExplorationLog : Q
}.

Definition SearchNodePtr : Type := Z.

(** What [genbook] reads off a [SearchNode] of a finished search. *)
Record SearchNode : Type := {
  nextPla : Player;
  (** the allocated children in array order: [getMoveLoc()] and [getIfAllocated()] *)
  children : list (Loc * SearchNodePtr);
  (** [stats.visits] *)
  statsVisits : Z;
  (** [getNNOutput() != nullptr] *)
  hasNNOutput : bool;
  (** [getPlaySelectionValues]: [locs] and [playSelectionValues], [None] when it fails *)
  playSelectionValues : option (list Loc * list Q);
  (** [getPrunedNodeValues] *)
  prunedNodeValues : Reported.ReportedSearchValues;
  (** the members of the pruned values that the header lacks *)
  prunedNodeScore : Reported.ScoreMembers;
  (** [getSharpScore] *)
  sharpScore : Q;
  (** [getShallowAverageShorttermWLAndScoreError] *)
  shorttermWLAndScoreError : Q * Q
}.

(** A finished search: its root and the nodes behind the pointers. The
    search is a graph, so a node can be the child of several nodes. *)
Record Search : Type := {
  rootNode : SearchNodePtr;
  nodeAt : SearchNodePtr -> SearchNode
}.

(** The neural net and the search, as parameters. *)
Record Engine : Type := {
  (** [search->getPos(loc)] *)
  getPos : Loc -> nat;
  (** [PlayUtils::getFullSymmetryNNOutput(board, hist, pla, false, nnEval)->policyProbs] *)
  getFullSymmetryNNOutput : BoardHistory -> Player -> list Q;
  (** [setPosition], [setParams], [setAvoidMoveUntilByLoc] and [runWholeSearch] *)
  runWholeSearch : SearchParams -> BoardHistory -> list Z -> Search;
  (** [pow] of [<cmath>] *)
  pow : Q -> Q -> Q;
  (** [(float)] of a [double]: the nearest [float] *)
  toFloat : Q -> Q
}.

(** The configuration of [genbook] that the expansion reads. *)
Record Settings : Type := {
  searchParams : SearchParams;
  minTreeVisitsToRecord : Z;
  maxDepthToRecord : Z;
  maxVisitsForLeaves : Z;
  wideRootNoiseBookExplore : Q;
  cpuctExplorationLogBookExplore : Q;
  (** [assert] is compiled out *)
  NDEBUG : bool
}.
(* [logSearchInfo] only prints the search tree to the log and is left out. *)

(** ** Expanding a node *)

(** Log lines and calls to the outside, in order. *)
Inductive Ev : Type :=
| LogFailedToGetHistory (node : BookHash)
| LogMoves (moves : list Loc)
| LogIntegrityFailure (node walked : BookHash)
| LogExpanding (node : BookHash)
| LogIllegalMove (parent : BookHash) (loc : Loc)
| LogAdding (parent child : BookHash) (loc : Loc)
| LogCouldNotExpand (node : BookHash)
| LogCheckingBook
| LogChecked (numNodesChecked total : Z)
| LogDone
| RanSearch (thisParams : SearchParams) (hist : BoardHistory) (avoidMoveUntilByLoc : list Z)
| WroteValuesFromSearch (node : BookHash) (searchNode : SearchNodePtr).

Record State : Type := {
  book : Book;
  trace : list Ev
}.

Definition logging (evs : list Ev) (st : State) : State :=
  {| book := book st; trace := trace st ++ evs |}.

Definition withBook (b : Book) (st : State) : State :=
  {| book := b; trace := trace st |}.

(** How a call ends. *)
Inductive Outcome (A : Type) : Type :=
| Returned (a : A)
| Threw (msg : string) (st : State)
| AssertionFailed (st : State)
| NullNode (st : State)
| OutOfFuel.
Arguments Returned {A} a.
Arguments Threw {A} msg st.
Arguments AssertionFailed {A} st.
Arguments NullNode {A} st.
Arguments OutOfFuel {A}.

(** *** Node handles *)

(** Modelled from the spec: [SymBookNode] is not in this tree. A handle is
    the hash of the node ("edges are back/forward references by [H]"). *)
Definition getNode (b : Book) (h : BookHash) : BookNode :=
  match nodes b !! h with
  | Some n => n
  | None => newNode P_BLACK None
  end.

Definition updateNode (f : BookNode -> BookNode) (h : BookHash) (b : Book) : Book :=
  setNodes (alter f h (nodes b)) b.

Definition setCanExpand (v : bool) (n : BookNode) : BookNode :=
  {| pla := pla n; historyReachingHere := historyReachingHere n;
     childrenInBook := childrenInBook n;
     thisValuesNotInBook := thisValuesNotInBook n;
     recursiveVisits := recursiveVisits n;
     canExpand := v; canReExpand := canReExpand n |}.

Definition setCanReExpand (v : bool) (n : BookNode) : BookNode :=
  {| pla := pla n; historyReachingHere := historyReachingHere n;
     childrenInBook := childrenInBook n;
     thisValuesNotInBook := thisValuesNotInBook n;
     recursiveVisits := recursiveVisits n;
     canExpand := canExpand n; canReExpand := v |}.

Definition setThisValuesNotInBook (v : BookValues) (n : BookNode) : BookNode :=
  {| pla := pla n; historyReachingHere := historyReachingHere n;
     childrenInBook := childrenInBook n;
     thisValuesNotInBook := v;
     recursiveVisits := recursiveVisits n;
     canExpand := canExpand n; canReExpand := canReExpand n |}.

Definition addChild (loc : Loc) (child : BookHash) (rawPolicy : Q) (n : BookNode) : BookNode :=
  {| pla := pla n; historyReachingHere := historyReachingHere n;
     childrenInBook := <[loc := (child, rawPolicy)]> (childrenInBook n);
     thisValuesNotInBook := thisValuesNotInBook n;
     recursiveVisits := recursiveVisits n;
     canExpand := canExpand n; canReExpand := canReExpand n |}.

(** Modelled from the spec: [SymBookNode::isMoveInBook] is not in this tree;
    the move is a key of [childrenInBook]. *)
Definition isMoveInBook (b : Book) (node : BookHash) (loc : Loc) : bool :=
  match childrenInBook (getNode b node) !! loc with
  | Some _ => true
  | None => false
  end.

(** Modelled from the spec: [SymBookNode::follow] is not in this tree;
    "[follow(parent, canonicalMove) -> child]". *)
Definition follow (b : Book) (node : BookHash) (loc : Loc) : option BookHash :=
  fst <$> childrenInBook (getNode b node) !! loc.

(** Modelled from the spec: [SymBookNode::numUniqueMovesInBook] is not in
    this tree; the number of moves of [childrenInBook]. *)
Definition numUniqueMovesInBook (b : Book) (node : BookHash) : nat :=
  size (childrenInBook (getNode b node)).

(** Modelled from the spec: [SymBookNode::playAndAddMove] is not in this
    tree. It "applies the move, canonicalizes the resulting position,
    inserts the child if new, and records the parent->child edge"; "if an
    edge already exists for the same canonical move it is a no-op and the
    existing child is returned"; a child "already present anywhere in the
    graph" is a transposition. The child is null when the move is illegal.
    The result is the child, the history after the move, whether the child
    transposes, and the book. *)
Definition playAndAddMove (R : Rules) (b : Book) (node : BookHash) (hist : BoardHistory)
    (moveLoc : Loc) (rawPolicy : Q) : option BookHash * BoardHistory * bool * Book :=
  let nodePla := pla (getNode b node) in
  match follow b node moveLoc with
  | Some child => (Some child, makeBoardMoveAssumeLegal hist moveLoc nodePla, false, b)
  | None =>
    if negb (isLegal R hist moveLoc nodePla) then (None, hist, false, b)
    else
      let nextHist := makeBoardMoveAssumeLegal hist moveLoc nodePla in
      let child := getHashAndSymmetry R nextHist (repBound b) (bookVersion b) in
      let isTransposing := bool_decide (is_Some (nodes b !! child)) in
      let b1 :=
        if isTransposing then b
        else setNodes (<[child := newNode (getOpp nodePla) (Some nextHist)]> (nodes b)) b in
      (Some child, nextHist, isTransposing, updateNode (addChild moveLoc child rawPolicy) node b1)
  end.

(** *** genbook.cpp:33-39 *)

Definition getMaxPolicy (policyProbs : list Q) : Q :=
  fold_left (fun maxPolicy p => if Qltb maxPolicy p then p else maxPolicy) policyProbs 0%Q.

(** The locations [0 .. Board::MAX_ARR_SIZE-1]. *)
Definition allLocs (R : Rules) : list Loc := map Z.of_nat (seq 0 (MAX_ARR_SIZE R)).

(** *** [findNewMovesAlreadyLocked] (genbook.cpp:393-414)

    The result is [avoidMoveUntilByLoc], [isReExpansion] and the returned
    [hasAtLeastOneLegalNewMove]. *)
Definition findNewMovesAlreadyLocked (R : Rules) (b : Book) (hist : BoardHistory)
    (constNode : BookHash) (allowReExpansion : bool) : list Z * bool * bool :=
  let isReExpansion :=
    allowReExpansion && canReExpand (getNode b constNode)
    && Qltb (recursiveVisits (getNode b constNode)) (params b maxVisitsForReExpansion) in
  let pla := presumedNextMovePla hist in
  let '(avoidMoveUntilByLoc, hasAtLeastOneLegalNewMove) :=
    fold_left
      (fun '(avoid, hasNew) moveLoc =>
         if isLegal R hist moveLoc pla
         then if negb isReExpansion && isMoveInBook b constNode moveLoc
              then (<[Z.to_nat moveLoc := 1]> avoid, hasNew)
              else (avoid, true)
         else (avoid, hasNew))
      (allLocs R) (replicate (MAX_ARR_SIZE R) 0, false) in
  (avoidMoveUntilByLoc, isReExpansion, hasAtLeastOneLegalNewMove).

(** [std::max] and [std::min] on [double]. *)
Definition Qmax' (a b : Q) : Q := if Qltb a b then b else a.
Definition Qmin' (a b : Q) : Q := if Qltb b a then b else a.

(** The [double] literal [1e-5], which is [5902958103587057 / 2^69]. *)
Definition double_1e_5 : Q := 5902958103587057 # 590295810358705651712.

(** *** [setParamsAndAvoidMovesCompensatingCpuct] (genbook.cpp:416-439)

    The parameters the search is given. *)
Definition setParamsAndAvoidMovesCompensatingCpuct (R : Rules) (E : Engine)
    (hist : BoardHistory) (thisParams : SearchParams) (avoidMoveUntilByLoc : list Z)
    : SearchParams :=
  let policyProbs := getFullSymmetryNNOutput E hist (presumedNextMovePla hist) in
  let policySum :=
    fold_left
      (fun sum loc =>
         if nth (Z.to_nat loc) avoidMoveUntilByLoc 0 <=? 0
         then if Qltb 0 (nth (getPos E loc) policyProbs 0%Q)
              then (sum + nth (getPos E loc) policyProbs 0%Q)%Q
              else sum
         else sum)
      (allLocs R) 0%Q in
  let policySum := Qmax' policySum double_1e_5 in
  let policySum := Qmin' policySum 1 in
  let policySum :=
    toFloat E (pow E policySum (1 / (4 * wideRootNoise thisParams + 1))%Q) in
  {| maxVisits := maxVisits thisParams;
     wideRootNoise := wideRootNoise thisParams;
     cpuctExploration := (cpuctExploration thisParams / policySum)%Q;
     cpuctExplorationLog := (cpuctExplorationLog thisParams / policySum)%Q |}.

(** *** [setNodeThisValuesNoMoves] (genbook.cpp:441-462) *)

Definition huge : Q := inject_Z (10 ^ 20).

Definition setNodeThisValuesNoMoves (node : BookHash) (st : State) : State :=
  let sentinel := match pla (getNode (book st) node) with
                  | P_WHITE => (- huge)%Q
                  | P_BLACK => huge
                  end in
  let nodeValues :=
    {| winLossValue := sentinel; scoreMean := sentinel; sharpScoreMean := sentinel;
       winLossError := 0; scoreError := 0; scoreStdev := 0;
       maxPolicy := 0; weight := 0; visits := 0 |} in
  withBook
    (updateNode (fun n => setCanExpand false (setThisValuesNotInBook nodeValues n))
       node (book st)) st.

(** *** [setNodeThisValuesTerminal] (genbook.cpp:464-500) *)

Definition setNodeThisValuesTerminal (R : Rules) (S : Settings) (node : BookHash)
    (hist : BoardHistory) (st : State) : State :=
  let '(wl, score) :=
    if isNoResult R hist then (0%Q, 0%Q)
    else
      (match winner R hist with
       | Some P_WHITE => 1%Q
       | Some P_BLACK => (-1)%Q
       | None => 0%Q
       end, finalWhiteMinusBlackScore R hist) in
  let nodeValues :=
    {| winLossValue := wl; scoreMean := score; sharpScoreMean := score;
       winLossError := 0; scoreError := 0; scoreStdev := 0;
       maxPolicy := 1;
       weight := inject_Z (maxVisitsForLeaves S);
       visits := inject_Z (maxVisitsForLeaves S) |} in
  withBook
    (updateNode (fun n => setCanExpand false (setThisValuesNotInBook nodeValues n))
       node (book st)) st.

(** *** [setNodeThisValuesFromFinishedSearch] (genbook.cpp:502-565) *)

(** genbook.cpp:537-546: [policyProbs[pos] = -1] for the avoided locations. *)
Definition maskAvoided (R : Rules) (E : Engine) (avoidMoveUntilByLoc : list Z)
    (policyProbs : list Q) : list Q :=
  if (0 <? length avoidMoveUntilByLoc)%nat
  then
    fold_left
      (fun probs loc =>
         if 0 <? nth (Z.to_nat loc) avoidMoveUntilByLoc 0
         then <[getPos E loc := (-1)%Q]> probs
         else probs)
      (allLocs R) policyProbs
  else policyProbs.

(** The values written to the node. *)
Definition valuesFromFinishedSearch (R : Rules) (E : Engine) (nodePla : Player)
    (search : Search) (searchNode : SearchNodePtr) (hist : BoardHistory)
    (avoidMoveUntilByLoc : list Z) : BookValues :=
  let remainingSearchValues := prunedNodeValues (nodeAt search searchNode) in
  let remainingScore := prunedNodeScore (nodeAt search searchNode) in
  let errors := shorttermWLAndScoreError (nodeAt search searchNode) in
  let policyProbs :=
    maskAvoided R E avoidMoveUntilByLoc (getFullSymmetryNNOutput E hist nodePla) in
  {| winLossValue := Reported.winLossValue remainingSearchValues;
     scoreMean := Reported.expectedScore remainingScore;
     sharpScoreMean := sharpScore (nodeAt search searchNode);
     winLossError := fst errors;
     scoreError := snd errors;
     scoreStdev := Reported.expectedScoreStdev remainingScore;
     maxPolicy := getMaxPolicy policyProbs;
     weight := Reported.weight remainingSearchValues;
     visits := inject_Z (Reported.visits remainingSearchValues) |}.

Definition setNodeThisValuesFromFinishedSearch (R : Rules) (E : Engine) (node : BookHash)
    (search : Search) (searchNode : SearchNodePtr) (hist : BoardHistory)
    (avoidMoveUntilByLoc : list Z) (st : State) : State :=
  let nodeValues :=
    valuesFromFinishedSearch R E (pla (getNode (book st) node))
      search searchNode hist avoidMoveUntilByLoc in
  logging [WroteValuesFromSearch node searchNode]
    (withBook (updateNode (setThisValuesNotInBook nodeValues) node (book st)) st).

(** *** [searchAndUpdateNodeThisValues] (genbook.cpp:569-630) *)

(** The parameters of the short search: [thisParams.maxVisits =
    std::min(params.maxVisits, maxVisitsForLeaves)]. *)
Definition leafSearchParams (S : Settings) : SearchParams :=
  {| maxVisits := Z.min (maxVisits (searchParams S)) (maxVisitsForLeaves S);
     wideRootNoise := wideRootNoise (searchParams S);
     cpuctExploration := cpuctExploration (searchParams S);
     cpuctExplorationLog := cpuctExplorationLog (searchParams S) |}.

Definition searchAndUpdateNodeThisValues (R : Rules) (E : Engine) (S : Settings)
    (node : BookHash) (st : State) : Outcome State :=
  match historyReachingHere (getNode (book st) node) with
  | None =>
    Threw "Terminating since there's not a good way to put the book back into a good state with this node unupdated"
      (logging [LogFailedToGetHistory node] st)
  | Some hist =>
    if isGameFinished R hist
    then Returned (setNodeThisValuesTerminal R S node hist st)
    else
      let '(avoidMoveUntilByLoc, _, foundNewMoves) :=
        findNewMovesAlreadyLocked R (book st) hist node false in
      if negb foundNewMoves
      then Returned (setNodeThisValuesNoMoves node st)
      else
        let thisParams :=
          setParamsAndAvoidMovesCompensatingCpuct R E hist (leafSearchParams S)
            avoidMoveUntilByLoc in
        let search := runWholeSearch E thisParams hist avoidMoveUntilByLoc in
        let st1 := logging [RanSearch thisParams hist avoidMoveUntilByLoc] st in
        Returned
          (setNodeThisValuesFromFinishedSearch R E node search (rootNode search) hist
             avoidMoveUntilByLoc st1)
  end.

(** *** [expandFromSearchResultRecursively] (genbook.cpp:752-901) *)

(** The three sets the recursion threads through. [recursedInOrder] is the
    history of [searchNodesRecursedOn.insert], kept for the proofs. *)
Record Sets : Type := {
  nodesHashesToSearch : gset BookHash;
  nodesHashesToUpdate : gset BookHash;
  searchNodesRecursedOn : gset SearchNodePtr;
  recursedInOrder : list SearchNodePtr
}.

Definition noSets : Sets :=
  {| nodesHashesToSearch := ∅; nodesHashesToUpdate := ∅;
     searchNodesRecursedOn := ∅; recursedInOrder := [] |}.

Definition insertToSearch (h : BookHash) (s : Sets) : Sets :=
  {| nodesHashesToSearch := {[h]} ∪ nodesHashesToSearch s;
     nodesHashesToUpdate := nodesHashesToUpdate s;
     searchNodesRecursedOn := searchNodesRecursedOn s;
     recursedInOrder := recursedInOrder s |}.

Definition insertToUpdate (h : BookHash) (s : Sets) : Sets :=
  {| nodesHashesToSearch := nodesHashesToSearch s;
     nodesHashesToUpdate := {[h]} ∪ nodesHashesToUpdate s;
     searchNodesRecursedOn := searchNodesRecursedOn s;
     recursedInOrder := recursedInOrder s |}.

Definition insertRecursedOn (p : SearchNodePtr) (s : Sets) : Sets :=
  {| nodesHashesToSearch := nodesHashesToSearch s;
     nodesHashesToUpdate := nodesHashesToUpdate s;
     searchNodesRecursedOn := {[p]} ∪ searchNodesRecursedOn s;
     recursedInOrder := recursedInOrder s ++ [p] |}.

(** genbook.cpp:780-789: the location of the first largest play-selection value. *)
Definition bestIdxOf (playSelectionValues : list Q) : nat :=
  fst (fst
    (fold_left
       (fun '(bestIdx, bestValue, i) v =>
          if Qltb bestValue v then (i, v, Datatypes.S i) else (bestIdx, bestValue, Datatypes.S i))
       (tl playSelectionValues) (0%nat, hd 0%Q playSelectionValues, 1%nat))).

Definition bestLocOf (locs : list Loc) (playSelectionValues : list Q) : Loc :=
  nth (bestIdxOf playSelectionValues) locs 0.

(** genbook.cpp:835 and 867: the child is a leaf of the book and the search
    visited it more than the book did. *)
Definition leafWithFewerVisits (b : Book) (child : BookHash) (search : Search)
    (childSearchNode : SearchNodePtr) : bool :=
  (numUniqueMovesInBook b child =? 0)%nat
  && Qltb (recursiveVisits (getNode b child))
          (inject_Z (statsVisits (nodeAt search childSearchNode))).

(** genbook.cpp:815-877: one child of the search node that is recorded. The
    result is the book child, the history after the move, whether an edge
    was added, and the sets and state after it. *)
Definition spliceChild (R : Rules) (E : Engine) (search : Search) (node : BookHash)
    (hist : BoardHistory) (moveLoc : Loc) (childSearchNode : SearchNodePtr)
    (rawPolicy : Q) (sets : Sets) (st : State)
    : Outcome (BookHash * BoardHistory * bool * Sets * State) :=
  let nodePla := pla (getNode (book st) node) in
  if isMoveInBook (book st) node moveLoc then
    match follow (book st) node moveLoc with
    | None => NullNode st
    | Some child =>
      let st1 :=
        if negb (isLegal R hist moveLoc nodePla)
        then logging [LogIllegalMove node moveLoc]
               (withBook (updateNode (setCanExpand false) node (book st)) st)
        else st in
      let nextHist := makeBoardMoveAssumeLegal hist moveLoc nodePla in
      let st2 :=
        if leafWithFewerVisits (book st1) child search childSearchNode
        then setNodeThisValuesFromFinishedSearch R E child search childSearchNode nextHist [] st1
        else st1 in
      Returned (child, nextHist, false, sets, st2)
    end
  else
    match playAndAddMove R (book st) node hist moveLoc rawPolicy with
    | (None, _, _, b1) =>
      (* [child.isNull()]: logged and marked, then [child.hash()] is read *)
      NullNode (logging [LogIllegalMove node moveLoc]
                  (withBook (updateNode (setCanExpand false) node b1) st))
    | (Some child, nextHist, childIsTransposing, b1) =>
      let sets1 := insertToUpdate child sets in
      let st1 := logging [LogAdding node child moveLoc] (withBook b1 st) in
      let st2 :=
        if negb childIsTransposing || leafWithFewerVisits (book st1) child search childSearchNode
        then setNodeThisValuesFromFinishedSearch R E child search childSearchNode nextHist [] st1
        else st1 in
      Returned (child, nextHist, true, sets1, st2)
    end.

(** genbook.cpp:892-900: after the loop over the children. *)
Definition finishSplice (node : BookHash) (anythingAdded anyRecursion : bool)
    (sets : Sets) : Sets :=
  let sets1 := if anythingAdded || anyRecursion then insertToUpdate node sets else sets in
  if anythingAdded then insertToSearch node sets1 else sets1.

(** genbook.cpp:807-890: the loop over the children of the search node.
    [recurse] is the recursive call of genbook.cpp:883-886, at
    [maxDepth - 1]; [policyProbs] is the full-symmetry policy of the
    position of [node]. *)
Fixpoint spliceChildren (R : Rules) (E : Engine) (S : Settings)
    (recurse : SearchNodePtr -> BookHash -> BoardHistory -> Sets -> State ->
               Outcome (bool * Sets * State))
    (search : Search) (node : BookHash) (hist : BoardHistory) (maxDepth : Z)
    (bestLoc : Loc) (policyProbs : list Q)
    (cs : list (Loc * SearchNodePtr)) (anyRecursion anythingAdded : bool)
    (sets : Sets) (st : State) {struct cs} : Outcome (bool * Sets * State) :=
  match cs with
  | [] => Returned (anythingAdded, finishSplice node anythingAdded anyRecursion sets, st)
  | (moveLoc, childSearchNode) :: cs' =>
    let rawPolicy := nth (getPos E bestLoc) policyProbs 0%Q in
    let childVisits := statsVisits (nodeAt search childSearchNode) in
    if (moveLoc =? bestLoc) || (minTreeVisitsToRecord S <=? childVisits)
    then
      match spliceChild R E search node hist moveLoc childSearchNode rawPolicy sets st with
      | Returned (child, nextHist, added, sets1, st1) =>
        if (0 <? maxDepth) && (minTreeVisitsToRecord S <=? childVisits)
        then
          match recurse childSearchNode child nextHist sets1 st1 with
          | Returned (_, sets2, st2) =>
            spliceChildren R E S recurse search node hist maxDepth bestLoc policyProbs
              cs' true (anythingAdded || added) sets2 st2
          | other => other
          end
        else
          spliceChildren R E S recurse search node hist maxDepth bestLoc policyProbs
            cs' anyRecursion (anythingAdded || added) sets1 st1
      | Threw msg st' => Threw msg st'
      | AssertionFailed st' => AssertionFailed st'
      | NullNode st' => NullNode st'
      | OutOfFuel => OutOfFuel
      end
    else
      spliceChildren R E S recurse search node hist maxDepth bestLoc policyProbs
        cs' anyRecursion anythingAdded sets st
  end.

(** The function itself. [fuel] bounds the depth of the recursion of the
    model; the source has no such bound. *)
Fixpoint expandFromSearchResultRecursively (R : Rules) (E : Engine) (S : Settings)
    (fuel : nat) (search : Search) (searchNode : SearchNodePtr) (node : BookHash)
    (hist : BoardHistory) (maxDepth : Z) (sets : Sets) (st : State)
    {struct fuel} : Outcome (bool * Sets * State) :=
  match fuel with
  | O => OutOfFuel
  | Datatypes.S fuel' =>
    if maxDepth <=? 0 then Returned (false, sets, st)
    else if bool_decide (searchNode ∈ searchNodesRecursedOn sets)
    then Returned (false, sets, st)
    else
      let sets0 := insertRecursedOn searchNode sets in
      match playSelectionValues (nodeAt search searchNode) with
      | None => Returned (false, sets0, st)
      | Some (locs, values) =>
        let bestLoc := bestLocOf locs values in
        if (length (children (nodeAt search searchNode)) <=? 0)%nat
           || negb (hasNNOutput (nodeAt search searchNode))
        then Returned (false, sets0, st)
        else
          spliceChildren R E S
            (fun childSearchNode child nextHist sets1 st1 =>
               expandFromSearchResultRecursively R E S fuel' search childSearchNode
                 child nextHist (maxDepth - 1) sets1 st1)
            search node hist maxDepth bestLoc
            (getFullSymmetryNNOutput E hist (pla (getNode (book st) node)))
            (children (nodeAt search searchNode)) false false sets0 st
      end
  end.

(** The history of insertions agrees with the set and repeats no node. *)
Definition tracked (sets : Sets) : Prop :=
  NoDup (recursedInOrder sets) /\
  forall p, In p (recursedInOrder sets) -> p ∈ searchNodesRecursedOn sets.

(** [s'] was reached from [s] by insertions into [searchNodesRecursedOn]. *)
Definition extends (s s' : Sets) : Prop :=
  exists new, recursedInOrder s' = recursedInOrder s ++ new.

(** What a call leaves: it returns, and if it returns normally the sets are
    still [tracked] and only grew. *)
Definition settled (sets : Sets) (o : Outcome (bool * Sets * State)) : Prop :=
  match o with
  | OutOfFuel => False
  | Returned (_, sets', _) => tracked sets' /\ extends sets sets'
  | _ => True
  end.

(** Whether an event is the write of the values of [searchNode] to [node]. *)
Definition isWrite (node : BookHash) (searchNode : SearchNodePtr) (e : Ev) : bool :=
  match e with
  | WroteValuesFromSearch n p => (n =? node) && (p =? searchNode)
  | _ => false
  end.

(** The events of [st'] that [st] does not have yet. *)
Definition eventsSince (st st' : State) : list Ev :=
  drop (length (trace st)) (trace st').

(** *** [expandNode] (genbook.cpp:903-1057) *)

(** genbook.cpp:1021-1028: the short searches of the nodes of
    [nodesHashesToSearch], one after the other. *)
Fixpoint searchEach (R : Rules) (E : Engine) (S : Settings) (hashes : list BookHash)
    (st : State) : Outcome State :=
  match hashes with
  | [] => Returned st
  | hash :: rest =>
    match searchAndUpdateNodeThisValues R E S hash st with
    | Returned st1 => searchEach R E S rest st1
    | other => other
    end
  end.

(** [shouldStop] is what [shouldStop.load()] gives after the search. The
    result is [newAndChangedNodes] and the state. *)
Definition expandNode (R : Rules) (E : Engine) (S : Settings) (shouldStop : bool)
    (node : BookHash) (newAndChangedNodes : list BookHash) (st : State)
    : Outcome (list BookHash * State) :=
  match historyReachingHere (getNode (book st) node) with
  | None =>
    Returned (newAndChangedNodes,
              logging [LogFailedToGetHistory node]
                (withBook (updateNode (setCanExpand false) node (book st)) st))
  | Some hist =>
    let hashRet := getHashAndSymmetry R hist (repBound (book st)) (bookVersion (book st)) in
    if (2 <=? bookVersion (book st)) && negb (hashRet =? node)
    then Threw "Book failed integrity check"
           (logging [LogMoves (map fst (moveHistory hist))] st)
    else if isGameFinished R hist || isPastNormalPhaseEnd R hist
    then Returned (newAndChangedNodes,
                   withBook (updateNode (setCanExpand false) node (book st)) st)
    else
      let st0 := logging [LogExpanding node] st in
      let '(avoidMoveUntilByLoc, isReExpansion, foundNewMoves) :=
        findNewMovesAlreadyLocked R (book st0) hist node true in
      if negb foundNewMoves
      then Returned (newAndChangedNodes,
                     withBook (updateNode (setCanExpand false) node (book st0)) st0)
      else
        let thisParams :=
          setParamsAndAvoidMovesCompensatingCpuct R E hist
            {| maxVisits := maxVisits (searchParams S);
               wideRootNoise := wideRootNoiseBookExplore S;
               cpuctExploration := cpuctExploration (searchParams S);
               cpuctExplorationLog := cpuctExplorationLogBookExplore S |}
            avoidMoveUntilByLoc in
        let search := runWholeSearch E thisParams hist avoidMoveUntilByLoc in
        let st1 := logging [RanSearch thisParams hist avoidMoveUntilByLoc] st0 in
        if shouldStop then Returned (newAndChangedNodes, st1)
        else
          match expandFromSearchResultRecursively R E S
                  (Datatypes.S (Z.to_nat (maxDepthToRecord S)))
                  search (rootNode search) node hist (maxDepthToRecord S) noSets st1 with
          | Returned (anythingAdded, sets, st2) =>
            if negb (NDEBUG S)
               && negb (bool_decide (node ∈ nodesHashesToSearch sets)
                        && bool_decide (node ∈ nodesHashesToUpdate sets))
            then AssertionFailed st2
            else
              match searchEach R E S (elements (nodesHashesToSearch sets)) st2 with
              | Returned st3 =>
                let changed :=
                  newAndChangedNodes ++ elements (nodesHashesToUpdate sets) ++ [node] in
                let st4 := withBook (updateNode (setCanReExpand false) node (book st3)) st3 in
                if negb anythingAdded && negb isReExpansion
                then Returned (changed,
                               logging [LogCouldNotExpand node]
                                 (withBook (updateNode (setCanExpand false) node (book st4)) st4))
                else Returned (changed, st4)
              | Threw msg st' => Threw msg st'
              | AssertionFailed st' => AssertionFailed st'
              | NullNode st' => NullNode st'
              | OutOfFuel => OutOfFuel
              end
          | Threw msg st' => Threw msg st'
          | AssertionFailed st' => AssertionFailed st'
          | NullNode st' => NullNode st'
          | OutOfFuel => OutOfFuel
          end
  end.

(** [loopExpandingNodes] (genbook.cpp:1184-1194), for one worker: the nodes
    popped from [positionsToSearch] are expanded one after the other; an
    exception of [expandNode] is not caught. *)
Fixpoint loopExpandingNodes (R : Rules) (E : Engine) (S : Settings) (shouldStop : bool)
    (positionsToSearch : list BookHash) (newAndChangedNodes : list BookHash) (st : State)
    : Outcome (list BookHash * State) :=
  if shouldStop then Returned (newAndChangedNodes, st)
  else
    match positionsToSearch with
    | [] => Returned (newAndChangedNodes, st)
    | node :: rest =>
      match expandNode R E S shouldStop node newAndChangedNodes st with
      | Returned (changed, st1) => loopExpandingNodes R E S shouldStop rest changed st1
      | other => other
      end
    end.

(** ** [MainCmds::checkbook] (genbook.cpp:1234-1328) *)

(** [testNode] (genbook.cpp:1270-1312): what it logs. When the history
    cannot be rebuilt, [hist] is the default-constructed history. *)
Definition testNode (R : Rules) (b : Book) (node : BookHash) : list Ev :=
  let '(hist, failed) :=
    match historyReachingHere (getNode b node) with
    | Some hist => (hist, [])
    | None => ({| initialPla := bookInitialPla b; moveHistory := [] |},
               [LogFailedToGetHistory node; LogMoves []])
    end in
  let hashRet := getHashAndSymmetry R hist (repBound b) (bookVersion b) in
  if negb (hashRet =? node)
  then failed ++ [LogIntegrityFailure node hashRet; LogMoves (map fst (moveHistory hist))]
  else failed.

(** genbook.cpp:1317-1322: the loop over the nodes, with a line after every
    10000th node. *)
Fixpoint checkNodes (R : Rules) (b : Book) (total : Z) (allNodes : list BookHash)
    (numNodesChecked : Z) : list Ev :=
  match allNodes with
  | [] => []
  | node :: rest =>
    testNode R b node
    ++ (if Z.rem (numNodesChecked + 1) 10000 =? 0
        then [LogChecked (numNodesChecked + 1) total] else [])
    ++ checkNodes R b total rest (numNodesChecked + 1)
  end.

(** The command after the book is loaded: ["Checking book..."] is logged,
    every node is tested, then ["DONE"] is logged and [0] is returned. The
    result is the exit code and the log. *)
Definition checkbook (R : Rules) (b : Book) : Z * list Ev :=
  let allNodes := map fst (map_to_list (nodes b)) in
  (0, [LogCheckingBook]
      ++ checkNodes R b (Z.of_nat (length allNodes)) allNodes 0
      ++ [LogDone]).

(** ** A small game, to run the definitions on *)

Module Tiny.

(** Two playable points, [1] and [2], each playable once. The hash of a
    position depends on the book version and on the set of points played. *)
Definition played (hist : BoardHistory) (loc : Loc) : bool :=
  existsb (fun m => fst m =? loc) (moveHistory hist).

Definition R : Rules :=
  {| MAX_ARR_SIZE := 4;
     LATEST_BOOK_VERSION := 2;
     isLegal := fun hist loc _ => ((loc =? 1) || (loc =? 2)) && negb (played hist loc);
     moveTolerated := fun hist loc _ => ((loc =? 1) || (loc =? 2)) && negb (played hist loc);
     isGameFinished := fun _ => false;
     isPastNormalPhaseEnd := fun _ => false;
     isNoResult := fun _ => false;
     winner := fun _ => None;
     finalWhiteMinusBlackScore := fun _ => 0%Q;
     getHashAndSymmetry := fun hist _ bookVersion =>
       bookVersion + 10 * fold_left (fun acc m => acc + 10 ^ fst m) (moveHistory hist) 0 |}.

Definition values (wl : Q) (n : Z) : Reported.ReportedSearchValues :=
  {| Reported.winValue := 0; Reported.lossValue := 0; Reported.winLossValue := wl;
     Reported.utility := 0; Reported.weight := inject_Z n; Reported.visits := n |}.

Definition scores (score : Q) : Reported.ScoreMembers :=
  {| Reported.expectedScore := score; Reported.expectedScoreStdev := (1 # 2) |}.

Definition leaf (p : Player) (n : Z) : SearchNode :=
  {| nextPla := p; children := []; statsVisits := n; hasNNOutput := true;
     playSelectionValues := None; prunedNodeValues := values (1 # 4) n;
     prunedNodeScore := scores 3;
     sharpScore := 2; shorttermWLAndScoreError := (1 # 10, 1 # 5) |}.

(** The search of the empty board: point [1] is the best move, point [2]
    has enough visits to be recorded as well. *)
Definition searchOfRoot : Search :=
  {| rootNode := 1;
     nodeAt := fun p =>
       if p =? 1 then
         {| nextPla := P_BLACK; children := [(1, 11); (2, 12)]; statsVisits := 30;
            hasNNOutput := true;
            playSelectionValues := Some ([1; 2], [(7 # 10)%Q; (3 # 10)%Q]);
            prunedNodeValues := values (1 # 3) 30;
            prunedNodeScore := scores 4;
            sharpScore := 5; shorttermWLAndScoreError := (1 # 10, 1 # 5) |}
       else if p =? 11 then leaf P_WHITE 20
       else leaf P_WHITE 10 |}.

(** The search after black played [1]: white has one move, [2]. *)
Definition searchAfter1 : Search :=
  {| rootNode := 2;
     nodeAt := fun p =>
       if p =? 2 then
         {| nextPla := P_WHITE; children := [(2, 21)]; statsVisits := 30;
            hasNNOutput := true;
            playSelectionValues := Some ([2], [1%Q]);
            prunedNodeValues := values (1 # 3) 30;
            prunedNodeScore := scores 4;
            sharpScore := 5; shorttermWLAndScoreError := (1 # 10, 1 # 5) |}
       else leaf P_BLACK 10 |}.

(** A search graph with a cycle: the child of the root for [1] has the
    root itself as its child for [2]. *)
Definition searchWithCycle : Search :=
  {| rootNode := 1;
     nodeAt := fun p =>
       if p =? 1 then
         {| nextPla := P_BLACK; children := [(1, 11)]; statsVisits := 30;
            hasNNOutput := true;
            playSelectionValues := Some ([1], [1%Q]);
            prunedNodeValues := values (1 # 3) 30;
            prunedNodeScore := scores 4;
            sharpScore := 5; shorttermWLAndScoreError := (1 # 10, 1 # 5) |}
       else
         {| nextPla := P_WHITE; children := [(2, 1)]; statsVisits := 20;
            hasNNOutput := true;
            playSelectionValues := Some ([2], [1%Q]);
            prunedNodeValues := values (1 # 4) 20;
            prunedNodeScore := scores 3;
            sharpScore := 2; shorttermWLAndScoreError := (1 # 10, 1 # 5) |} |}.

Definition E : Engine :=
  {| getPos := Z.to_nat;
     getFullSymmetryNNOutput := fun _ _ => [0%Q; (3 # 5)%Q; (1 # 10)%Q; 0%Q];
     runWholeSearch := fun _ hist _ =>
       match moveHistory hist with [] => searchOfRoot | _ => searchAfter1 end;
     pow := fun x _ => x;
     toFloat := fun x => x |}.

Definition S (ndebug : bool) : Settings :=
  {| searchParams := {| maxVisits := 100; wideRootNoise := 0;
                        cpuctExploration := 1; cpuctExplorationLog := (1 # 2) |};
     minTreeVisitsToRecord := 5;
     maxDepthToRecord := 2;
     maxVisitsForLeaves := 50;
     wideRootNoiseBookExplore := 0;
     cpuctExplorationLogBookExplore := (1 # 2);
     NDEBUG := ndebug |}.

Definition empty : BoardHistory := {| initialPla := P_BLACK; moveHistory := [] |}.
Definition after1 : BoardHistory := {| initialPla := P_BLACK; moveHistory := [(1, P_BLACK)] |}.
Definition after2 : BoardHistory := {| initialPla := P_BLACK; moveHistory := [(2, P_BLACK)] |}.
Definition after12 : BoardHistory :=
  {| initialPla := P_BLACK; moveHistory := [(1, P_BLACK); (2, P_WHITE)] |}.

Definition bookOf (ns : gmap BookHash BookNode) : Book :=
  {| bookVersion := 2; initialBoardXSize := 2; initialBoardYSize := 1; initialBoard := 0;
     bookInitialPla := P_BLACK; bookRules := 0; repBound := 3;
     params := fun n => match n with maxVisitsForReExpansion => 1000%Q | _ => 1%Q end;
     bonusByHash := ∅;
     nodes := ns |}.

Definition withVisits (v : Q) (n : BookNode) : BookNode :=
  {| pla := pla n; historyReachingHere := historyReachingHere n;
     childrenInBook := childrenInBook n;
     thisValuesNotInBook := thisValuesNotInBook n;
     recursiveVisits := v;
     canExpand := canExpand n; canReExpand := canReExpand n |}.

(** A fresh book: the root alone, at hash [2]. *)
Definition freshBook : Book := bookOf {[ 2 := newNode P_BLACK (Some empty) ]}.

(** A book where black's [1] and white's answer [2] are recorded, and the
    node after [1] was only found on the way: it can be re-expanded. *)
Definition lineBook : Book :=
  bookOf
    (<[2 := withVisits 60 (setCanReExpand false
                 (addChild 1 102 (3 # 5) (newNode P_BLACK (Some empty))))]>
     (<[102 := withVisits 3 (addChild 2 1102 (1 # 10) (newNode P_WHITE (Some after1)))]>
      {[ 1102 := withVisits 50 (newNode P_BLACK (Some after12)) ]})).

(** A book whose node [102] records the moves of another position. *)
Definition brokenBook : Book :=
  bookOf
    (<[2 := addChild 1 102 (3 # 5) (newNode P_BLACK (Some empty))]>
     {[ 102 := newNode P_WHITE (Some after2) ]}).

(** A book where the position after [1] is known, with an answer recorded
    and [5] visits, but the root has no edge to it yet. *)
Definition transposingBook : Book :=
  bookOf
    (<[2 := newNode P_BLACK (Some empty)]>
     (<[102 := withVisits 5 (addChild 2 1102 (1 # 10) (newNode P_WHITE (Some after1)))]>
      {[ 1102 := newNode P_BLACK (Some after12) ]})).

Definition start (b : Book) : State := {| book := b; trace := [] |}.

(** A command line with a trace book and five iterations, and a
    configuration that agrees with [bookOf] except for [costPerMove]. *)
Definition traceAndIterations : Startup.Args :=
  {| Startup.traceBookFile := "other.book"; Startup.bonusFile := "";
     Startup.numIterations := 5; Startup.allowChangingBookParams := true |}.

Definition cfg : Startup.Config :=
  {| Startup.boardSizeX := 2; Startup.boardSizeY := 1; Startup.cfgRepBound := 3;
     Startup.rules := 0;
     Startup.cfgParams := fun n =>
       match n with
       | maxVisitsForReExpansion => 1000%Q
       | costPerMove => 2%Q
       | _ => 1%Q
       end |}.

Definition noBonus : Startup.BonusSetup :=
  {| Startup.scannedBonusByHash := ∅; Startup.bonusInitialBoard := 0;
     Startup.bonusInitialPla := P_BLACK |}.

(** [Global::stringToDouble] after [Global::trim], on the one number used. *)
Definition stringToDouble (s : string) : option Q :=
  if String.eqb s " 1.0" then Some 1%Q else None.

End Tiny.

(** ** Sizes handed to the neural net evaluator (genbook.cpp:206-211) *)

Module Sizing.

(** Arithmetic on [int], 32 bits, wrapping around. *)
Definition wrap32 (z : Z) : Z := (z + 2 ^ 31) mod 2 ^ 32 - 2 ^ 31.

(** [numGameThreads * params.numThreads * 2 + 16] *)
Definition maxConcurrentEvals (numGameThreads numThreads : Z) : Z :=
  wrap32 (wrap32 (wrap32 (numGameThreads * numThreads) * 2) + 16).

(** [numGameThreads * params.numThreads] *)
Definition expectedConcurrentEvals (numGameThreads numThreads : Z) : Z :=
  wrap32 (numGameThreads * numThreads).

(** [std::max(8,((numGameThreads * params.numThreads+3)/4)*4)] *)
Definition defaultMaxBatchSize (numGameThreads numThreads : Z) : Z :=
  Z.max 8
    (wrap32 (Z.quot (wrap32 (wrap32 (numGameThreads * numThreads) + 3)) 4 * 4)).

End Sizing.

(** ** The flags of a symmetry ([neuralnet/nninputs.h]:147-162) *)

Module SymmetryHelpers.

Definition NUM_SYMMETRIES : Z := 8.
Definition NUM_SYMMETRIES_WITHOUT_TRANSPOSE : Z := 4.

(** [(symmetry & 0x4) != 0] *)
Definition isTranspose (symmetry : Z) : bool := negb (Z.land symmetry 4 =? 0).

(** [(symmetry & 0x2) != 0] *)
Definition isFlipX (symmetry : Z) : bool := negb (Z.land symmetry 2 =? 0).

(** [(symmetry & 0x1) != 0] *)
Definition isFlipY (symmetry : Z) : bool := negb (Z.land symmetry 1 =? 0).

End SymmetryHelpers.

(** ** Reading the traces *)

(** The iterations before which the expansion loop saved the book. *)
Fixpoint savedBefore (trace : list Loop.Event) : list Z :=
  match trace with
  | [] => []
  | Loop.SaveToFile i :: rest => i :: savedBefore rest
  | _ :: rest => savedBefore rest
  end.

(** The first three comparisons of the branch [if(bookFileExists)]
    (genbook.cpp:242-263) all pass. *)
Definition basicChecksPass (args : Startup.Args) (cfg : Startup.Config)
    (bonus : Startup.BonusSetup) (b : Book) : bool :=
  (Startup.boardSizeX cfg =? initialBoardXSize b)
  && (Startup.boardSizeY cfg =? initialBoardYSize b)
  && (Startup.cfgRepBound cfg =? repBound b)
  && (Startup.rules cfg =? bookRules b)
  && (String.eqb (Startup.bonusFile args) ""
      || ((Startup.bonusInitialBoard bonus =? initialBoard b)
          && Player_eqb (Startup.bonusInitialPla bonus) (bookInitialPla b))).

(** The node's recorded moves can be replayed and lead to the node's own hash. *)
Definition walksToItself (R : Rules) (b : Book) (h : BookHash) (n : BookNode) : Prop :=
  exists hist, historyReachingHere n = Some hist /\
               getHashAndSymmetry R hist (repBound b) (bookVersion b) = h.

(** A line of [checkbook] that reports no finding. *)
Definition isProgress (e : Ev) : bool :=
  match e with
  | LogCheckingBook | LogChecked _ _ | LogDone => true
  | _ => false
  end.

(** The lines ["Checked N/M nodes"] of a run over [total] nodes: one for
    every multiple of 10000 up to [total]. *)
Definition checkedLines (total : nat) : list Ev :=
  map (fun m => LogChecked m (Z.of_nat total))
      (List.filter (fun m => Z.rem m 10000 =? 0) (map Z.of_nat (seq 1 total))).

(** The save-cadence check of genbook.cpp:1164, for a cadence other than zero. *)
Definition savesBefore (saveEveryIterations iteration : Z) : bool :=
  (Z.rem iteration saveEveryIterations =? 0) && negb (iteration =? 0).

(** The sample carries a bonus: its comment has "BONUS", its moves can be
    replayed to [hist], and the text after "BONUS" is the number [bonus]. *)
Definition carriesBonus (R : Rules) (stringToDouble : string -> option Q)
    (s : Bonus.PositionSample) (hist : BoardHistory) (bonus : Q) : Prop :=
  exists pos,
    Bonus.findBONUS (Bonus.comments s) = Some pos /\
    Bonus.replay R {| initialPla := initialPla (Bonus.sgfHist s); moveHistory := [] |}
      (moveHistory (Bonus.sgfHist s)) = Some hist /\
    stringToDouble (Bonus.afterBONUS (Bonus.comments s) pos) = Some bonus.

(** A position of the policy that belongs to an avoided location
    (genbook.cpp:539-544). *)
Definition isAvoidedPos (R : Rules) (E : Engine) (avoidMoveUntilByLoc : list Z)
    (pos : nat) : bool :=
  existsb (fun loc => (0 <? nth (Z.to_nat loc) avoidMoveUntilByLoc 0)
                      && (getPos E loc =? pos)%nat)
          (allLocs R).


(** ** What expanding keeps *)

(** [n'] is a later state of the node [n]: the player, the history and the
    visits are the same, every edge is still there with its child and its
    policy, and neither flag was switched on. *)
Definition nodeGrows (n n' : BookNode) : Prop :=
  pla n' = pla n /\
  historyReachingHere n' = historyReachingHere n /\
  recursiveVisits n' = recursiveVisits n /\
  (forall loc e, childrenInBook n !! loc = Some e -> childrenInBook n' !! loc = Some e) /\
  (canExpand n' = true -> canExpand n = true) /\
  (canReExpand n' = true -> canReExpand n = true).

(** [b'] is a later state of the book [b]: only the nodes differ, no node is
    gone, and each is a later state of itself. *)
Definition bookGrows (b b' : Book) : Prop :=
  b' = setNodes (nodes b') b /\
  forall h n, nodes b !! h = Some n ->
              exists n', nodes b' !! h = Some n' /\ nodeGrows n n'.

(** The same for the book and the log together: the log is only appended to. *)
Definition grows (st st' : State) : Prop :=
  bookGrows (book st) (book st') /\ exists evs, trace st' = trace st ++ evs.

(** The state a call leaves, however it ends. *)
Definition stateAfter {A : Type} (proj : A -> State) (o : Outcome A) : option State :=
  match o with
  | Returned a => Some (proj a)
  | Threw _ st => Some st
  | AssertionFailed st => Some st
  | NullNode st => Some st
  | OutOfFuel => None
  end.

(** A call that ends, and leaves a later state. *)
Definition ends {A : Type} (st : State) (proj : A -> State) (o : Outcome A) : Prop :=
  exists st', stateAfter proj o = Some st' /\ grows st st'.

(** The sets of a splice after some insertions: both only grew, and if
    every node to search was a node to update, that is still so. *)
Definition setsGrow (s s' : Sets) : Prop :=
  nodesHashesToSearch s ⊆ nodesHashesToSearch s' /\
  nodesHashesToUpdate s ⊆ nodesHashesToUpdate s' /\
  (nodesHashesToSearch s ⊆ nodesHashesToUpdate s ->
   nodesHashesToSearch s' ⊆ nodesHashesToUpdate s').

(** What a splice of [node] leaves: a later state, however it ends; and when
    it returns, sets that grew, with [node] in both of them if anything was
    added. *)
Definition spliced (node : BookHash) (sets : Sets) (st : State)
    (o : Outcome (bool * Sets * State)) : Prop :=
  match o with
  | Returned (anythingAdded, sets', st') =>
    grows st st' /\ setsGrow sets sets' /\
    (anythingAdded = true ->
     node ∈ nodesHashesToSearch sets' /\ node ∈ nodesHashesToUpdate sets')
  | Threw _ st' => grows st st'
  | AssertionFailed st' => grows st st'
  | NullNode st' => grows st st'
  | OutOfFuel => True
  end.

(** [n'] is [n] with other values of its own and, possibly, [canExpand]
    switched off. *)
Definition refreshed (n n' : BookNode) : Prop :=
  exists v : BookValues,
    n' = setThisValuesNotInBook v n \/
    n' = setCanExpand false (setThisValuesNotInBook v n).

(** ** [addVariationToBookWithoutUpdate] (genbook.cpp:632-743) *)

(** What the walk of a variation logs. *)
Inductive SkipEv : Type :=
| SkippedGameOver (node : BookHash)
| SkippedIllegal (node : BookHash)
| SkippedNonexpandable (node : BookHash).

(** What the walk needs and this tree does not have, as parameters:
    [NNPos::MAX_NN_POLICY_SIZE], [NNPos::posToLoc] on the board of the book,
    [Board::NULL_LOC], [book->getRoot()], and the comparison of the initial
    board, ko location and encore phase of a history with those of the book
    (genbook.cpp:644-649, without the player). *)
Record Tracer : Type := {
  MAX_NN_POLICY_SIZE : nat;
  posToLoc : nat -> Loc;
  NULL_LOC : Loc;
  getRoot : Book -> BookHash;
  sameInitialBoard : BoardHistory -> Book -> bool
}.

(** The book, [nodesHashesToUpdate] and the log during a walk. *)
Record Walk : Type := {
  walkBook : Book;
  toUpdate : gset BookHash;
  walkLog : list SkipEv
}.

(** How a walk ends. [WalkNullNode]: [node.playMove] gave a null node
    while moves are left (genbook.cpp:736 with assertions compiled out);
    what the source does with it is not followed. *)
Inductive WalkOutcome : Type :=
| WalkReturned (w : Walk)
| WalkThrew (msg : string) (w : Walk)
| WalkAssertionFailed (w : Walk)
| WalkNullNode (w : Walk).

(** genbook.cpp:693-706. [std::sort] leaves the order of equal policies
    open; here they keep the order of their positions. *)
Fixpoint insertByPolicy (x : Loc * Q) (l : list (Loc * Q)) : list (Loc * Q) :=
  match l with
  | [] => [x]
  | y :: l' => if Qltb (snd x) (snd y) then y :: insertByPolicy x l' else x :: y :: l'
  end.

Definition sortByPolicy (l : list (Loc * Q)) : list (Loc * Q) :=
  fold_right insertByPolicy [] l.

(** The [float] literal [0.05f], which is [13421773 / 2^28]. *)
Definition float_0_05 : Q := 13421773 # 268435456.

(** genbook.cpp:692-699: the positions with a noticeably higher policy. The
    threshold [1.5 * moveLocPolicy + 0.05f] is computed on [double], from a
    [float] policy and the [float] literal. *)
Definition higherPolicyMoves (T : Tracer) (policyProbs : list Q) (moveLoc : Loc)
    (moveLocPolicy : Q) : list (Loc * Q) :=
  flat_map
    (fun pos =>
       let loc := posToLoc T pos in
       if (loc =? NULL_LOC T) || (loc =? moveLoc) then []
       else if Qltb 0 (nth pos policyProbs 0%Q)
               && Qltb ((3 # 2) * moveLocPolicy + float_0_05)%Q (nth pos policyProbs 0%Q)
            then [(loc, nth pos policyProbs 0%Q)]
            else [])
    (seq 0 (MAX_NN_POLICY_SIZE T)).

Definition extraMoveLocsToExpand (T : Tracer) (policyProbs : list Q) (moveLoc : Loc)
    (moveLocPolicy : Q) : list (Loc * Q) :=
  sortByPolicy (higherPolicyMoves T policyProbs moveLoc moveLocPolicy).

(** genbook.cpp:713-721 and 724-731: the move is added if it is not in the
    book, and a child that is new is to be updated. *)
Definition addMoveIfAbsent (R : Rules) (node : BookHash) (hist : BoardHistory)
    (loc : Loc) (policy : Q) (w : Walk) : Walk :=
  if isMoveInBook (walkBook w) node loc then w
  else
    match playAndAddMove R (walkBook w) node hist loc policy with
    | (Some child, _, false, b1) =>
      {| walkBook := b1; toUpdate := {[child]} ∪ toUpdate w; walkLog := walkLog w |}
    | (_, _, _, b1) =>
      {| walkBook := b1; toUpdate := toUpdate w; walkLog := walkLog w |}
    end.

(** genbook.cpp:677-732: the moves added at a node that lacks [moveLoc]. *)
Definition addMovesAt (R : Rules) (E : Engine) (T : Tracer) (node : BookHash)
    (hist : BoardHistory) (curPla : Player) (moveLoc : Loc) (w : Walk) : Walk :=
  let policyProbs := getFullSymmetryNNOutput E hist curPla in
  let moveLocPolicy := nth (getPos E moveLoc) policyProbs 0%Q in
  let w1 :=
    {| walkBook := walkBook w; toUpdate := {[node]} ∪ toUpdate w; walkLog := walkLog w |} in
  fold_left
    (fun w' extra => addMoveIfAbsent R node hist (fst extra) (snd extra) w')
    (extraMoveLocsToExpand T policyProbs moveLoc moveLocPolicy)
    (addMoveIfAbsent R node hist moveLoc moveLocPolicy w1).

Definition skipping (e : SkipEv) (w : Walk) : Walk :=
  {| walkBook := walkBook w; toUpdate := toUpdate w; walkLog := walkLog w ++ [e] |}.

(** Modelled from the spec: [SymBookNode::playMove] is not in this tree. The
    walk is to "follow existing edges where present": the child is the one
    of [follow], and the move is made on the history by the player of the
    node. *)
Definition playMove (b : Book) (node : BookHash) (hist : BoardHistory) (moveLoc : Loc)
    : option (BookHash * BoardHistory) :=
  match follow b node moveLoc with
  | Some child => Some (child, makeBoardMoveAssumeLegal hist moveLoc (pla (getNode b node)))
  | None => None
  end.

(** genbook.cpp:653-742: the loop over the moves of the target history;
    [curPla] is the local [pla]. *)
Fixpoint walkVariation (R : Rules) (E : Engine) (S : Settings) (T : Tracer)
    (moves : list (Loc * Player)) (node : BookHash) (hist : BoardHistory)
    (curPla : Player) (w : Walk) {struct moves} : WalkOutcome :=
  match moves with
  | [] => WalkReturned w
  | (moveLoc, movePla) :: rest =>
    if isGameFinished R hist || isPastNormalPhaseEnd R hist
    then WalkReturned
           (skipping (SkippedGameOver node)
              {| walkBook := updateNode (setCanExpand false) node (walkBook w);
                 toUpdate := toUpdate w; walkLog := walkLog w |})
    else if negb (Player_eqb movePla curPla)
    then WalkThrew "Target board history to add player got out of sync" w
    else if negb (Player_eqb movePla (pla (getNode (walkBook w) node)))
    then WalkThrew "Target board history to add player got out of sync with node" w
    else if negb (isLegal R hist moveLoc movePla)
    then WalkReturned (skipping (SkippedIllegal node) w)
    else if negb (isMoveInBook (walkBook w) node moveLoc)
            && negb (canExpand (getNode (walkBook w) node))
    then WalkReturned (skipping (SkippedNonexpandable node) w)
    else if negb (isMoveInBook (walkBook w) node moveLoc)
            && negb (NDEBUG S)
            && Qltb (nth (getPos E moveLoc) (getFullSymmetryNNOutput E hist curPla) 0%Q) 0
    then WalkAssertionFailed w
    else
      let w1 :=
        if negb (isMoveInBook (walkBook w) node moveLoc)
        then addMovesAt R E T node hist curPla moveLoc w
        else w in
      if negb (NDEBUG S) && negb (isMoveInBook (walkBook w1) node moveLoc)
      then WalkAssertionFailed w1
      else
        match playMove (walkBook w1) node hist moveLoc with
        | None =>
          (* [node] is null: an assertion fails, or the walk goes on with it *)
          if negb (NDEBUG S) then WalkAssertionFailed w1
          else match rest with
               | [] => WalkReturned w1
               | _ :: _ => WalkNullNode w1
               end
        | Some (child, nextHist) =>
          walkVariation R E S T rest child nextHist (getOpp curPla) w1
        end
  end.

(** The function itself. The initial history of the book has no moves. *)
Definition addVariationToBookWithoutUpdate (R : Rules) (E : Engine) (S : Settings)
    (T : Tracer) (targetHist : BoardHistory) (nodesHashesToUpdate : gset BookHash)
    (b : Book) : WalkOutcome :=
  let w := {| walkBook := b; toUpdate := nodesHashesToUpdate; walkLog := [] |} in
  let hist := {| initialPla := bookInitialPla b; moveHistory := [] |} in
  let curPla := presumedNextMovePla hist in
  if negb (sameInitialBoard T targetHist b) || negb (Player_eqb (initialPla targetHist) curPla)
  then WalkThrew "Target board history to add to book doesn't start from the same position" w
  else walkVariation R E S T (moveHistory targetHist) (getRoot T b) hist curPla w.

(** Following the moves from a node of the book. *)
Fixpoint replayMoves (b : Book) (node : BookHash) (moves : list Loc) : option BookHash :=
  match moves with
  | [] => Some node
  | loc :: rest =>
    match follow b node loc with
    | Some child => replayMoves b child rest
    | None => None
    end
  end.

(** The walk in an outcome. *)
Definition walkOf (o : WalkOutcome) : Walk :=
  match o with
  | WalkReturned w => w
  | WalkThrew _ w => w
  | WalkAssertionFailed w => w
  | WalkNullNode w => w
  end.

(** [b'] is a later state of [b] in which no values were written: a node
    of [b] has the values it had, and a node that is new has none. *)
Definition walkGrows (b b' : Book) : Prop :=
  bookGrows b b' /\
  forall h n', nodes b' !! h = Some n' ->
               thisValuesNotInBook n' =
               match nodes b !! h with
               | Some n => thisValuesNotInBook n
               | None => noValues
               end.

(** Every node outside [s] is in [b'] what it was in [b], but for
    [canExpand], which may have been switched off. *)
Definition accounted (b b' : Book) (s : gset BookHash) : Prop :=
  forall h, h ∉ s ->
            nodes b' !! h = nodes b !! h \/
            exists n, nodes b !! h = Some n /\ nodes b' !! h = Some (setCanExpand false n).

(** Every edge of the book leads to a node of the book. *)
Definition closedBook (b : Book) : Prop :=
  forall h n loc e,
    nodes b !! h = Some n -> childrenInBook n !! loc = Some e ->
    is_Some (nodes b !! fst e).

(** What a walk does to its state. *)
Definition walked (w w' : Walk) : Prop :=
  walkGrows (walkBook w) (walkBook w') /\
  toUpdate w ⊆ toUpdate w' /\
  accounted (walkBook w) (walkBook w') (toUpdate w') /\
  exists evs, walkLog w' = walkLog w ++ evs.

(** What a walk from [node] over [moves] comes to on a closed book: it does
    not go on with a null node, an assertion fails only on a legal move
    with a negative policy, and a walk that returns without a skip has
    followed every move. *)
Definition soundWalk (R : Rules) (E : Engine) (node : BookHash) (moves : list Loc)
    (w : Walk) (o : WalkOutcome) : Prop :=
  match o with
  | WalkReturned w' =>
    walkLog w' = walkLog w ->
    exists final, replayMoves (walkBook w') node moves = Some final
  | WalkThrew _ _ => True
  | WalkAssertionFailed _ =>
    exists hist pla loc,
      isLegal R hist loc pla = true /\
      (nth (getPos E loc) (getFullSymmetryNNOutput E hist pla) 0 < 0)%Q
  | WalkNullNode _ => False
  end.

(** ** More of the small game *)

Module TinyMore.

(** A command line without [--allow-changing-book-params]. *)
Definition strictArgs : Startup.Args :=
  {| Startup.traceBookFile := ""; Startup.bonusFile := "";
     Startup.numIterations := 5; Startup.allowChangingBookParams := false |}.

(** Three versions of the book format, to see two of them hashed. *)
Definition R3 : Rules :=
  {| MAX_ARR_SIZE := 4;
     LATEST_BOOK_VERSION := 3;
     isLegal := isLegal Tiny.R;
     moveTolerated := moveTolerated Tiny.R;
     isGameFinished := fun _ => false;
     isPastNormalPhaseEnd := fun _ => false;
     isNoResult := fun _ => false;
     winner := fun _ => None;
     finalWhiteMinusBlackScore := fun _ => 0%Q;
     getHashAndSymmetry := getHashAndSymmetry Tiny.R |}.

Definition bonusAfter1 : Bonus.PositionSample :=
  {| Bonus.sgfHist := Tiny.after1; Bonus.comments := "try this BONUS 1.0" |}.

(** A later position of the SGF, with a comment that holds no bonus. *)
Definition plainAfter12 : Bonus.PositionSample :=
  {| Bonus.sgfHist := Tiny.after12; Bonus.comments := "a quiet answer" |}.

(** A net as [nninputs.h] has it: the policy of a move that is not legal is
    negative. *)
Definition maskedPolicy (hist : BoardHistory) (pla : Player) : list Q :=
  map (fun loc => if isLegal Tiny.R hist loc pla
                  then nth (Z.to_nat loc) [0%Q; (3 # 5)%Q; (1 # 10)%Q; 0%Q] 0%Q
                  else (-1)%Q)
      [0; 1; 2; 3].

Definition maskedE : Engine :=
  {| getPos := Z.to_nat;
     getFullSymmetryNNOutput := maskedPolicy;
     runWholeSearch := runWholeSearch Tiny.E;
     pow := pow Tiny.E;
     toFloat := toFloat Tiny.E |}.

(** The policy positions of the small game are its locations; the root of
    a book of version 2 is the node of the empty board. *)
Definition tracer : Tracer :=
  {| MAX_NN_POLICY_SIZE := 4; posToLoc := Z.of_nat; NULL_LOC := 0;
     getRoot := fun _ => 2; sameInitialBoard := fun _ _ => true |}.

End TinyMore.

(** * Properties *)

(** ** The expansion loop *)

Lemma requests_app (t1 t2 : list Loop.Event) :
  Loop.requests (t1 ++ t2) = Loop.requests t1 ++ Loop.requests t2.
Proof.
  induction t1 as [|e t1 IH]; simpl; [reflexivity|].
  destruct e; simpl; rewrite IH; reflexivity.
Qed.

Lemma cdiv2_nonneg (i : Z) : 0 <= i -> Loop.cdiv2 i = i / 2.
Proof. intros Hi. unfold Loop.cdiv2. apply Z.quot_div_nonneg; lia. Qed.

(** What a run of the loop asks of the selector, from any iteration on: it
    asks in [k] iterations in a row, once in each and for the ramp of that
    iteration, and goes no further only when the iterations are used up,
    when the stop flag is seen, or when the cadence is zero. *)
Lemma iterate_asks (stop : Loop.StopOracle) (save num : Z) (remaining : nat) :
  forall (iteration : Z) (trace : list Loop.Event),
    0 <= iteration ->
    exists k : nat,
      (k <= remaining)%nat /\
      Loop.requests (snd (Loop.iterate stop save num remaining iteration trace)) =
      Loop.requests trace ++
        map (fun j => Loop.ramp num (iteration + Z.of_nat j)) (seq 0 k) /\
      (forall i, (i < k)%nat -> Loop.stopBefore stop (iteration + Z.of_nat i) = false) /\
      (forall i, (Datatypes.S i < k)%nat ->
                 Loop.stopAfter stop (iteration + Z.of_nat i) = false) /\
      ((k < remaining)%nat ->
       save = 0 \/ Loop.stopBefore stop (iteration + Z.of_nat k) = true \/
       ((0 < k)%nat /\ Loop.stopAfter stop (iteration + Z.of_nat k - 1) = true)) /\
      (save = 0 -> k = 0%nat).
Proof.
  induction remaining as [|r IH]; intros iteration trace Hi; simpl.
  - exists 0%nat. split; [lia|]. split; [simpl; now rewrite app_nil_r|].
    repeat split; intros; lia.
  - destruct (Loop.stopBefore stop iteration) eqn:Hb.
    { exists 0%nat. split; [lia|]. split; [simpl; now rewrite app_nil_r|].
      split; [intros; lia|]. split; [intros; lia|]. split; [|reflexivity].
      intros _. right. left. simpl. now rewrite Z.add_0_r. }
    unfold Loop.cmod. destruct (Z.eqb_spec save 0) as [Hs|Hs].
    { exists 0%nat. split; [lia|]. split; [simpl; now rewrite app_nil_r|].
      split; [intros; lia|]. split; [intros; lia|]. split; [now left | reflexivity]. }
    set (trace1 := if (_ && _)%bool then _ else _).
    assert (Ht1 : Loop.requests trace1 = Loop.requests trace).
    { subst trace1. destruct (_ && _)%bool; [|reflexivity].
      rewrite requests_app. simpl. now rewrite app_nil_r. }
    destruct (Loop.stopAfter stop iteration) eqn:Ha.
    + exists 1%nat. split; [lia|]. split.
      { simpl. rewrite requests_app, Ht1. simpl. unfold Loop.ramp.
        rewrite cdiv2_nonneg by lia. now rewrite Z.add_0_r. }
      split.
      { intros i Hlt. replace i with 0%nat by lia. simpl. now rewrite Z.add_0_r. }
      split; [intros; lia|]. split; [|contradiction].
      intros _. right. right. split; [lia|].
      replace (iteration + Z.of_nat 1 - 1) with iteration by lia. exact Ha.
    + destruct (IH (iteration + 1)
                  (trace1 ++ [Loop.GetNextNToExpand iteration
                                (Z.min (1 + Loop.cdiv2 iteration) num);
                              Loop.ExpandAndRecompute iteration]))
        as (k & Hk & Heq & Hbefore & Hafter & Hcut & _); [lia|].
      exists (Datatypes.S k). split; [lia|]. split.
      { rewrite Heq, requests_app, Ht1. simpl.
        rewrite <- app_assoc. simpl. f_equal. f_equal.
        * unfold Loop.ramp. rewrite cdiv2_nonneg by lia. now rewrite Z.add_0_r.
        * rewrite <- seq_shift, map_map. apply map_ext. intros j.
          f_equal; lia. }
      split.
      { intros [|i] Hlt.
        - simpl. now rewrite Z.add_0_r.
        - replace (iteration + Z.of_nat (Datatypes.S i)) with (iteration + 1 + Z.of_nat i)
            by lia.
          apply Hbefore. lia. }
      split.
      { intros [|i] Hlt.
        - simpl. now rewrite Z.add_0_r.
        - replace (iteration + Z.of_nat (Datatypes.S i)) with (iteration + 1 + Z.of_nat i)
            by lia.
          apply Hafter. lia. }
      split; [|contradiction].
      intros Hlt. right.
      destruct (Hcut ltac:(lia)) as [H0|[Hstop|[Hpos Hstop]]]; [contradiction| |].
      * left. replace (iteration + Z.of_nat (Datatypes.S k)) with (iteration + 1 + Z.of_nat k)
          by lia. exact Hstop.
      * right. split; [lia|].
        replace (iteration + Z.of_nat (Datatypes.S k) - 1)
          with (iteration + 1 + Z.of_nat k - 1) by lia. exact Hstop.
Qed.

(** C7. In every run of the expansion loop the selector is asked in the
    iterations [0 .. k-1], once in each and in this order, and in iteration
    [i] for exactly [min(1 + i/2, numToExpandPerIteration)] nodes, [i/2]
    being integer division. The run gets as far as the stop flag lets it:
    no iteration before [k] saw the flag set, and it ends before
    [numIterations] only when the flag is set at the top of iteration [k]
    or after iteration [k-1], or when the save cadence is zero, which ends
    it in iteration 0. A run with a cadence other than zero that nothing
    stops asks in every iteration below [numIterations]. *)
Theorem C7_selector_asked_for_ramp (stop : Loop.StopOracle)
    (numIterations saveEveryIterations numToExpandPerIteration : Z) :
  let asked :=
    Loop.requests
      (snd (Loop.expansionLoop stop numIterations saveEveryIterations
              numToExpandPerIteration)) in
  exists k : nat,
    (k <= Z.to_nat numIterations)%nat /\
    asked = map (fun i => (Z.of_nat i,
                           Z.min (1 + Z.of_nat i / 2) numToExpandPerIteration))
                (seq 0 k) /\
    (forall i, (i < k)%nat -> Loop.stopBefore stop (Z.of_nat i) = false) /\
    (forall i, (Datatypes.S i < k)%nat -> Loop.stopAfter stop (Z.of_nat i) = false) /\
    ((k < Z.to_nat numIterations)%nat ->
     saveEveryIterations = 0 \/
     Loop.stopBefore stop (Z.of_nat k) = true \/
     ((0 < k)%nat /\ Loop.stopAfter stop (Z.of_nat k - 1) = true)) /\
    (saveEveryIterations = 0 -> k = 0%nat) /\
    (saveEveryIterations <> 0 ->
     (forall i, Loop.stopBefore stop i = false /\ Loop.stopAfter stop i = false) ->
     k = Z.to_nat numIterations).
Proof.
  intros asked. subst asked. unfold Loop.expansionLoop.
  destruct (iterate_asks stop saveEveryIterations numToExpandPerIteration
              (Z.to_nat numIterations) 0 [])
    as (k & Hk & Heq & Hbefore & Hafter & Hcut & Hzero); [lia|].
  exists k. split; [exact Hk|]. split.
  { rewrite Heq. simpl. apply map_ext. intros j. unfold Loop.ramp.
    now rewrite Z.add_0_l. }
  split; [intros i Hlt; exact (Hbefore i Hlt)|].
  split; [intros i Hlt; exact (Hafter i Hlt)|].
  split; [intros Hlt; exact (Hcut Hlt)|].
  split; [exact Hzero|].
  intros Hs Hnever.
  destruct (Nat.eq_dec k (Z.to_nat numIterations)) as [Heqk|Hne]; [exact Heqk|].
  exfalso. destruct (Hcut ltac:(lia)) as [H0|[Hstop|[_ Hstop]]]; [contradiction| |].
  - destruct (Hnever (0 + Z.of_nat k)) as [Hb _]. congruence.
  - destruct (Hnever (0 + Z.of_nat k - 1)) as [_ Ha]. congruence.
Qed.

(** Five iterations capped at two nodes. *)
Example requests_of_five_iterations :
  Loop.requests (snd (Loop.expansionLoop Loop.neverStop 5 2 2)) =
  [(0, 1); (1, 1); (2, 2); (3, 2); (4, 2)].
Proof. reflexivity. Qed.

(** When nothing stops the loop and the save cadence is not zero, every
    iteration below [numIterations] asks the selector once. *)
Lemma iterate_runs_to_the_end (save num : Z) (remaining : nat) :
  forall (iteration : Z) (trace : list Loop.Event),
    save <> 0 ->
    fst (Loop.iterate Loop.neverStop save num remaining iteration trace) = Loop.LoopEnded /\
    length (Loop.requests
              (snd (Loop.iterate Loop.neverStop save num remaining iteration trace))) =
    (length (Loop.requests trace) + remaining)%nat.
Proof.
  induction remaining as [|r IH]; intros iteration trace Hs; simpl.
  - split; [reflexivity | lia].
  - unfold Loop.cmod. destruct (Z.eqb_spec save 0) as [->|_]; [contradiction|].
    match goal with |- context [Loop.iterate _ _ _ r _ ?t] => specialize (IH (iteration + 1) t Hs) end.
    destruct IH as [IH1 IH2]. split; [exact IH1|].
    rewrite IH2, requests_app. rewrite length_app. simpl.
    destruct (_ && _)%bool; [rewrite requests_app, length_app; simpl|]; lia.
Qed.

(** C10. With [--save-every 0] the save-cadence check divides by zero in
    whatever iteration it is evaluated, and it is evaluated already in
    iteration 0, because [iteration % saveEveryIterations] comes before
    [iteration != 0]: a run of at least one iteration that is not stopped
    at once ends there, before anything is asked of the selector. *)
Theorem C10_save_every_zero_divides (stop : Loop.StopOracle)
    (numIterations numToExpandPerIteration : Z) :
  0 < numIterations ->
  Loop.stopBefore stop 0 = false ->
  (forall iteration, Loop.cmod iteration 0 = None) /\
  Loop.expansionLoop stop numIterations 0 numToExpandPerIteration =
  (Loop.DivisionByZero 0, []).
Proof.
  intros Hn Hstop. split; [reflexivity|]. unfold Loop.expansionLoop.
  destruct (Z.to_nat numIterations) as [|r] eqn:Hr; [lia|].
  simpl. now rewrite Hstop.
Qed.

Lemma C10_save_every_zero_divides_witness :
  (forall iteration, Loop.cmod iteration 0 = None) /\
  Loop.expansionLoop Loop.neverStop 1 0 1 = (Loop.DivisionByZero 0, []).
Proof.
  apply (C10_save_every_zero_divides Loop.neverStop 1 1); [lia | reflexivity].
Defined.

(** For any other cadence the check never divides by zero. *)
Lemma save_every_nonzero_never_divides (numIterations save num : Z) :
  save <> 0 ->
  fst (Loop.expansionLoop Loop.neverStop numIterations save num) = Loop.LoopEnded.
Proof.
  intros Hs. unfold Loop.expansionLoop.
  now destruct (iterate_runs_to_the_end save num (Z.to_nat numIterations) 0 [] Hs).
Qed.

(** ** The bonus scan *)

Lemma versionsHashed_below_latest (R : Rules) (v : Z) :
  In v (Bonus.versionsHashed R) -> 1 <= v < LATEST_BOOK_VERSION R.
Proof.
  unfold Bonus.versionsHashed. rewrite in_map_iff.
  intros [k [<- Hk]]. apply in_seq in Hk. lia.
Qed.

Lemma addBonus_elsewhere (R : Rules) (repBound : Z) (hist : BoardHistory) (bonus : Q)
    (target : BookHash) (versions : list Z) :
  forall acc : gmap BookHash Q * list Bonus.Event,
    (forall v, In v versions -> getHashAndSymmetry R hist repBound v <> target) ->
    fst (Bonus.addBonus R repBound hist bonus versions acc) !! target = fst acc !! target.
Proof.
  induction versions as [|v vs IH]; intros acc Hne; simpl; [reflexivity|].
  rewrite IH by (intros w Hw; apply Hne; now right).
  simpl. apply lookup_insert_ne. apply Hne. now left.
Qed.

Lemma scan_elsewhere (R : Rules) (stringToDouble : string -> option Q) (repBound : Z)
    (target : BookHash) (samples : list Bonus.PositionSample) :
  forall (acc : gmap BookHash Q * list Bonus.Event) (m : gmap BookHash Q)
         (log : list Bonus.Event),
    (forall h v, 1 <= v < LATEST_BOOK_VERSION R ->
                 getHashAndSymmetry R h repBound v <> target) ->
    Bonus.scan R stringToDouble repBound samples acc = Bonus.Scanned m log ->
    m !! target = fst acc !! target.
Proof.
  induction samples as [|s rest IH]; intros acc m log Hne Hscan; simpl in Hscan.
  - now inversion Hscan.
  - destruct (Bonus.onPosition R stringToDouble repBound s acc) as [acc'|] eqn:Hon;
      [|discriminate].
    rewrite (IH acc' m log Hne Hscan).
    unfold Bonus.onPosition in Hon.
    destruct (Bonus.findBONUS (Bonus.comments s)); [|now inversion Hon].
    destruct (Bonus.replay R _ _) as [hist|]; [|now inversion Hon].
    destruct (stringToDouble _) as [bonus|]; [|discriminate].
    inversion Hon; subst acc'.
    apply addBonus_elsewhere. intros v Hv. apply Hne.
    now apply versionsHashed_below_latest.
Qed.

(** C2. The scan enters a bonus under the hashes of the book versions
    [1 .. LATEST_BOOK_VERSION - 1] only. A node of a book of the latest
    version, whose hash no older version produces, has no entry in
    [bonusByHash], whatever the comments of the SGF say: its bonus is zero. *)
Theorem C2_latest_version_is_not_hashed (R : Rules) (stringToDouble : string -> option Q)
    (repBound : Z) (samples : list Bonus.PositionSample) (hist : BoardHistory)
    (m : gmap BookHash Q) (log : list Bonus.Event) :
  (forall h v, 1 <= v < LATEST_BOOK_VERSION R ->
     getHashAndSymmetry R h repBound v <>
     getHashAndSymmetry R hist repBound (LATEST_BOOK_VERSION R)) ->
  Bonus.bonusByHashOf R stringToDouble repBound samples = Bonus.Scanned m log ->
  m !! getHashAndSymmetry R hist repBound (LATEST_BOOK_VERSION R) = None /\
  Bonus.bonusOfNode R repBound (LATEST_BOOK_VERSION R) m hist = 0%Q.
Proof.
  intros Hne Hscan.
  assert (Hm : m !! getHashAndSymmetry R hist repBound (LATEST_BOOK_VERSION R) = None).
  { rewrite (scan_elsewhere R stringToDouble repBound _ samples (∅, []) m log Hne Hscan).
    apply lookup_empty. }
  split; [exact Hm|]. unfold Bonus.bonusOfNode. now rewrite Hm.
Qed.

(** The comment ["BONUS 1.0"] on the position after black's [1], in the
    small game: the bonus is entered under the hash of version 1 and a book
    of version 2 does not find it. *)
Lemma C2_latest_version_is_not_hashed_witness :
  Bonus.bonusByHashOf Tiny.R Tiny.stringToDouble 3
    [{| Bonus.sgfHist := Tiny.after1; Bonus.comments := "BONUS 1.0" |}]
  = Bonus.Scanned {[ 101 := 1%Q ]} [Bonus.AddingBonus 1 101] /\
  ({[ 101 := 1%Q ]} : gmap BookHash Q) !! 102 = None /\
  Bonus.bonusOfNode Tiny.R 3 2 {[ 101 := 1%Q ]} Tiny.after1 = 0%Q.
Proof.
  assert (Hscan :
    Bonus.bonusByHashOf Tiny.R Tiny.stringToDouble 3
      [{| Bonus.sgfHist := Tiny.after1; Bonus.comments := "BONUS 1.0" |}]
    = Bonus.Scanned {[ 101 := 1%Q ]} [Bonus.AddingBonus 1 101]) by reflexivity.
  split; [exact Hscan|].
  eapply (C2_latest_version_is_not_hashed Tiny.R Tiny.stringToDouble 3 _ Tiny.after1);
    [|exact Hscan].
  intros h v Hv. simpl in *. lia.
Defined.

(** ** Start-up *)

Section ChangingParams.

Variable cfg : Startup.Config.

Lemma changeParam_keeps_graph (names : list ParamName) :
  forall acc : Book * list Startup.Event,
    nodes (fst (fold_left (Startup.changeParam cfg) names acc)) = nodes (fst acc) /\
    bonusByHash (fst (fold_left (Startup.changeParam cfg) names acc)) = bonusByHash (fst acc).
Proof.
  induction names as [|n ns IH]; intros acc; simpl; [easy|].
  destruct (IH (Startup.changeParam cfg acc n)) as [H1 H2].
  rewrite H1, H2. unfold Startup.changeParam.
  now destruct (Qneb _ _).
Qed.

Lemma changeParam_events (p : Startup.Event -> bool) (names : list ParamName) :
  (forall n old new, p (Startup.ChangingParam n old new) = false) ->
  forall acc : Book * list Startup.Event,
    existsb p (snd (fold_left (Startup.changeParam cfg) names acc)) = existsb p (snd acc).
Proof.
  intros Hp. induction names as [|n ns IH]; intros acc; simpl; [reflexivity|].
  rewrite IH. unfold Startup.changeParam.
  destruct (Qneb _ _); [|reflexivity].
  simpl. rewrite existsb_app. simpl. rewrite Hp. now rewrite !orb_false_r.
Qed.

End ChangingParams.

Lemma nonempty_has_length (s : string) : s <> "" -> (String.length s =? 0)%nat = false.
Proof. destruct s; [congruence | reflexivity]. Qed.

(** What opening the book leaves, for a book file that exists: the graph
    and the bonuses of the file, no save, nothing of what follows the check
    of the trace book. *)
Lemma loadExisting_keeps_graph (args : Startup.Args) (cfg : Startup.Config)
    (bonus : Startup.BonusSetup) (b : Book) :
  let o := Startup.loadExisting args cfg bonus b in
  existsb Startup.savesBook (Startup.events o) = false /\
  existsb Startup.afterTraceCheck (Startup.events o) = false /\
  exists b', Startup.book o = Some b' /\ nodes b' = nodes b /\
             bonusByHash b' = bonusByHash b.
Proof.
  unfold Startup.loadExisting.
  repeat match goal with
         | |- context [if ?c then _ else _] => destruct c
         end; cbn [Startup.events Startup.book];
    try (split; [reflexivity | split; [reflexivity | now exists b]]).
  rewrite !changeParam_events by reflexivity. cbn [snd fst].
  split; [reflexivity | split; [reflexivity|]].
  eexists. split; [reflexivity|]. apply changeParam_keeps_graph.
Qed.

(** C9, as the code has it. With a trace book file and a positive number
    of iterations the start-up always ends in an error, and in the error
    "Cannot specify iterations and trace book at the same time" when the
    earlier start-up checks pass. The error comes before the trace book is
    loaded, before the bonuses are set and before any recomputation; a
    book that was on disk is not saved and keeps its nodes and bonuses.
    (It can have had its parameters changed in memory, and a book that was
    not on disk has been created and saved: see the counterexample.) *)
Theorem C9_trace_and_iterations_exclusive (R : Rules) (args : Startup.Args)
    (cfg : Startup.Config) (bonus : Startup.BonusSetup) (onDisk : option Book) :
  Startup.traceBookFile args <> "" ->
  0 < Startup.numIterations args ->
  let o := Startup.startup R args cfg bonus onDisk in
  (exists msg, Startup.status o = Startup.Threw msg) /\
  (Startup.status (Startup.openBook R args cfg bonus onDisk) = Startup.Proceed ->
   Startup.status o =
   Startup.Threw "Cannot specify iterations and trace book at the same time") /\
  existsb Startup.afterTraceCheck (Startup.events o) = false /\
  (forall b, onDisk = Some b ->
     existsb Startup.savesBook (Startup.events o) = false /\
     exists b', Startup.book o = Some b' /\ nodes b' = nodes b /\
                bonusByHash b' = bonusByHash b).
Proof.
  intros Htrace Hiter o.
  assert (Ho : o = Startup.openBook R args cfg bonus onDisk \/
               (Startup.status (Startup.openBook R args cfg bonus onDisk) = Startup.Proceed /\
                o = {| Startup.status :=
                         Startup.Threw "Cannot specify iterations and trace book at the same time";
                       Startup.book := Startup.book (Startup.openBook R args cfg bonus onDisk);
                       Startup.events := Startup.events (Startup.openBook R args cfg bonus onDisk) |})).
  { subst o. unfold Startup.startup, Startup.afterBook.
    destruct (Startup.status (Startup.openBook R args cfg bonus onDisk)) eqn:Hst.
    - right. split; [reflexivity|].
      rewrite (nonempty_has_length _ Htrace). simpl.
      destruct (Z.gtb_spec (Startup.numIterations args) 0); [reflexivity | lia].
    - now left. }
  assert (Hopen : existsb Startup.afterTraceCheck
                    (Startup.events (Startup.openBook R args cfg bonus onDisk)) = false /\
                  forall b, onDisk = Some b ->
                    existsb Startup.savesBook
                      (Startup.events (Startup.openBook R args cfg bonus onDisk)) = false /\
                    exists b', Startup.book (Startup.openBook R args cfg bonus onDisk) = Some b' /\
                               nodes b' = nodes b /\ bonusByHash b' = bonusByHash b).
  { unfold Startup.openBook. destruct onDisk as [b|].
    - destruct (loadExisting_keeps_graph args cfg bonus b) as [H1 [H2 H3]].
      split; [exact H2|]. intros b0 Hb0. inversion Hb0; subst b0. now split.
    - split; [reflexivity|]. intros b Hb. discriminate. }
  destruct Hopen as [Hafter Hdisk].
  destruct Ho as [Ho | [Hst Ho]].
  - (* an earlier check threw *)
    assert (Hthrew : exists msg, Startup.status o = Startup.Threw msg).
    { subst o. unfold Startup.startup, Startup.afterBook in *.
      destruct (Startup.status (Startup.openBook R args cfg bonus onDisk)) eqn:Hst.
      - rewrite (nonempty_has_length _ Htrace). simpl.
        destruct (Z.gtb_spec (Startup.numIterations args) 0); [|lia].
        simpl. eauto.
      - rewrite Hst. eauto. }
    split; [exact Hthrew|]. rewrite Ho.
    split; [|split; [exact Hafter | exact Hdisk]].
    intros Hp. destruct Hthrew as [msg Hmsg]. rewrite Ho in Hmsg. congruence.
  - rewrite Ho. simpl. split; [eauto|]. split; [reflexivity|].
    split; [exact Hafter | exact Hdisk].
Qed.

Lemma C9_trace_and_iterations_exclusive_witness :
  Startup.status
    (Startup.startup Tiny.R Tiny.traceAndIterations Tiny.cfg Tiny.noBonus
       (Some Tiny.freshBook))
  = Startup.Threw "Cannot specify iterations and trace book at the same time".
Proof.
  apply (C9_trace_and_iterations_exclusive Tiny.R Tiny.traceAndIterations Tiny.cfg
           Tiny.noBonus (Some Tiny.freshBook));
    [discriminate | reflexivity | reflexivity].
Defined.

(** C9 as stated fails: the error is not raised before any change to the
    book. With [--allow-changing-book-params] and a different [costPerMove]
    the loaded book has its parameter overwritten before the error; when
    the book file does not exist, a new book is created and saved before
    the error. *)
Lemma C9_counterexample :
  let loaded := Startup.startup Tiny.R Tiny.traceAndIterations Tiny.cfg Tiny.noBonus
                  (Some Tiny.freshBook) in
  let created := Startup.startup Tiny.R Tiny.traceAndIterations Tiny.cfg Tiny.noBonus
                   None in
  (Startup.status loaded =
     Startup.Threw "Cannot specify iterations and trace book at the same time" /\
   Startup.events loaded =
     [Startup.LoadedBookFile; Startup.ChangingParam costPerMove 1 2] /\
   existsb Startup.changesBook (Startup.events loaded) = true /\
   params Tiny.freshBook costPerMove = 1%Q /\
   option_map (fun b => params b costPerMove) (Startup.book loaded) = Some 2%Q) /\
  (Startup.status created =
     Startup.Threw "Cannot specify iterations and trace book at the same time" /\
   Startup.events created =
     [Startup.CreatedNewBook; Startup.SavedBookFile; Startup.WroteCfgSidecar] /\
   existsb Startup.changesBook (Startup.events created) = true).
Proof. vm_compute. repeat split. Qed.

(** ** Nodes of the book *)

Lemma getNode_updateNode_same (f : BookNode -> BookNode) (h : BookHash) (b : Book)
    (n : BookNode) :
  nodes b !! h = Some n -> getNode (updateNode f h b) h = f n.
Proof.
  intros Hn. unfold getNode, updateNode. simpl.
  rewrite lookup_alter_eq, Hn. reflexivity.
Qed.

Lemma getNode_updateNode_ne (f : BookNode -> BookNode) (h h' : BookHash) (b : Book) :
  h <> h' -> getNode (updateNode f h b) h' = getNode b h'.
Proof.
  intros Hne. unfold getNode, updateNode. simpl.
  now rewrite lookup_alter_ne.
Qed.

Lemma lookup_updateNode (f : BookNode -> BookNode) (h h' : BookHash) (b : Book) :
  nodes (updateNode f h b) !! h' =
  if decide (h = h') then f <$> nodes b !! h' else nodes b !! h'.
Proof.
  unfold updateNode. simpl. destruct (decide (h = h')) as [->|Hne].
  - apply lookup_alter_eq.
  - now apply lookup_alter_ne.
Qed.

(** ** Integrity failures *)

(** What [testNode] logs for a node of the book is in the log of [checkbook]. *)
Lemma testNode_in_checkbook (R : Rules) (b : Book) (node : BookHash) (e : Ev) :
  is_Some (nodes b !! node) -> In e (testNode R b node) -> In e (snd (checkbook R b)).
Proof.
  intros [n Hn] He. unfold checkbook. cbv zeta. cbn [snd].
  apply in_or_app. right. apply in_or_app. left.
  assert (Hnode : In node (map fst (map_to_list (nodes b)))).
  { apply (in_map fst _ (node, n)). apply list_elem_of_In. now apply elem_of_map_to_list. }
  revert Hnode. generalize (Z.of_nat (length (map fst (map_to_list (nodes b))))).
  generalize 0. generalize (map fst (map_to_list (nodes b))).
  intros allNodes. induction allNodes as [|h rest IH]; intros c total Hnode; simpl.
  - destruct Hnode.
  - apply in_or_app. destruct Hnode as [->|Hnode]; [now left|].
    right. apply in_or_app. right. now apply IH.
Qed.

Lemma expandNode_integrity_failure (R : Rules) (E : Engine) (S : Settings)
    (shouldStop : bool) (node : BookHash) (newAndChangedNodes : list BookHash)
    (st : State) (hist : BoardHistory) :
  historyReachingHere (getNode (book st) node) = Some hist ->
  2 <= bookVersion (book st) ->
  getHashAndSymmetry R hist (repBound (book st)) (bookVersion (book st)) <> node ->
  expandNode R E S shouldStop node newAndChangedNodes st =
    Threw "Book failed integrity check"
      (logging [LogMoves (map fst (moveHistory hist))] st).
Proof.
  intros Hhist Hver Hne. unfold expandNode. rewrite Hhist.
  destruct (Z.leb_spec 2 (bookVersion (book st))); [|lia].
  destruct (Z.eqb_spec
              (getHashAndSymmetry R hist (repBound (book st)) (bookVersion (book st)))
              node); [contradiction | reflexivity].
Qed.

(** C1, as the code has it. In [genbook], when a node selected for
    expansion in a book of version 2 or later is walked to a hash other than
    its own, the moves are logged and [expandNode] throws "Book failed
    integrity check": the book is left as it was, [canExpand] included, and
    the worker does not go on to the nodes that remain. In [checkbook] the
    same failure is logged by [testNode], the command goes on to the other
    nodes, logs "DONE" and returns 0. *)
Theorem C1_integrity_failure_throws_in_genbook (R : Rules) (E : Engine) (S : Settings)
    (shouldStop : bool) (node : BookHash) (newAndChangedNodes : list BookHash)
    (st : State) (hist : BoardHistory) :
  historyReachingHere (getNode (book st) node) = Some hist ->
  2 <= bookVersion (book st) ->
  getHashAndSymmetry R hist (repBound (book st)) (bookVersion (book st)) <> node ->
  (exists st',
     expandNode R E S shouldStop node newAndChangedNodes st =
       Threw "Book failed integrity check" st' /\
     (forall rest,
        loopExpandingNodes R E S false (node :: rest) newAndChangedNodes st =
          Threw "Book failed integrity check" st') /\
     book st' = book st /\
     trace st' = trace st ++ [LogMoves (map fst (moveHistory hist))]) /\
  testNode R (book st) node =
    [LogIntegrityFailure node
       (getHashAndSymmetry R hist (repBound (book st)) (bookVersion (book st)));
     LogMoves (map fst (moveHistory hist))] /\
  (is_Some (nodes (book st) !! node) ->
   In (LogIntegrityFailure node
         (getHashAndSymmetry R hist (repBound (book st)) (bookVersion (book st))))
      (snd (checkbook R (book st)))) /\
  fst (checkbook R (book st)) = 0 /\
  last (snd (checkbook R (book st))) = Some LogDone.
Proof.
  intros Hhist Hver Hne.
  assert (Htest : testNode R (book st) node =
    [LogIntegrityFailure node
       (getHashAndSymmetry R hist (repBound (book st)) (bookVersion (book st)));
     LogMoves (map fst (moveHistory hist))]).
  { unfold testNode. rewrite Hhist.
    destruct (Z.eqb_spec
                (getHashAndSymmetry R hist (repBound (book st)) (bookVersion (book st)))
                node); [contradiction|].
    reflexivity. }
  split; [|split; [exact Htest | split; [|split; [reflexivity|]]]];
    [| |unfold checkbook; cbv zeta; cbn [snd]; rewrite app_assoc; apply last_snoc];
    [|intros Hin; apply (testNode_in_checkbook R (book st) node); [exact Hin|];
      rewrite Htest; now left].
  - exists (logging [LogMoves (map fst (moveHistory hist))] st).
    split; [now apply expandNode_integrity_failure|].
    split; [|split; reflexivity].
    intros rest. simpl.
    now rewrite (expandNode_integrity_failure R E S false node newAndChangedNodes st hist).
Qed.

Lemma C1_integrity_failure_throws_in_genbook_witness :
  (exists st',
     expandNode Tiny.R Tiny.E (Tiny.S true) false 102 [] (Tiny.start Tiny.brokenBook) =
       Threw "Book failed integrity check" st' /\
     (forall rest,
        loopExpandingNodes Tiny.R Tiny.E (Tiny.S true) false (102 :: rest) []
          (Tiny.start Tiny.brokenBook) =
          Threw "Book failed integrity check" st') /\
     book st' = Tiny.brokenBook /\
     trace st' = [LogMoves [2]]) /\
  testNode Tiny.R Tiny.brokenBook 102 = [LogIntegrityFailure 102 1002; LogMoves [2]] /\
  (is_Some (nodes Tiny.brokenBook !! 102) ->
   In (LogIntegrityFailure 102 1002) (snd (checkbook Tiny.R Tiny.brokenBook))) /\
  fst (checkbook Tiny.R Tiny.brokenBook) = 0 /\
  last (snd (checkbook Tiny.R Tiny.brokenBook)) = Some LogDone.
Proof.
  apply (C1_integrity_failure_throws_in_genbook Tiny.R Tiny.E (Tiny.S true) false 102 []
           (Tiny.start Tiny.brokenBook) Tiny.after2);
    [reflexivity | simpl; lia | vm_compute; discriminate].
Defined.

(** C1 as stated fails. In the book whose node [102] records the moves of
    the position [1002], [expandNode] throws and leaves [canExpand] set,
    where the specification has it log, clear [canExpand] and return;
    [checkbook] logs the failure and returns 0, where the specification has
    it fail. *)
Lemma C1_counterexample :
  (exists st',
     expandNode Tiny.R Tiny.E (Tiny.S true) false 102 [] (Tiny.start Tiny.brokenBook) =
       Threw "Book failed integrity check" st' /\
     canExpand (getNode (book st') 102) = true) /\
  checkbook Tiny.R Tiny.brokenBook =
    (0, [LogCheckingBook; LogIntegrityFailure 102 1002; LogMoves [2]; LogDone]).
Proof.
  split.
  - eexists. split; [vm_compute; reflexivity | vm_compute; reflexivity].
  - vm_compute. reflexivity.
Qed.

(** ** The value refresh *)

Section FindNewMoves.

Variables (R : Rules) (b : Book) (hist : BoardHistory) (constNode : BookHash).

(** The loop of [findNewMovesAlreadyLocked] without re-expansion. *)
Lemma findNewMoves_loop (locs : list Loc) :
  forall (avoid : list Z) (hasNew : bool),
    snd (fold_left
           (fun '(avoid, hasNew) moveLoc =>
              if isLegal R hist moveLoc (presumedNextMovePla hist)
              then if negb false && isMoveInBook b constNode moveLoc
                   then (<[Z.to_nat moveLoc := 1]> avoid, hasNew)
                   else (avoid, true)
              else (avoid, hasNew))
           locs (avoid, hasNew)) =
    hasNew || existsb (fun moveLoc =>
                         isLegal R hist moveLoc (presumedNextMovePla hist)
                         && negb (isMoveInBook b constNode moveLoc)) locs.
Proof.
  induction locs as [|loc locs IH]; intros avoid hasNew; simpl.
  - now rewrite orb_false_r.
  - destruct (isLegal R hist loc (presumedNextMovePla hist)); simpl.
    + destruct (isMoveInBook b constNode loc); simpl; rewrite IH.
      * reflexivity.
      * now rewrite orb_true_r.
    + apply IH.
Qed.


End FindNewMoves.



(** ** The recursive splice: termination and the visited set *)

Lemma extends_refl (s : Sets) : extends s s.
Proof. exists []. now rewrite app_nil_r. Qed.

Lemma extends_trans (s1 s2 s3 : Sets) : extends s1 s2 -> extends s2 s3 -> extends s1 s3.
Proof.
  intros [n1 H1] [n2 H2]. exists (n1 ++ n2). now rewrite H2, H1, app_assoc.
Qed.

Lemma tracked_insertRecursedOn (p : SearchNodePtr) (s : Sets) :
  tracked s -> p ∉ searchNodesRecursedOn s -> tracked (insertRecursedOn p s).
Proof.
  intros [Hnd Hin] Hp. split; simpl.
  - apply NoDup_app. split; [exact Hnd|]. split.
    + intros x Hx Hx'. apply list_elem_of_In in Hx. apply list_elem_of_singleton in Hx'.
      subst x. now apply Hp, Hin.
    + apply NoDup_singleton.
  - intros q Hq. apply in_app_or in Hq. destruct Hq as [Hq | [<- | []]].
    + apply elem_of_union_r. now apply Hin.
    + apply elem_of_union_l. now apply elem_of_singleton.
Qed.

Lemma tracked_same (s s' : Sets) :
  searchNodesRecursedOn s' = searchNodesRecursedOn s ->
  recursedInOrder s' = recursedInOrder s ->
  tracked s -> tracked s'.
Proof. unfold tracked. intros -> ->. tauto. Qed.

Lemma finishSplice_recursed (node : BookHash) (a r : bool) (s : Sets) :
  searchNodesRecursedOn (finishSplice node a r s) = searchNodesRecursedOn s /\
  recursedInOrder (finishSplice node a r s) = recursedInOrder s.
Proof. unfold finishSplice. destruct a, r; simpl; split; reflexivity. Qed.

Section Splice.

Variables (R : Rules) (E : Engine) (S : Settings) (search : Search).

(** One child: the visited set is not touched, and the call returns. *)
Lemma spliceChild_recursed (node : BookHash) (hist : BoardHistory) (moveLoc : Loc)
    (childSearchNode : SearchNodePtr) (rawPolicy : Q) (sets : Sets) (st : State) :
  match spliceChild R E search node hist moveLoc childSearchNode rawPolicy sets st with
  | Returned (_, _, _, sets1, _) =>
    searchNodesRecursedOn sets1 = searchNodesRecursedOn sets /\
    recursedInOrder sets1 = recursedInOrder sets
  | OutOfFuel => False
  | _ => True
  end.
Proof.
  unfold spliceChild.
  destruct (isMoveInBook (book st) node moveLoc).
  - destruct (follow (book st) node moveLoc); [split; reflexivity | exact I].
  - destruct (playAndAddMove R (book st) node hist moveLoc rawPolicy)
      as [[[[child|] nextHist] transposing] b1]; [split; reflexivity | exact I].
Qed.

Lemma spliceChildren_settled
    (recurse : SearchNodePtr -> BookHash -> BoardHistory -> Sets -> State ->
               Outcome (bool * Sets * State))
    (node : BookHash) (hist : BoardHistory) (maxDepth : Z) (bestLoc : Loc)
    (policyProbs : list Q) :
  (forall c child h s st, tracked s -> settled s (recurse c child h s st)) ->
  forall (cs : list (Loc * SearchNodePtr)) (anyRecursion anythingAdded : bool)
         (sets : Sets) (st : State),
    tracked sets ->
    settled sets
      (spliceChildren R E S recurse search node hist maxDepth bestLoc policyProbs
         cs anyRecursion anythingAdded sets st).
Proof.
  intros Hrec. induction cs as [|[moveLoc childSearchNode] cs IH];
    intros anyRecursion anythingAdded sets st Htr; simpl.
  - destruct (finishSplice_recursed node anythingAdded anyRecursion sets) as [H1 H2].
    split; [now apply (tracked_same sets)|]. exists []. now rewrite H2, app_nil_r.
  - destruct (_ || _)%bool; [|now apply IH].
    pose proof (spliceChild_recursed node hist moveLoc childSearchNode
                  (nth (getPos E bestLoc) policyProbs 0%Q) sets st) as Hchild.
    destruct (spliceChild R E search node hist moveLoc childSearchNode
                (nth (getPos E bestLoc) policyProbs 0%Q) sets st)
      as [[[[[child nextHist] added] sets1] st1] | | | |]; try exact I; [|contradiction].
    destruct Hchild as [H1 H2].
    assert (Htr1 : tracked sets1) by now apply (tracked_same sets).
    assert (Hext1 : extends sets sets1) by (exists []; now rewrite H2, app_nil_r).
    destruct (_ && _)%bool.
    + pose proof (Hrec childSearchNode child nextHist sets1 st1 Htr1) as Hcall.
      destruct (recurse childSearchNode child nextHist sets1 st1)
        as [[[a2 sets2] st2] | | | |]; try exact I; [|contradiction].
      destruct Hcall as [Htr2 Hext2].
      pose proof (IH true (anythingAdded || added)%bool sets2 st2 Htr2) as Hrest.
      destruct (spliceChildren _ _ _ _ _ _ _ _ _ _ _ _ _ sets2 st2)
        as [[[a3 sets3] st3] | | | |]; try exact I; [|contradiction].
      destruct Hrest as [Htr3 Hext3]. split; [exact Htr3|].
      eapply extends_trans; [exact Hext1|]. eapply extends_trans; eassumption.
    + pose proof (IH anyRecursion (anythingAdded || added)%bool sets1 st1 Htr1) as Hrest.
      destruct (spliceChildren _ _ _ _ _ _ _ _ _ _ _ _ _ sets1 st1)
        as [[[a3 sets3] st3] | | | |]; try exact I; [|contradiction].
      destruct Hrest as [Htr3 Hext3]. split; [exact Htr3|].
      eapply extends_trans; eassumption.
Qed.

Lemma expandFromSearchResultRecursively_settled (fuel : nat) :
  forall (searchNode : SearchNodePtr) (node : BookHash) (hist : BoardHistory)
         (maxDepth : Z) (sets : Sets) (st : State),
    (Z.to_nat maxDepth < fuel)%nat ->
    tracked sets ->
    settled sets
      (expandFromSearchResultRecursively R E S fuel search searchNode node hist
         maxDepth sets st).
Proof.
  induction fuel as [|fuel IH]; intros searchNode node hist maxDepth sets st Hfuel Htr.
  - lia.
  - simpl. destruct (Z.leb_spec maxDepth 0) as [Hd|Hd].
    { split; [exact Htr | apply extends_refl]. }
    destruct (bool_decide_reflect (searchNode ∈ searchNodesRecursedOn sets)) as [Hin|Hin].
    { split; [exact Htr | apply extends_refl]. }
    assert (Htr0 : tracked (insertRecursedOn searchNode sets))
      by now apply tracked_insertRecursedOn.
    assert (Hext0 : extends sets (insertRecursedOn searchNode sets))
      by now exists [searchNode].
    destruct (playSelectionValues (nodeAt search searchNode)) as [[locs values]|];
      [|now split].
    destruct (_ || _)%bool; [now split|].
    match goal with
    | |- settled _ ?call => assert (Hcall : settled (insertRecursedOn searchNode sets) call)
    end.
    { apply spliceChildren_settled; [|exact Htr0].
      intros c child h s st' Hs. apply IH; [lia | exact Hs]. }
    match goal with
    | |- settled _ ?call => destruct call as [[[a sets'] st'] | | | |]
    end; try exact I; [|contradiction].
    destruct Hcall as [Htr' Hext']. split; [exact Htr'|].
    eapply extends_trans; eassumption.
Qed.

End Splice.



(** On a search graph with a cycle the splice stops at the node it has
    seen, well before the depth bound. *)
Example splice_of_cyclic_search_stops :
  match expandFromSearchResultRecursively Tiny.R Tiny.E (Tiny.S true) 6
          Tiny.searchWithCycle 1 2 Tiny.empty 5 noSets (Tiny.start Tiny.freshBook) with
  | Returned (anythingAdded, sets, _) =>
    anythingAdded = true /\ recursedInOrder sets = [1; 11]
  | _ => False
  end.
Proof. vm_compute. split; reflexivity. Qed.

(** ** The recursive splice: when the values of a child are overwritten *)

Lemma leafWithFewerVisits_same (b b' : Book) (child : BookHash) (search : Search)
    (p : SearchNodePtr) :
  getNode b' child = getNode b child ->
  leafWithFewerVisits b' child search p = leafWithFewerVisits b child search p.
Proof.
  intros H. unfold leafWithFewerVisits, numUniqueMovesInBook. now rewrite H.
Qed.

Lemma follow_not_in_book (b : Book) (node : BookHash) (loc : Loc) :
  isMoveInBook b node loc = false -> follow b node loc = None.
Proof.
  unfold isMoveInBook, follow.
  now destruct (childrenInBook (getNode b node) !! loc).
Qed.

Lemma eventsSince_logged (st st' : State) (evs : list Ev) :
  trace st' = trace st ++ evs -> eventsSince st st' = evs.
Proof.
  intros H. unfold eventsSince. rewrite H. apply drop_app_length.
Qed.

(** The write of the values of a search node to a node of the book. *)
Lemma setNodeThisValuesFromFinishedSearch_writes (R : Rules) (E : Engine) (node : BookHash)
    (search : Search) (searchNode : SearchNodePtr) (hist : BoardHistory)
    (avoid : list Z) (st : State) :
  is_Some (nodes (book st) !! node) ->
  let st' := setNodeThisValuesFromFinishedSearch R E node search searchNode hist avoid st in
  trace st' = trace st ++ [WroteValuesFromSearch node searchNode] /\
  thisValuesNotInBook (getNode (book st') node) =
    valuesFromFinishedSearch R E (pla (getNode (book st) node)) search searchNode hist avoid.
Proof.
  intros [n Hn]. simpl. split; [reflexivity|].
  now rewrite (getNode_updateNode_same _ node (book st) n Hn).
Qed.

Section Overwrite.

Variables (R : Rules) (E : Engine) (search : Search).

(** C4, as the code has it. When a recorded child of the search maps to a
    node that is already in the book, other than the parent, the values of
    that node are overwritten from the statistics of the search child
    exactly when the node has no move in the book and fewer recursive
    visits than the search child has visits; having fewer visits is not
    enough. Otherwise they are left as they were. *)
Theorem C4_overwrite_needs_leaf (node : BookHash) (hist : BoardHistory) (moveLoc : Loc)
    (childSearchNode : SearchNodePtr) (rawPolicy : Q) (sets : Sets) (st : State)
    (child : BookHash) (nextHist : BoardHistory) (added : bool) (sets' : Sets)
    (st' : State) :
  spliceChild R E search node hist moveLoc childSearchNode rawPolicy sets st =
    Returned (child, nextHist, added, sets', st') ->
  child <> node ->
  is_Some (nodes (book st) !! child) ->
  let overwrite :=
    (numUniqueMovesInBook (book st) child =? 0)%nat
    && Qltb (recursiveVisits (getNode (book st) child))
            (inject_Z (statsVisits (nodeAt search childSearchNode))) in
  existsb (isWrite child childSearchNode) (eventsSince st st') = overwrite /\
  thisValuesNotInBook (getNode (book st') child) =
    if overwrite
    then valuesFromFinishedSearch R E (pla (getNode (book st) child))
           search childSearchNode nextHist []
    else thisValuesNotInBook (getNode (book st) child).
Proof.
  intros Hsplice Hne Hin overwrite.
  assert (Hov : overwrite = leafWithFewerVisits (book st) child search childSearchNode)
    by reflexivity.
  rewrite Hov. clear Hov overwrite.
  unfold spliceChild in Hsplice.
  destruct (isMoveInBook (book st) node moveLoc) eqn:Hbook.
  - (* the move is in the book *)
    destruct (follow (book st) node moveLoc) as [child0|]; [|discriminate].
    set (st1 := if negb (isLegal R hist moveLoc (pla (getNode (book st) node)))
                then logging [LogIllegalMove node moveLoc]
                       (withBook (updateNode (setCanExpand false) node (book st)) st)
                else st) in Hsplice.
    assert (H1 : getNode (book st1) child = getNode (book st) child /\
                 is_Some (nodes (book st1) !! child) /\
                 exists evs, trace st1 = trace st ++ evs /\
                             existsb (isWrite child childSearchNode) evs = false).
    { subst st1. destruct (negb _); unfold logging, withBook; cbn [book trace].
      - split; [apply getNode_updateNode_ne; congruence|].
        split; [rewrite lookup_updateNode; destruct (decide (node = child)); [congruence|exact Hin]|].
        exists [LogIllegalMove node moveLoc]. now split.
      - split; [reflexivity|]. split; [exact Hin|]. exists []. split; [now rewrite app_nil_r | reflexivity]. }
    destruct H1 as [Hget [Hin1 [evs [Htr Hevs]]]].
    inversion Hsplice; subst child0 nextHist added sets' st'. clear Hsplice.
    rewrite (leafWithFewerVisits_same (book st) (book st1) child search childSearchNode Hget).
    destruct (leafWithFewerVisits (book st) child search childSearchNode).
    + destruct (setNodeThisValuesFromFinishedSearch_writes R E child search childSearchNode
                  (makeBoardMoveAssumeLegal hist moveLoc (pla (getNode (book st) node)))
                  [] st1 Hin1) as [Htr' Htv].
      split.
      * rewrite (eventsSince_logged st _ (evs ++ [WroteValuesFromSearch child childSearchNode])).
        -- rewrite existsb_app, Hevs. simpl. now rewrite !Z.eqb_refl.
        -- rewrite Htr', Htr. now rewrite app_assoc.
      * rewrite Htv. now rewrite Hget.
    + split.
      * now rewrite (eventsSince_logged st st1 evs Htr).
      * now rewrite Hget.
  - (* the move is new: the child transposes *)
    unfold playAndAddMove in Hsplice.
    rewrite (follow_not_in_book _ _ _ Hbook) in Hsplice.
    destruct (negb (isLegal R hist moveLoc (pla (getNode (book st) node))));
      [discriminate|].
    set (nextHist0 := makeBoardMoveAssumeLegal hist moveLoc (pla (getNode (book st) node)))
      in Hsplice.
    set (child0 := getHashAndSymmetry R nextHist0 (repBound (book st)) (bookVersion (book st)))
      in Hsplice.
    cbv zeta in Hsplice.
    destruct (bool_decide_reflect (is_Some (nodes (book st) !! child0))) as [Hc|Hc].
    + simpl negb in Hsplice. rewrite orb_false_l in Hsplice.
      set (st1 := logging [LogAdding node child0 moveLoc]
                    (withBook (updateNode (addChild moveLoc child0 rawPolicy) node (book st)) st))
        in Hsplice.
      assert (Hchild : child0 = child).
      { destruct (leafWithFewerVisits (book st1) child0 search childSearchNode);
          now inversion Hsplice. }
      subst child0. rewrite Hchild in *.
      assert (Hget : getNode (book st1) child = getNode (book st) child).
      { subst st1. unfold logging, withBook; cbn [book trace].
        apply getNode_updateNode_ne. congruence. }
      assert (Hin1 : is_Some (nodes (book st1) !! child)).
      { subst st1. unfold logging, withBook; cbn [book trace]. rewrite lookup_updateNode.
        destruct (decide (node = child)); [congruence | exact Hin]. }
      rewrite (leafWithFewerVisits_same (book st) (book st1) child search childSearchNode Hget)
        in Hsplice.
      destruct (leafWithFewerVisits (book st) child search childSearchNode);
        inversion Hsplice; subst nextHist added sets' st'; clear Hsplice.
      * destruct (setNodeThisValuesFromFinishedSearch_writes R E child search childSearchNode
                    nextHist0 [] st1 Hin1) as [Htr' Htv].
        split.
        -- rewrite (eventsSince_logged st _
                      ([LogAdding node child moveLoc]
                       ++ [WroteValuesFromSearch child childSearchNode])).
           ++ simpl. now rewrite !Z.eqb_refl.
           ++ rewrite Htr'. subst st1. unfold logging, withBook. cbn [trace].
              rewrite Hchild. now rewrite <- app_assoc.
        -- rewrite Htv. now rewrite Hget.
      * split.
        -- rewrite (eventsSince_logged st st1 [LogAdding node child moveLoc]);
             [reflexivity|].
           subst st1. unfold logging, withBook. cbn [trace]. now rewrite Hchild.
        -- now rewrite Hget.
    + (* a child that is new to the book is excluded by the hypothesis *)
      exfalso. apply Hc.
      simpl negb in Hsplice. rewrite orb_true_l in Hsplice.
      inversion Hsplice; subst. exact Hin.
Qed.

(** A child that enters the book with the edge always has its values
    written (genbook.cpp:867, [!childIsTransposing]). *)
Lemma spliceChild_new_child_written (node : BookHash) (hist : BoardHistory) (moveLoc : Loc)
    (childSearchNode : SearchNodePtr) (rawPolicy : Q) (sets : Sets) (st : State)
    (child : BookHash) (nextHist : BoardHistory) (sets' : Sets) (st' : State) :
  spliceChild R E search node hist moveLoc childSearchNode rawPolicy sets st =
    Returned (child, nextHist, true, sets', st') ->
  nodes (book st) !! child = None ->
  eventsSince st st' =
    [LogAdding node child moveLoc; WroteValuesFromSearch child childSearchNode].
Proof.
  intros Hsplice Hnew. unfold spliceChild in Hsplice.
  destruct (isMoveInBook (book st) node moveLoc) eqn:Hbook.
  { destruct (follow (book st) node moveLoc); [|discriminate]. now inversion Hsplice. }
  unfold playAndAddMove in Hsplice.
  rewrite (follow_not_in_book _ _ _ Hbook) in Hsplice.
  destruct (negb (isLegal R hist moveLoc (pla (getNode (book st) node))));
    [discriminate|].
  cbv zeta in Hsplice.
  destruct (bool_decide_reflect
              (is_Some (nodes (book st) !!
                 getHashAndSymmetry R
                   (makeBoardMoveAssumeLegal hist moveLoc (pla (getNode (book st) node)))
                   (repBound (book st)) (bookVersion (book st))))) as [Hc|Hc].
  - exfalso.
    destruct (_ || _)%bool; inversion Hsplice; subst;
      rewrite Hnew in Hc; now destruct Hc.
  - simpl negb in Hsplice. rewrite orb_true_l in Hsplice.
    inversion Hsplice; subst. apply eventsSince_logged.
    unfold setNodeThisValuesFromFinishedSearch, logging, withBook. cbn [trace].
    now rewrite <- app_assoc.
Qed.

End Overwrite.

Lemma C4_overwrite_needs_leaf_witness :
  exists st' : State,
    existsb (isWrite 102 11) (eventsSince (Tiny.start Tiny.transposingBook) st') = false /\
    thisValuesNotInBook (getNode (book st') 102) =
      thisValuesNotInBook (getNode Tiny.transposingBook 102).
Proof.
  eexists.
  eapply (C4_overwrite_needs_leaf Tiny.R Tiny.E Tiny.searchOfRoot 2 Tiny.empty 1 11
            (3 # 5)%Q noSets (Tiny.start Tiny.transposingBook) 102).
  - reflexivity.
  - discriminate.
  - eexists. reflexivity.
Defined.

(** C4 as stated fails. The position after black's [1] is in the book with
    [5] recursive visits and one move recorded; the search child for [1]
    has [20] visits. The existing node has fewer visits than the search
    child, and its values are not overwritten. *)
Lemma C4_counterexample :
  is_Some (nodes Tiny.transposingBook !! 102) /\
  numUniqueMovesInBook Tiny.transposingBook 102 = 1%nat /\
  Qltb (recursiveVisits (getNode Tiny.transposingBook 102))
       (inject_Z (statsVisits (nodeAt Tiny.searchOfRoot 11))) = true /\
  match spliceChild Tiny.R Tiny.E Tiny.searchOfRoot 2 Tiny.empty 1 11 (3 # 5)%Q noSets
          (Tiny.start Tiny.transposingBook) with
  | Returned (child, _, added, _, st') =>
    child = 102 /\ added = true /\
    existsb (isWrite 102 11) (eventsSince (Tiny.start Tiny.transposingBook) st') = false /\
    thisValuesNotInBook (getNode (book st') 102) =
      thisValuesNotInBook (getNode Tiny.transposingBook 102)
  | _ => False
  end.
Proof.
  split; [eexists; reflexivity|].
  vm_compute. repeat split.
Qed.

(** ** The recursive splice: the raw policy of a new edge *)

Lemma childrenInBook_setThisValues (v : BookValues) (h node : BookHash) (b : Book) :
  childrenInBook (getNode (updateNode (setThisValuesNotInBook v) h b) node) =
  childrenInBook (getNode b node).
Proof.
  destruct (decide (h = node)) as [->|Hne].
  - unfold getNode, updateNode. simpl. rewrite lookup_alter_eq.
    now destruct (nodes b !! node).
  - now rewrite getNode_updateNode_ne.
Qed.

(** Every edge the splice adds carries the [rawPolicy] it is given, which
    the loop over the children takes at [bestLoc] (genbook.cpp:810), for
    every child alike. *)
Lemma spliceChild_new_edge_policy (R : Rules) (E : Engine) (search : Search)
    (node : BookHash) (hist : BoardHistory) (moveLoc : Loc)
    (childSearchNode : SearchNodePtr) (rawPolicy : Q) (sets : Sets) (st : State)
    (child : BookHash) (nextHist : BoardHistory) (sets' : Sets) (st' : State) :
  spliceChild R E search node hist moveLoc childSearchNode rawPolicy sets st =
    Returned (child, nextHist, true, sets', st') ->
  is_Some (nodes (book st) !! node) ->
  isMoveInBook (book st) node moveLoc = false /\
  childrenInBook (getNode (book st') node) !! moveLoc = Some (child, rawPolicy).
Proof.
  intros Hsplice [n Hn]. unfold spliceChild in Hsplice.
  destruct (isMoveInBook (book st) node moveLoc) eqn:Hbook.
  { destruct (follow (book st) node moveLoc); [|discriminate]. now inversion Hsplice. }
  split; [reflexivity|].
  unfold playAndAddMove in Hsplice.
  rewrite (follow_not_in_book _ _ _ Hbook) in Hsplice.
  destruct (negb (isLegal R hist moveLoc (pla (getNode (book st) node))));
    [discriminate|].
  set (nextHist0 := makeBoardMoveAssumeLegal hist moveLoc (pla (getNode (book st) node)))
    in Hsplice.
  set (child0 := getHashAndSymmetry R nextHist0 (repBound (book st)) (bookVersion (book st)))
    in Hsplice.
  set (b1 := if bool_decide (is_Some (nodes (book st) !! child0)) then book st
             else setNodes (<[child0 := newNode (getOpp (pla (getNode (book st) node)))
                                          (Some nextHist0)]> (nodes (book st))) (book st))
    in Hsplice.
  cbv zeta in Hsplice.
  assert (Hn1 : nodes b1 !! node = Some n).
  { subst b1. destruct (bool_decide_reflect (is_Some (nodes (book st) !! child0))) as [Hc|Hc];
      [exact Hn|].
    simpl. rewrite lookup_insert_ne; [exact Hn|].
    intros ->. apply Hc. now exists n. }
  set (b2 := updateNode (addChild moveLoc child0 rawPolicy) node b1) in Hsplice.
  assert (Hedge : childrenInBook (getNode b2 node) !! moveLoc = Some (child0, rawPolicy)).
  { subst b2. rewrite (getNode_updateNode_same _ node b1 n Hn1). simpl.
    apply lookup_insert_eq. }
  destruct (_ || _)%bool; inversion Hsplice; subst; clear Hsplice.
  - unfold setNodeThisValuesFromFinishedSearch, logging, withBook. cbn [book].
    rewrite childrenInBook_setThisValues. exact Hedge.
  - exact Hedge.
Qed.

(** C3. The search of the empty board has two children to record: [1], the
    best move, with full-symmetry policy [3/5], and [2], with policy
    [1/10]. The edge added for [2] carries [3/5], the policy of the best
    move, not the policy of its own move. *)
Theorem C3_new_edge_carries_policy_of_best_move :
  bestLocOf [1; 2] [(7 # 10)%Q; (3 # 10)%Q] = 1 /\
  nth (getPos Tiny.E 1) (getFullSymmetryNNOutput Tiny.E Tiny.empty P_BLACK) 0%Q = (3 # 5)%Q /\
  nth (getPos Tiny.E 2) (getFullSymmetryNNOutput Tiny.E Tiny.empty P_BLACK) 0%Q = (1 # 10)%Q /\
  match expandFromSearchResultRecursively Tiny.R Tiny.E (Tiny.S true) 3 Tiny.searchOfRoot
          1 2 Tiny.empty 2 noSets (Tiny.start Tiny.freshBook) with
  | Returned (anythingAdded, _, st') =>
    anythingAdded = true /\
    isMoveInBook Tiny.freshBook 2 2 = false /\
    childrenInBook (getNode (book st') 2) !! 1 = Some (102, (3 # 5)%Q) /\
    childrenInBook (getNode (book st') 2) !! 2 = Some (1002, (3 # 5)%Q)
  | _ => False
  end.
Proof. vm_compute. repeat split. Qed.

(** ** Re-expansion of a node whose moves are all in the book *)

(** A recorded child whose move is in the book adds no edge, and a node to
    which no edge was added is not put into [nodesHashesToSearch]. *)
Lemma spliceChild_in_book_adds_nothing (R : Rules) (E : Engine) (search : Search)
    (node : BookHash) (hist : BoardHistory) (moveLoc : Loc)
    (childSearchNode : SearchNodePtr) (rawPolicy : Q) (sets : Sets) (st : State)
    (child : BookHash) (nextHist : BoardHistory) (added : bool) (sets' : Sets)
    (st' : State) :
  isMoveInBook (book st) node moveLoc = true ->
  spliceChild R E search node hist moveLoc childSearchNode rawPolicy sets st =
    Returned (child, nextHist, added, sets', st') ->
  added = false /\ sets' = sets /\ follow (book st) node moveLoc = Some child.
Proof.
  intros Hbook Hsplice. unfold spliceChild in Hsplice. rewrite Hbook in Hsplice.
  destruct (follow (book st) node moveLoc) as [child0|]; [|discriminate].
  now inversion Hsplice.
Qed.

Lemma finishSplice_nothing_added (node : BookHash) (anyRecursion : bool) (sets : Sets) :
  nodesHashesToSearch (finishSplice node false anyRecursion sets) =
  nodesHashesToSearch sets.
Proof. unfold finishSplice. now destruct anyRecursion. Qed.

(** C5. The node after black's [1] was found on the way, so it can be
    re-expanded; its one legal move, [2], is in the book. Its expansion
    runs in re-expansion mode with an empty avoid set and adds no edge, and
    [canReExpand] is cleared; but the node is not put into
    [nodesHashesToSearch], so no short search runs and its values are left
    as they were. With [assert] enabled the expansion stops at the
    assertion of genbook.cpp:1016 instead. *)
Theorem C5_reexpansion_does_not_refresh_values :
  findNewMovesAlreadyLocked Tiny.R Tiny.lineBook Tiny.after1 102 true =
    ([0; 0; 0; 0], true, true) /\
  forallb (fun loc => implb (isLegal Tiny.R Tiny.after1 loc P_WHITE)
                            (isMoveInBook Tiny.lineBook 102 loc))
          (allLocs Tiny.R) = true /\
  match expandNode Tiny.R Tiny.E (Tiny.S true) false 102 [] (Tiny.start Tiny.lineBook) with
  | Returned (_, st') =>
    childrenInBook (getNode (book st') 102) = childrenInBook (getNode Tiny.lineBook 102) /\
    canReExpand (getNode (book st') 102) = false /\
    thisValuesNotInBook (getNode (book st') 102) =
      thisValuesNotInBook (getNode Tiny.lineBook 102) /\
    existsb (fun e => match e with WroteValuesFromSearch 102 _ => true | _ => false end)
            (trace st') = false /\
    length (List.filter (fun e => match e with RanSearch _ _ _ => true | _ => false end)
                   (trace st')) = 1%nat
  | _ => False
  end /\
  match expandNode Tiny.R Tiny.E (Tiny.S false) false 102 [] (Tiny.start Tiny.lineBook) with
  | AssertionFailed _ => True
  | _ => False
  end.
Proof. vm_compute. repeat split. Qed.

(** * Further properties of the code *)

(** ** Sizes handed to the neural net evaluator *)

Lemma wrap32_in_range (z : Z) : - 2 ^ 31 <= z < 2 ^ 31 -> Sizing.wrap32 z = z.
Proof.
  intros Hz. unfold Sizing.wrap32.
  rewrite Z.mod_small by lia. lia.
Qed.

(** X1. For the thread counts the configuration allows (1 to 1000 game
    threads) and up to a million search threads, nothing overflows: the
    default batch size is a multiple of 4, at least 8, at least the expected
    number of concurrent evaluations and less than 4 above the larger of the
    two, and it stays below the evaluator's capacity [2 * expected + 16]. *)
Theorem X1_evaluator_sizes (numGameThreads numThreads : Z) :
  1 <= numGameThreads <= 1000 ->
  1 <= numThreads <= 1000000 ->
  let expected := Sizing.expectedConcurrentEvals numGameThreads numThreads in
  let batch := Sizing.defaultMaxBatchSize numGameThreads numThreads in
  expected = numGameThreads * numThreads /\
  Sizing.maxConcurrentEvals numGameThreads numThreads = 2 * expected + 16 /\
  batch mod 4 = 0 /\
  Z.max 8 expected <= batch < Z.max 8 expected + 4 /\
  batch < Sizing.maxConcurrentEvals numGameThreads numThreads.
Proof.
  intros Hg Ht expected batch.
  assert (Hprod : 1 <= numGameThreads * numThreads <= 1000000000) by nia.
  assert (He : expected = numGameThreads * numThreads).
  { subst expected. unfold Sizing.expectedConcurrentEvals.
    apply wrap32_in_range. lia. }
  assert (Hm : Sizing.maxConcurrentEvals numGameThreads numThreads = 2 * expected + 16).
  { unfold Sizing.maxConcurrentEvals.
    rewrite (wrap32_in_range (numGameThreads * numThreads)) by lia.
    rewrite (wrap32_in_range (numGameThreads * numThreads * 2)) by lia.
    rewrite wrap32_in_range by lia. lia. }
  assert (Hb : batch = Z.max 8 ((numGameThreads * numThreads + 3) / 4 * 4)).
  { subst batch. unfold Sizing.defaultMaxBatchSize.
    rewrite (wrap32_in_range (numGameThreads * numThreads)) by lia.
    rewrite (wrap32_in_range (numGameThreads * numThreads + 3)) by lia.
    rewrite Z.quot_div_nonneg by lia.
    pose proof (Z.div_mod (numGameThreads * numThreads + 3) 4 ltac:(lia)).
    pose proof (Z.mod_pos_bound (numGameThreads * numThreads + 3) 4 ltac:(lia)).
    rewrite wrap32_in_range by lia. reflexivity. }
  pose proof (Z.div_mod (numGameThreads * numThreads + 3) 4 ltac:(lia)) as Hdm.
  pose proof (Z.mod_pos_bound (numGameThreads * numThreads + 3) 4 ltac:(lia)) as Hmb.
  split; [exact He|]. split; [exact Hm|].
  rewrite Hm, Hb, He. split; [|lia].
  destruct (Z.max_spec 8 ((numGameThreads * numThreads + 3) / 4 * 4)) as [[_ ->]|[_ ->]].
  - apply Z.mod_mul. lia.
  - reflexivity.
Qed.

Lemma X1_evaluator_sizes_witness :
  let expected := Sizing.expectedConcurrentEvals 3 3 in
  let batch := Sizing.defaultMaxBatchSize 3 3 in
  expected = 3 * 3 /\
  Sizing.maxConcurrentEvals 3 3 = 2 * expected + 16 /\
  batch mod 4 = 0 /\
  Z.max 8 expected <= batch < Z.max 8 expected + 4 /\
  batch < Sizing.maxConcurrentEvals 3 3.
Proof. apply (X1_evaluator_sizes 3 3); lia. Defined.

(** ** The flags of a symmetry *)

(** X2. A symmetry below [NUM_SYMMETRIES] is its three flags, flipY in bit
    0, flipX in bit 1 and transpose in bit 2, and it transposes exactly when
    it is not one of the first [NUM_SYMMETRIES_WITHOUT_TRANSPOSE]. *)
Theorem X2_symmetry_is_its_flags (symmetry : Z) :
  0 <= symmetry < SymmetryHelpers.NUM_SYMMETRIES ->
  symmetry = Z.b2z (SymmetryHelpers.isFlipY symmetry)
             + 2 * Z.b2z (SymmetryHelpers.isFlipX symmetry)
             + 4 * Z.b2z (SymmetryHelpers.isTranspose symmetry) /\
  SymmetryHelpers.isTranspose symmetry =
    negb (symmetry <? SymmetryHelpers.NUM_SYMMETRIES_WITHOUT_TRANSPOSE).
Proof.
  unfold SymmetryHelpers.NUM_SYMMETRIES. intros Hs.
  assert (Hcases : symmetry = 0 \/ symmetry = 1 \/ symmetry = 2 \/ symmetry = 3 \/
                   symmetry = 4 \/ symmetry = 5 \/ symmetry = 6 \/ symmetry = 7) by lia.
  repeat (destruct Hcases as [-> | Hcases]; [split; reflexivity|]).
  subst symmetry. split; reflexivity.
Qed.

Lemma X2_symmetry_is_its_flags_witness :
  5 = Z.b2z (SymmetryHelpers.isFlipY 5) + 2 * Z.b2z (SymmetryHelpers.isFlipX 5)
      + 4 * Z.b2z (SymmetryHelpers.isTranspose 5) /\
  SymmetryHelpers.isTranspose 5 =
    negb (5 <? SymmetryHelpers.NUM_SYMMETRIES_WITHOUT_TRANSPOSE).
Proof. apply (X2_symmetry_is_its_flags 5). unfold SymmetryHelpers.NUM_SYMMETRIES. lia. Defined.

(** ** When the expansion loop saves *)

Lemma savedBefore_app (t1 t2 : list Loop.Event) :
  savedBefore (t1 ++ t2) = savedBefore t1 ++ savedBefore t2.
Proof.
  induction t1 as [|e t1 IH]; simpl; [reflexivity|].
  destruct e; simpl; rewrite IH; reflexivity.
Qed.

(** The saves of a run: those of the iterations it went through, which are
    all its iterations when nothing stops it. *)
Lemma iterate_saves (stop : Loop.StopOracle) (save num : Z) (remaining : nat) :
  save <> 0 ->
  forall (iteration : Z) (trace : list Loop.Event),
    exists k : nat,
      (k <= remaining)%nat /\
      ((forall i, Loop.stopBefore stop i = false /\ Loop.stopAfter stop i = false) ->
       k = remaining) /\
      savedBefore (snd (Loop.iterate stop save num remaining iteration trace)) =
      savedBefore trace ++
        List.filter (savesBefore save)
          (map (fun j => iteration + Z.of_nat j) (seq 0 k)).
Proof.
  intros Hsave. induction remaining as [|r IH]; intros iteration trace; simpl.
  - exists 0%nat. split; [lia|]. split; [reflexivity|]. simpl. now rewrite app_nil_r.
  - destruct (Loop.stopBefore stop iteration) eqn:Hb.
    { exists 0%nat. split; [lia|]. split.
      - intros Hnever. destruct (Hnever iteration). congruence.
      - simpl. now rewrite app_nil_r. }
    unfold Loop.cmod. destruct (Z.eqb_spec save 0) as [|_]; [contradiction|].
    set (trace1 := if (_ && _)%bool then _ else _).
    assert (Ht1 : savedBefore trace1 =
                  savedBefore trace ++ List.filter (savesBefore save) [iteration]).
    { subst trace1. simpl. unfold savesBefore.
      destruct (_ && _)%bool; [|now rewrite app_nil_r].
      now rewrite savedBefore_app. }
    assert (Hstep : forall t,
              savedBefore (trace1 ++ [Loop.GetNextNToExpand iteration t;
                                      Loop.ExpandAndRecompute iteration]) =
              savedBefore trace ++ List.filter (savesBefore save) [iteration]).
    { intros t. rewrite savedBefore_app, Ht1. simpl. now rewrite app_nil_r. }
    destruct (Loop.stopAfter stop iteration) eqn:Ha.
    + exists 1%nat. split; [lia|]. split.
      * intros Hnever. destruct (Hnever iteration). congruence.
      * simpl snd. rewrite Hstep. simpl map. now rewrite Z.add_0_r.
    + destruct (IH (iteration + 1)
                  (trace1 ++ [Loop.GetNextNToExpand iteration
                                (Z.min (1 + Loop.cdiv2 iteration) num);
                              Loop.ExpandAndRecompute iteration])) as [k [Hk [Hall Heq]]].
      exists (Datatypes.S k). split; [lia|]. split.
      * intros Hnever. now rewrite (Hall Hnever).
      * rewrite Heq, Hstep. rewrite <- app_assoc. f_equal.
        rewrite <- List.filter_app. f_equal.
        change (seq 0 (Datatypes.S k)) with (0%nat :: seq 1 k).
        rewrite <- seq_shift, map_cons, map_map. rewrite Z.add_0_r.
        simpl. f_equal. apply map_ext. intros j. lia.
Qed.

Lemma savesBefore_spec (save i : Z) :
  save <> 0 -> savesBefore save i = true <-> i <> 0 /\ (save | i).
Proof.
  intros Hs. unfold savesBefore.
  rewrite andb_true_iff, negb_true_iff, Z.eqb_eq, Z.eqb_neq.
  rewrite (Z.rem_divide i save Hs). tauto.
Qed.

(** X3. For a save cadence [K] other than zero the loop saves only before
    iterations [i] with [0 < i < numIterations] that [K] divides, never
    before iteration 0; a run that nothing stops saves before every one of
    them. *)
Theorem X3_saves_on_multiples_of_cadence (stop : Loop.StopOracle)
    (numIterations saveEveryIterations numToExpandPerIteration : Z) :
  saveEveryIterations <> 0 ->
  (forall i,
     In i (savedBefore
             (snd (Loop.expansionLoop stop numIterations saveEveryIterations
                     numToExpandPerIteration))) ->
     0 < i < numIterations /\ (saveEveryIterations | i)) /\
  (forall i,
     0 < i < numIterations -> (saveEveryIterations | i) ->
     In i (savedBefore
             (snd (Loop.expansionLoop Loop.neverStop numIterations saveEveryIterations
                     numToExpandPerIteration)))).
Proof.
  intros Hs. unfold Loop.expansionLoop. split.
  - intros i Hi.
    destruct (iterate_saves stop saveEveryIterations numToExpandPerIteration
                (Z.to_nat numIterations) Hs 0 []) as [k [Hk [_ Heq]]].
    rewrite Heq in Hi. simpl in Hi. apply filter_In in Hi. destruct Hi as [Hin Hsv].
    apply in_map_iff in Hin. destruct Hin as [j [<- Hj]]. apply in_seq in Hj.
    apply (savesBefore_spec _ _ Hs) in Hsv. split; [lia | tauto].
  - intros i Hi Hdiv.
    destruct (iterate_saves Loop.neverStop saveEveryIterations numToExpandPerIteration
                (Z.to_nat numIterations) Hs 0 []) as [k [_ [Hall Heq]]].
    rewrite Heq, (Hall (fun _ => conj eq_refl eq_refl)). simpl.
    apply filter_In. split.
    + apply in_map_iff. exists (Z.to_nat i). split; [lia|]. apply in_seq. lia.
    + apply (savesBefore_spec _ _ Hs). split; [lia | exact Hdiv].
Qed.

Lemma X3_saves_on_multiples_of_cadence_witness :
  (forall i,
     In i (savedBefore (snd (Loop.expansionLoop Loop.neverStop 7 3 4))) ->
     0 < i < 7 /\ (3 | i)) /\
  (forall i,
     0 < i < 7 -> (3 | i) ->
     In i (savedBefore (snd (Loop.expansionLoop Loop.neverStop 7 3 4)))).
Proof. apply (X3_saves_on_multiples_of_cadence Loop.neverStop 7 3 4). lia. Defined.

Example saves_of_seven_iterations :
  savedBefore (snd (Loop.expansionLoop Loop.neverStop 7 3 4)) = [3; 6].
Proof. reflexivity. Qed.

(** ** What [checkbook] reports *)

Lemma testNode_silent (R : Rules) (b : Book) (h : BookHash) (n : BookNode) :
  nodes b !! h = Some n ->
  testNode R b h = [] <-> walksToItself R b h n.
Proof.
  intros Hn. unfold testNode, walksToItself, getNode. rewrite Hn.
  destruct (historyReachingHere n) as [hist|].
  - destruct (Z.eqb_spec (getHashAndSymmetry R hist (repBound b) (bookVersion b)) h)
      as [Heq|Hne]; simpl.
    + split; [intros _; now exists hist | reflexivity].
    + split; [discriminate|]. intros [hist' [Hh Hw]]. inversion Hh; subst hist'.
      contradiction.
  - split.
    + destruct (negb _); discriminate.
    + intros [hist [Hh _]]. discriminate.
Qed.

(** What [testNode] logs is a finding. *)
Lemma testNode_findings (R : Rules) (b : Book) (node : BookHash) (e : Ev) :
  In e (testNode R b node) -> isProgress e = false.
Proof.
  unfold testNode.
  destruct (historyReachingHere (getNode b node)) as [hist|];
    destruct (negb _); simpl; intuition (subst; reflexivity).
Qed.

(** The loop over nodes that [testNode] has nothing to say about. *)
Lemma checkNodes_silent (R : Rules) (b : Book) (total : Z) (allNodes : list BookHash) :
  forall numNodesChecked : nat,
    (forall node, In node allNodes -> testNode R b node = []) ->
    checkNodes R b total allNodes (Z.of_nat numNodesChecked) =
    map (fun m => LogChecked m total)
      (List.filter (fun m => Z.rem m 10000 =? 0)
         (map Z.of_nat (seq (Datatypes.S numNodesChecked) (length allNodes)))).
Proof.
  induction allNodes as [|node rest IH]; intros c Hsilent; simpl; [reflexivity|].
  rewrite (Hsilent node (or_introl eq_refl)). simpl.
  replace (Z.of_nat c + 1) with (Z.of_nat (Datatypes.S c)) by lia.
  rewrite (IH (Datatypes.S c)) by (intros h Hh; apply Hsilent; now right).
  change (Z.pos (Pos.of_succ_nat c)) with (Z.of_nat (Datatypes.S c)).
  destruct (Z.rem (Z.of_nat (Datatypes.S c)) 10000 =? 0); reflexivity.
Qed.

(** X4. [checkbook] returns 0 whatever it finds. What it logs once the book
    is loaded reports no finding, that is, it holds nothing but "Checking
    book...", the lines "Checked N/M nodes" and "DONE", exactly when the
    recorded moves of every node of the book can be replayed and lead to
    the node's own hash; it is then "Checking book...", one line "Checked
    N/M nodes" for every multiple N of 10000 up to the number M of nodes,
    and "DONE". *)
Theorem X4_checkbook_silent_iff_book_walks (R : Rules) (b : Book) :
  fst (checkbook R b) = 0 /\
  ((forall e, In e (snd (checkbook R b)) -> isProgress e = true) <->
   (forall h n, nodes b !! h = Some n -> walksToItself R b h n)) /\
  ((forall h n, nodes b !! h = Some n -> walksToItself R b h n) ->
   snd (checkbook R b) =
   LogCheckingBook :: checkedLines (size (nodes b)) ++ [LogDone]).
Proof.
  assert (Hnodes : forall h, In h (map fst (map_to_list (nodes b))) <->
                             exists n, nodes b !! h = Some n).
  { intros h. rewrite in_map_iff. split.
    - intros [[h' n] [<- Hin]]. exists n.
      now apply list_elem_of_In, elem_of_map_to_list in Hin.
    - intros [n Hn]. exists (h, n). split; [reflexivity|].
      now apply list_elem_of_In, elem_of_map_to_list. }
  assert (Hexact : (forall h n, nodes b !! h = Some n -> walksToItself R b h n) ->
            snd (checkbook R b) =
            LogCheckingBook :: checkedLines (size (nodes b)) ++ [LogDone]).
  { intros Hall. unfold checkbook. cbv zeta. cbn [snd].
    rewrite (checkNodes_silent R b _ _ 0%nat).
    - rewrite length_map, length_map_to_list. reflexivity.
    - intros node Hin. apply Hnodes in Hin. destruct Hin as [n Hn].
      apply (testNode_silent R b node n Hn). now apply Hall. }
  split; [reflexivity|]. split; [|exact Hexact]. split.
  - intros Hlog h n Hn. apply (testNode_silent R b h n Hn).
    destruct (testNode R b h) as [|e l] eqn:Htest; [reflexivity|]. exfalso.
    assert (He : In e (testNode R b h)) by (rewrite Htest; now left).
    pose proof (testNode_findings R b h e He) as Hfinding.
    rewrite (Hlog e) in Hfinding; [discriminate Hfinding|].
    apply (testNode_in_checkbook R b h e); [eauto | exact He].
  - intros Hall e. rewrite (Hexact Hall). unfold checkedLines.
    intros [<-|Hin]; [reflexivity|].
    apply in_app_or in Hin. destruct Hin as [Hin|[<-|[]]]; [|reflexivity].
    apply in_map_iff in Hin. destruct Hin as [m [<- _]]. reflexivity.
Qed.

(** A book of 20000 nodes that all walk is reported on twice. *)
Example checked_lines_of_twenty_thousand :
  checkedLines (Z.to_nat 20000) = [LogChecked 10000 20000; LogChecked 20000 20000].
Proof. vm_compute. reflexivity. Qed.

(** ** Opening a book that is on disk *)

Lemma allParamNames_complete (n : ParamName) : In n allParamNames.
Proof. destruct n; simpl; tauto. Qed.

Lemma allParamNames_NoDup : List.NoDup allParamNames.
Proof.
  unfold allParamNames.
  repeat (constructor; [simpl; intros H; repeat (destruct H as [H|H]; [discriminate|]);
                        exact H|]).
  constructor.
Qed.

Lemma Qneb_same (x : Q) : Qneb x x = false.
Proof. unfold Qneb. now rewrite Qeq_bool_refl. Qed.

Section Overwriting.

Variable cfg : Startup.Config.

(** The loop of genbook.cpp:294-315 over a list of distinct names: each of
    them agrees with the configuration afterwards, the others are as they
    were, and one line is logged for each name that differed. *)
Lemma changeParam_fold (names : list ParamName) :
  List.NoDup names ->
  forall (b : Book) (evs : list Startup.Event),
    let done := fold_left (Startup.changeParam cfg) names (b, evs) in
    (forall n, In n names -> Qneb (Startup.cfgParams cfg n) (params (fst done) n) = false) /\
    (forall n, ~ In n names -> params (fst done) n = params b n) /\
    snd done =
      evs ++ map (fun n => Startup.ChangingParam n (params b n) (Startup.cfgParams cfg n))
               (List.filter (fun n => Qneb (Startup.cfgParams cfg n) (params b n)) names).
Proof.
  induction names as [|name rest IH]; intros Hnd b evs; simpl.
  - split; [intros n []|]. split; [reflexivity | now rewrite app_nil_r].
  - inversion Hnd as [|? ? Hnotin Hnd']; subst.
    set (acc1 := Startup.changeParam cfg (b, evs) name).
    assert (Hother : forall n, n <> name -> params (fst acc1) n = params b n).
    { intros n Hn. subst acc1. unfold Startup.changeParam. simpl.
      destruct (Qneb _ _); [|reflexivity]. simpl.
      destruct (decide (n = name)); [contradiction | reflexivity]. }
    assert (Hname : Qneb (Startup.cfgParams cfg name) (params (fst acc1) name) = false).
    { subst acc1. unfold Startup.changeParam. simpl.
      destruct (Qneb (Startup.cfgParams cfg name) (params b name)) eqn:Hd; [|exact Hd].
      simpl. destruct (decide (name = name)); [apply Qneb_same | contradiction]. }
    destruct (IH Hnd' (fst acc1) (snd acc1)) as [Ha [Hb Hc]].
    replace (fst acc1, snd acc1) with acc1 in * by now destruct acc1.
    split; [|split].
    + intros n [<-|Hin].
      * now rewrite (Hb name Hnotin).
      * now apply Ha.
    + intros n Hn. rewrite Hb by tauto. apply Hother. intros ->. tauto.
    + rewrite Hc.
      assert (Hrest : forall n, In n rest -> params (fst acc1) n = params b n).
      { intros n Hin. apply Hother. intros ->. contradiction. }
      rewrite (List.filter_ext_in
                 (fun n => Qneb (Startup.cfgParams cfg n) (params (fst acc1) n))
                 (fun n => Qneb (Startup.cfgParams cfg n) (params b n))).
      2:{ intros n Hin. now rewrite Hrest. }
      rewrite (map_ext_in
                 (fun n => Startup.ChangingParam n (params (fst acc1) n) (Startup.cfgParams cfg n))
                 (fun n => Startup.ChangingParam n (params b n) (Startup.cfgParams cfg n))).
      2:{ intros n Hin. apply filter_In in Hin. now rewrite Hrest. }
      subst acc1. unfold Startup.changeParam. simpl.
      destruct (Qneb (Startup.cfgParams cfg name) (params b name)); simpl.
      * now rewrite <- app_assoc.
      * reflexivity.
Qed.

End Overwriting.

(** X5. With [--allow-changing-book-params], a book on disk that passes the
    checks of board size, repetition bound, rules and bonus SGF is opened
    without error: afterwards none of its cost and bonus constants differs
    from the configuration any more, its nodes are those of the file, and
    one line was logged for each constant that differed, with its old and
    its new value, in the order of the source. *)
Theorem X5_allowed_changes_make_params_agree (args : Startup.Args) (cfg : Startup.Config)
    (bonus : Startup.BonusSetup) (b : Book) :
  Startup.allowChangingBookParams args = true ->
  basicChecksPass args cfg bonus b = true ->
  let o := Startup.loadExisting args cfg bonus b in
  Startup.status o = Startup.Proceed /\
  Startup.events o =
    Startup.LoadedBookFile ::
    map (fun n => Startup.ChangingParam n (params b n) (Startup.cfgParams cfg n))
      (List.filter (fun n => Qneb (Startup.cfgParams cfg n) (params b n)) allParamNames) /\
  exists b', Startup.book o = Some b' /\
             Startup.anyParamDiffers cfg b' = false /\
             nodes b' = nodes b.
Proof.
  intros Hallow Hbasic o.
  destruct (changeParam_fold cfg allParamNames allParamNames_NoDup b [Startup.LoadedBookFile])
    as [Hagree [_ Hlog]].
  destruct (changeParam_keeps_graph cfg allParamNames (b, [Startup.LoadedBookFile]))
    as [Hnodes _].
  assert (Ho : o = {| Startup.status := Startup.Proceed;
                      Startup.book := Some (fst (fold_left (Startup.changeParam cfg)
                                                   allParamNames (b, [Startup.LoadedBookFile])));
                      Startup.events := snd (fold_left (Startup.changeParam cfg)
                                               allParamNames (b, [Startup.LoadedBookFile])) |}).
  { subst o. unfold Startup.loadExisting. unfold basicChecksPass in Hbasic.
    rewrite Hallow.
    destruct (Startup.boardSizeX cfg =? initialBoardXSize b); [|discriminate].
    destruct (Startup.boardSizeY cfg =? initialBoardYSize b); [|discriminate].
    destruct (Startup.cfgRepBound cfg =? repBound b); [|discriminate].
    destruct (Startup.rules cfg =? bookRules b); [|discriminate].
    destruct (String.eqb (Startup.bonusFile args) ""); [reflexivity|].
    destruct (Startup.bonusInitialBoard bonus =? initialBoard b); [|discriminate].
    destruct (Player_eqb (Startup.bonusInitialPla bonus) (bookInitialPla b));
      [reflexivity | discriminate]. }
  rewrite Ho. cbn [Startup.status Startup.book Startup.events].
  split; [reflexivity|]. split; [exact Hlog|].
  eexists. split; [reflexivity|]. split; [|exact Hnodes].
  unfold Startup.anyParamDiffers.
  destruct (existsb _ allParamNames) eqn:Hex; [|reflexivity].
  apply existsb_exists in Hex. destruct Hex as [n [Hin Hn]].
  now rewrite (Hagree n Hin) in Hn.
Qed.

Lemma X5_allowed_changes_make_params_agree_witness :
  let o := Startup.loadExisting Tiny.traceAndIterations Tiny.cfg Tiny.noBonus
             Tiny.freshBook in
  Startup.status o = Startup.Proceed /\
  Startup.events o =
    Startup.LoadedBookFile ::
    map (fun n => Startup.ChangingParam n (params Tiny.freshBook n)
                    (Startup.cfgParams Tiny.cfg n))
      (List.filter (fun n => Qneb (Startup.cfgParams Tiny.cfg n) (params Tiny.freshBook n))
         allParamNames) /\
  exists b', Startup.book o = Some b' /\
             Startup.anyParamDiffers Tiny.cfg b' = false /\
             nodes b' = nodes Tiny.freshBook.
Proof.
  apply (X5_allowed_changes_make_params_agree Tiny.traceAndIterations Tiny.cfg
           Tiny.noBonus Tiny.freshBook); reflexivity.
Defined.

(** X6. Without [--allow-changing-book-params] a book on disk is opened
    exactly when it passes the checks of board size, repetition bound, rules
    and bonus SGF and none of its cost and bonus constants differs from the
    configuration; otherwise the start-up throws. In both cases the book is
    the one of the file, unchanged. *)
Theorem X6_strict_load_never_changes_the_book (args : Startup.Args) (cfg : Startup.Config)
    (bonus : Startup.BonusSetup) (b : Book) :
  Startup.allowChangingBookParams args = false ->
  let o := Startup.loadExisting args cfg bonus b in
  Startup.book o = Some b /\
  Startup.events o = [Startup.LoadedBookFile] /\
  (Startup.status o = Startup.Proceed <->
   basicChecksPass args cfg bonus b = true /\ Startup.anyParamDiffers cfg b = false) /\
  (Startup.status o <> Startup.Proceed -> exists msg, Startup.status o = Startup.Threw msg).
Proof.
  intros Hallow o. subst o. unfold Startup.loadExisting, basicChecksPass.
  rewrite Hallow.
  destruct (Startup.boardSizeX cfg =? initialBoardXSize b);
  destruct (Startup.boardSizeY cfg =? initialBoardYSize b);
  destruct (Startup.cfgRepBound cfg =? repBound b);
  destruct (Startup.rules cfg =? bookRules b);
  destruct (String.eqb (Startup.bonusFile args) "");
  destruct (Startup.bonusInitialBoard bonus =? initialBoard b);
  destruct (Player_eqb (Startup.bonusInitialPla bonus) (bookInitialPla b));
  destruct (Startup.anyParamDiffers cfg b);
  simpl; (split; [reflexivity|]); (split; [reflexivity|]);
  (split; [split; [intros H; try discriminate H; now split
                  | intros [H1 H2]; try discriminate H1; try discriminate H2; reflexivity]
          | intros H; try (now contradiction H); eauto]).
Qed.

Lemma X6_strict_load_never_changes_the_book_witness :
  let o := Startup.loadExisting TinyMore.strictArgs Tiny.cfg Tiny.noBonus Tiny.freshBook in
  Startup.book o = Some Tiny.freshBook /\
  Startup.events o = [Startup.LoadedBookFile] /\
  (Startup.status o = Startup.Proceed <->
   basicChecksPass TinyMore.strictArgs Tiny.cfg Tiny.noBonus Tiny.freshBook = true /\
   Startup.anyParamDiffers Tiny.cfg Tiny.freshBook = false) /\
  (Startup.status o <> Startup.Proceed -> exists msg, Startup.status o = Startup.Threw msg).
Proof.
  apply (X6_strict_load_never_changes_the_book TinyMore.strictArgs Tiny.cfg Tiny.noBonus
           Tiny.freshBook). reflexivity.
Defined.

(** ** What the bonus scan enters *)

Section BonusScan.

Variables (R : Rules) (stringToDouble : string -> option Q) (repBound : Z).

Lemma addBonus_keeps_same_bonus (hist : BoardHistory) (bonus : Q) (k : BookHash)
    (versions : list Z) :
  forall acc : gmap BookHash Q * list Bonus.Event,
    fst acc !! k = Some bonus ->
    fst (Bonus.addBonus R repBound hist bonus versions acc) !! k = Some bonus.
Proof.
  induction versions as [|v vs IH]; intros acc Hk; simpl; [exact Hk|].
  apply IH. simpl.
  destruct (decide (getHashAndSymmetry R hist repBound v = k)) as [->|Hne].
  - apply lookup_insert_eq.
  - now rewrite lookup_insert_ne.
Qed.

Lemma addBonus_enters (hist : BoardHistory) (bonus : Q) (versions : list Z) :
  forall (acc : gmap BookHash Q * list Bonus.Event) (v : Z),
    In v versions ->
    fst (Bonus.addBonus R repBound hist bonus versions acc)
      !! getHashAndSymmetry R hist repBound v = Some bonus.
Proof.
  induction versions as [|w vs IH]; intros acc v Hin; simpl; [destruct Hin|].
  destruct Hin as [->|Hin].
  - apply addBonus_keeps_same_bonus. simpl. apply lookup_insert_eq.
  - now apply IH.
Qed.

(** Where an entry of the map after [addBonus] comes from. *)
Lemma addBonus_origin (hist : BoardHistory) (bonus : Q) (k : BookHash) (x : Q)
    (versions : list Z) :
  forall acc : gmap BookHash Q * list Bonus.Event,
    fst (Bonus.addBonus R repBound hist bonus versions acc) !! k = Some x ->
    fst acc !! k = Some x \/
    (x = bonus /\ exists v, In v versions /\ k = getHashAndSymmetry R hist repBound v).
Proof.
  induction versions as [|w vs IH]; intros acc Hk; simpl in Hk; [now left|].
  destruct (IH _ Hk) as [Hacc | [Hx [v [Hv Hkv]]]].
  - simpl in Hacc.
    destruct (decide (getHashAndSymmetry R hist repBound w = k)) as [Heq|Hne].
    + rewrite Heq, lookup_insert_eq in Hacc. inversion Hacc; subst x.
      right. split; [reflexivity|]. exists w. split; [now left | now symmetry].
    + rewrite lookup_insert_ne in Hacc by exact Hne. now left.
  - right. split; [exact Hx|]. exists v. split; [now right | exact Hkv].
Qed.

Lemma scan_app (l1 l2 : list Bonus.PositionSample) :
  forall acc,
    Bonus.scan R stringToDouble repBound (l1 ++ l2) acc =
    match Bonus.scan R stringToDouble repBound l1 acc with
    | Bonus.Scanned m log => Bonus.scan R stringToDouble repBound l2 (m, log)
    | Bonus.Throw msg => Bonus.Throw msg
    end.
Proof.
  induction l1 as [|s l1 IH]; intros acc; simpl.
  - now destruct acc.
  - destruct (Bonus.onPosition R stringToDouble repBound s acc); [apply IH | reflexivity].
Qed.

Lemma onPosition_carries (s : Bonus.PositionSample) (hist : BoardHistory) (bonus : Q)
    (acc : gmap BookHash Q * list Bonus.Event) :
  carriesBonus R stringToDouble s hist bonus ->
  Bonus.onPosition R stringToDouble repBound s acc =
    Some (Bonus.addBonus R repBound hist bonus (Bonus.versionsHashed R) acc).
Proof.
  intros [pos [Hfind [Hreplay Hparse]]]. unfold Bonus.onPosition.
  now rewrite Hfind, Hreplay, Hparse.
Qed.

Lemma scan_origin (k : BookHash) (x : Q) (samples : list Bonus.PositionSample) :
  forall (acc : gmap BookHash Q * list Bonus.Event) (m : gmap BookHash Q)
         (log : list Bonus.Event),
    Bonus.scan R stringToDouble repBound samples acc = Bonus.Scanned m log ->
    m !! k = Some x ->
    fst acc !! k = Some x \/
    exists s hist v,
      In s samples /\ carriesBonus R stringToDouble s hist x /\
      In v (Bonus.versionsHashed R) /\ k = getHashAndSymmetry R hist repBound v.
Proof.
  induction samples as [|s rest IH]; intros acc m log Hscan Hk; simpl in Hscan.
  - inversion Hscan; subst. now left.
  - destruct (Bonus.onPosition R stringToDouble repBound s acc) as [acc'|] eqn:Hon;
      [|discriminate].
    destruct (IH acc' m log Hscan Hk) as [Hacc' | [s' [hist [v [Hin H]]]]].
    + unfold Bonus.onPosition in Hon.
      destruct (Bonus.findBONUS (Bonus.comments s)) as [pos|] eqn:Hfind;
        [|inversion Hon; subst; now left].
      destruct (Bonus.replay R _ _) as [hist|] eqn:Hreplay;
        [|inversion Hon; subst; now left].
      destruct (stringToDouble _) as [bonus|] eqn:Hparse; [|discriminate].
      inversion Hon; subst acc'.
      destruct (addBonus_origin hist bonus k x _ acc Hacc') as [Hacc | [-> [v [Hv Hkv]]]].
      * now left.
      * right. exists s, hist, v. split; [now left|]. split; [|now split].
        exists pos. now split.
    + right. exists s', hist, v. split; [now right | exact H].
Qed.

End BonusScan.

Lemma versionsHashed_complete (R : Rules) (v : Z) :
  1 <= v < LATEST_BOOK_VERSION R -> In v (Bonus.versionsHashed R).
Proof.
  intros Hv. unfold Bonus.versionsHashed. apply in_map_iff.
  exists (Z.to_nat (v - 1)). split; [lia|]. apply in_seq. lia.
Qed.

(** The positions scanned after an entry was made leave it alone, unless
    one of them carries a bonus for the same hash. *)
Lemma scan_keeps (R : Rules) (stringToDouble : string -> option Q) (repBound : Z)
    (k : BookHash) (samples : list Bonus.PositionSample) :
  forall (acc : gmap BookHash Q * list Bonus.Event) (m : gmap BookHash Q)
         (log : list Bonus.Event),
    (forall s' hist' bonus' v',
       In s' samples -> carriesBonus R stringToDouble s' hist' bonus' ->
       1 <= v' < LATEST_BOOK_VERSION R ->
       getHashAndSymmetry R hist' repBound v' <> k) ->
    Bonus.scan R stringToDouble repBound samples acc = Bonus.Scanned m log ->
    m !! k = fst acc !! k.
Proof.
  induction samples as [|s rest IH]; intros acc m log Hne Hscan; simpl in Hscan.
  - now inversion Hscan.
  - destruct (Bonus.onPosition R stringToDouble repBound s acc) as [acc'|] eqn:Hon;
      [|discriminate].
    rewrite (IH acc' m log) by
      (try exact Hscan; intros s' hist' bonus' v' Hin; apply Hne; now right).
    unfold Bonus.onPosition in Hon.
    destruct (Bonus.findBONUS (Bonus.comments s)) as [pos|] eqn:Hfind;
      [|now inversion Hon].
    destruct (Bonus.replay R _ _) as [hist|] eqn:Hreplay; [|now inversion Hon].
    destruct (stringToDouble _) as [bonus|] eqn:Hparse; [|discriminate].
    inversion Hon; subst acc'.
    apply addBonus_elsewhere. intros v Hv.
    apply (Hne s hist bonus v); [now left | | now apply versionsHashed_below_latest].
    exists pos. now split.
Qed.

(** X7. The last position that carries a bonus for a hash decides the bonus
    of that hash. After a scan of the positions [before ++ s :: after], where
    [s] carries the bonus [bonus] for the position [hist] and no position of
    [after] carries a bonus for the hash of [hist] under the book version
    [v], the map holds [bonus] under that hash: whatever the positions
    before [s] entered there is overwritten, and the positions after [s],
    with or without a bonus of their own, leave it alone. *)
Theorem X7_last_bonus_stands (R : Rules) (stringToDouble : string -> option Q)
    (repBound : Z) (before after : list Bonus.PositionSample) (s : Bonus.PositionSample)
    (hist : BoardHistory) (bonus : Q) (m : gmap BookHash Q) (log : list Bonus.Event)
    (v : Z) :
  Bonus.bonusByHashOf R stringToDouble repBound (before ++ s :: after)
    = Bonus.Scanned m log ->
  carriesBonus R stringToDouble s hist bonus ->
  1 <= v < LATEST_BOOK_VERSION R ->
  (forall s' hist' bonus' v',
     In s' after -> carriesBonus R stringToDouble s' hist' bonus' ->
     1 <= v' < LATEST_BOOK_VERSION R ->
     getHashAndSymmetry R hist' repBound v' <> getHashAndSymmetry R hist repBound v) ->
  m !! getHashAndSymmetry R hist repBound v = Some bonus.
Proof.
  intros Hscan Hcarries Hv Hafter. unfold Bonus.bonusByHashOf in Hscan.
  rewrite scan_app in Hscan.
  destruct (Bonus.scan R stringToDouble repBound before (∅, [])) as [m0 log0|];
    [|discriminate].
  simpl in Hscan.
  rewrite (onPosition_carries R stringToDouble repBound s hist bonus _ Hcarries) in Hscan.
  rewrite (scan_keeps R stringToDouble repBound _ after _ m log Hafter Hscan).
  apply addBonus_enters. now apply versionsHashed_complete.
Qed.

(** X8. The scan invents nothing: every entry of [bonusByHash] is the
    number found after "BONUS" in the comment of some position of the SGF
    whose moves could all be replayed, under the hash of that position for a
    book version from 1 up to, and not including, [LATEST_BOOK_VERSION]. *)
Theorem X8_every_bonus_has_a_position (R : Rules) (stringToDouble : string -> option Q)
    (repBound : Z) (samples : list Bonus.PositionSample) (m : gmap BookHash Q)
    (log : list Bonus.Event) (k : BookHash) (x : Q) :
  Bonus.bonusByHashOf R stringToDouble repBound samples = Bonus.Scanned m log ->
  m !! k = Some x ->
  exists s hist v,
    In s samples /\ carriesBonus R stringToDouble s hist x /\
    1 <= v < LATEST_BOOK_VERSION R /\ k = getHashAndSymmetry R hist repBound v.
Proof.
  intros Hscan Hk.
  destruct (scan_origin R stringToDouble repBound k x samples (∅, []) m log Hscan Hk)
    as [Hempty | [s [hist [v [Hin [Hc [Hv Hkv]]]]]]].
  - simpl in Hempty. now rewrite lookup_empty in Hempty.
  - exists s, hist, v. split; [exact Hin|]. split; [exact Hc|].
    split; [now apply versionsHashed_below_latest | exact Hkv].
Qed.

Lemma X7_last_bonus_stands_witness :
  ({[ 101 := 1%Q; 102 := 1%Q ]} : gmap BookHash Q)
    !! getHashAndSymmetry TinyMore.R3 Tiny.after1 3 2 = Some 1%Q.
Proof.
  apply (X7_last_bonus_stands TinyMore.R3 Tiny.stringToDouble 3 [] [TinyMore.plainAfter12]
           TinyMore.bonusAfter1 Tiny.after1 1%Q _
           [Bonus.AddingBonus 1 101; Bonus.AddingBonus 1 102]).
  - vm_compute. reflexivity.
  - exists 9%nat. repeat split.
  - simpl. lia.
  - intros s' hist' bonus' v' [<-|[]] [pos [Hfind _]].
    vm_compute in Hfind. discriminate Hfind.
Defined.

Lemma X8_every_bonus_has_a_position_witness :
  exists s hist v,
    In s [TinyMore.bonusAfter1] /\
    carriesBonus TinyMore.R3 Tiny.stringToDouble s hist 1%Q /\
    1 <= v < LATEST_BOOK_VERSION TinyMore.R3 /\
    102 = getHashAndSymmetry TinyMore.R3 hist 3 v.
Proof.
  apply (X8_every_bonus_has_a_position TinyMore.R3 Tiny.stringToDouble 3
           [TinyMore.bonusAfter1] {[ 101 := 1%Q; 102 := 1%Q ]}
           [Bonus.AddingBonus 1 101; Bonus.AddingBonus 1 102] 102 1%Q).
  - vm_compute. reflexivity.
  - reflexivity.
Defined.

(** ** The largest remaining policy *)

Lemma Qltb_true (x y : Q) : Qltb x y = true <-> (x < y)%Q.
Proof.
  unfold Qltb. rewrite negb_true_iff. split.
  - intros H. apply Qnot_le_lt. intros Hle. apply Qle_bool_iff in Hle. congruence.
  - intros H. destruct (Qle_bool y x) eqn:Hb; [|reflexivity].
    apply Qle_bool_iff in Hb. now apply Qlt_not_le in H.
Qed.

Lemma Qltb_false (x y : Q) : Qltb x y = false <-> (y <= x)%Q.
Proof.
  unfold Qltb. rewrite negb_false_iff. apply Qle_bool_iff.
Qed.

(** The loop of [getMaxPolicy] from any starting value. *)
Lemma getMaxPolicy_loop (l : list Q) :
  forall a : Q,
    let r := fold_left (fun maxPolicy p => if Qltb maxPolicy p then p else maxPolicy) l a in
    (a <= r)%Q /\ (forall p, In p l -> (p <= r)%Q) /\ (r = a \/ In r l).
Proof.
  induction l as [|x l IH]; intros a; simpl.
  - split; [apply Qle_refl|]. split; [intros p []|now left].
  - destruct (Qltb a x) eqn:Hax.
    + destruct (IH x) as [H1 [H2 H3]]. apply Qltb_true in Hax.
      split; [eapply Qle_trans; [apply Qlt_le_weak; exact Hax | exact H1]|].
      split.
      * intros p [<-|Hp]; [exact H1 | now apply H2].
      * destruct H3 as [->|H3]; right; [now left | now right].
    + destruct (IH a) as [H1 [H2 H3]]. apply Qltb_false in Hax.
      split; [exact H1|]. split.
      * intros p [<-|Hp]; [eapply Qle_trans; eassumption | now apply H2].
      * destruct H3 as [->|H3]; [now left | right; now right].
Qed.

(** X9. [getMaxPolicy] is never negative, is at least every entry of the
    policy, and is either zero or one of the entries: the largest entry, or
    zero when there is none above zero. The assertion [maxPolicy >= 0.0] of
    genbook.cpp:548 cannot fail. *)
Theorem X9_getMaxPolicy_is_the_largest (policyProbs : list Q) :
  (0 <= getMaxPolicy policyProbs)%Q /\
  (forall p, In p policyProbs -> (p <= getMaxPolicy policyProbs)%Q) /\
  (getMaxPolicy policyProbs = 0%Q \/ In (getMaxPolicy policyProbs) policyProbs).
Proof. exact (getMaxPolicy_loop policyProbs 0%Q). Qed.

Section Masking.

Variables (R : Rules) (E : Engine) (avoid : list Z).

(** genbook.cpp:539-545 over any list of locations. *)
Lemma mask_loop (locs : list Loc) :
  forall (probs : list Q) (pos : nat),
    fold_left
      (fun probs loc =>
         if 0 <? nth (Z.to_nat loc) avoid 0
         then <[getPos E loc := (-1)%Q]> probs
         else probs)
      locs probs !! pos =
    (fun p => if existsb (fun loc => (0 <? nth (Z.to_nat loc) avoid 0)
                                     && (getPos E loc =? pos)%nat) locs
              then (-1)%Q else p) <$> probs !! pos.
Proof.
  induction locs as [|loc locs IH]; intros probs pos; simpl.
  - now destruct (probs !! pos).
  - rewrite IH. destruct (0 <? nth (Z.to_nat loc) avoid 0); simpl; [|reflexivity].
    destruct (Nat.eqb_spec (getPos E loc) pos) as [->|Hne]; simpl.
    + destruct (probs !! pos) as [p|] eqn:Hp.
      * rewrite list_lookup_insert_eq by (eapply lookup_lt_Some; exact Hp).
        simpl. match goal with
               | |- context [existsb ?f locs] => now destruct (existsb f locs)
               end.
      * assert (Hnone : <[pos := (-1)%Q]> probs !! pos = None).
        { apply lookup_ge_None. rewrite length_insert. now apply lookup_ge_None. }
        now rewrite Hnone.
    + now rewrite list_lookup_insert_ne.
Qed.

Lemma maskAvoided_lookup (probs : list Q) (pos : nat) :
  maskAvoided R E avoid probs !! pos =
  (fun p => if isAvoidedPos R E avoid pos then (-1)%Q else p) <$> probs !! pos.
Proof.
  unfold maskAvoided, isAvoidedPos.
  destruct (Nat.ltb_spec 0 (length avoid)) as [Hlen|Hlen].
  - apply mask_loop.
  - assert (Hempty : avoid = []) by (destruct avoid; [reflexivity | simpl in Hlen; lia]).
    assert (Hno : existsb (fun loc => (0 <? nth (Z.to_nat loc) avoid 0)
                                      && (getPos E loc =? pos)%nat) (allLocs R) = false).
    { match goal with |- ?e = false => destruct e eqn:Hex end; [|reflexivity].
      apply existsb_exists in Hex. destruct Hex as [loc [_ Hloc]].
      rewrite Hempty in Hloc. destruct (Z.to_nat loc); discriminate. }
    rewrite Hno. now destruct (probs !! pos).
Qed.

End Masking.

(** X10. The [maxPolicy] that a finished search writes to a node is the
    largest remaining policy: it is not negative, it is at least the
    full-symmetry policy of every position that belongs to no avoided
    location, and it is zero or the policy of such a position. The policy of
    an avoided location never counts. *)
Theorem X10_maxPolicy_ignores_avoided_moves (R : Rules) (E : Engine) (nodePla : Player)
    (search : Search) (searchNode : SearchNodePtr) (hist : BoardHistory)
    (avoidMoveUntilByLoc : list Z) :
  let policyProbs := getFullSymmetryNNOutput E hist nodePla in
  let written :=
    maxPolicy (valuesFromFinishedSearch R E nodePla search searchNode hist
                 avoidMoveUntilByLoc) in
  (0 <= written)%Q /\
  (forall pos p,
     policyProbs !! pos = Some p ->
     isAvoidedPos R E avoidMoveUntilByLoc pos = false ->
     (p <= written)%Q) /\
  (written = 0%Q \/
   exists pos,
     isAvoidedPos R E avoidMoveUntilByLoc pos = false /\
     policyProbs !! pos = Some written).
Proof.
  intros policyProbs written.
  destruct (getMaxPolicy_loop (maskAvoided R E avoidMoveUntilByLoc policyProbs) 0%Q)
    as [H0 [Hub Hin]]. cbv zeta in H0, Hub, Hin.
  fold (getMaxPolicy (maskAvoided R E avoidMoveUntilByLoc policyProbs)) in H0, Hub, Hin.
  change (getMaxPolicy (maskAvoided R E avoidMoveUntilByLoc policyProbs)) with written in *.
  split; [exact H0|]. split.
  - intros pos p Hp Hav. apply Hub. apply list_elem_of_In.
    apply (list_elem_of_lookup_2 _ pos).
    rewrite maskAvoided_lookup, Hp, Hav. reflexivity.
  - destruct Hin as [Hz|Hin]; [now left|]. right.
    apply list_elem_of_In, list_elem_of_lookup_1 in Hin. destruct Hin as [pos Hpos].
    rewrite maskAvoided_lookup in Hpos.
    destruct (policyProbs !! pos) as [p|] eqn:Hp; [|discriminate].
    simpl in Hpos. exists pos.
    destruct (isAvoidedPos R E avoidMoveUntilByLoc pos).
    + exfalso. inversion Hpos as [Hw]. rewrite <- Hw in H0.
      revert H0. unfold Qle. simpl. lia.
    + split; [reflexivity | now rewrite Hp].
Qed.

(** ** The moves a search may not play *)

Section AvoidList.

Variables (R : Rules) (b : Book) (hist : BoardHistory) (constNode : BookHash)
          (isReExpansion : bool).

(** The loop of [findNewMovesAlreadyLocked] over any list of locations. *)
Lemma findNewMoves_loop_avoid (locs : list Loc) :
  forall (avoid : list Z) (hasNew : bool),
    let done :=
      fold_left
        (fun '(avoid, hasNew) moveLoc =>
           if isLegal R hist moveLoc (presumedNextMovePla hist)
           then if negb isReExpansion && isMoveInBook b constNode moveLoc
                then (<[Z.to_nat moveLoc := 1]> avoid, hasNew)
                else (avoid, true)
           else (avoid, hasNew))
        locs (avoid, hasNew) in
    snd done =
      hasNew || existsb (fun moveLoc =>
                           isLegal R hist moveLoc (presumedNextMovePla hist)
                           && negb (negb isReExpansion && isMoveInBook b constNode moveLoc))
                        locs /\
    forall i : nat,
      fst done !! i =
      (fun a => if existsb (fun moveLoc =>
                              isLegal R hist moveLoc (presumedNextMovePla hist)
                              && (negb isReExpansion && isMoveInBook b constNode moveLoc)
                              && (Z.to_nat moveLoc =? i)%nat) locs
                then 1 else a) <$> avoid !! i.
Proof.
  induction locs as [|loc locs IH]; intros avoid hasNew; simpl.
  - split; [now rewrite orb_false_r|]. intros i. now destruct (avoid !! i).
  - destruct (isLegal R hist loc (presumedNextMovePla hist)); simpl.
    + destruct (negb isReExpansion && isMoveInBook b constNode loc); simpl.
      * destruct (IH (<[Z.to_nat loc := 1]> avoid) hasNew) as [H1 H2].
        split; [exact H1|]. intros i. rewrite H2.
        destruct (Nat.eqb_spec (Z.to_nat loc) i) as [->|Hne].
        -- destruct (avoid !! i) as [a|] eqn:Ha.
           ++ rewrite list_lookup_insert_eq by (eapply lookup_lt_Some; exact Ha). simpl.
              match goal with
              | |- context [existsb ?f locs] => now destruct (existsb f locs)
              end.
           ++ assert (Hnone : <[i := 1]> avoid !! i = None).
              { apply lookup_ge_None. rewrite length_insert. now apply lookup_ge_None. }
              now rewrite Hnone.
        -- now rewrite list_lookup_insert_ne.
      * destruct (IH avoid true) as [H1 H2]. split; [|exact H2].
        rewrite H1. now rewrite orb_true_r.
    + apply IH.
Qed.

End AvoidList.

Lemma existsb_upto (c : Z -> bool) (i n : nat) :
  existsb (fun loc : Z => c loc && (Z.to_nat loc =? i)%nat) (List.map Z.of_nat (seq 0 n)) =
  (i <? n)%nat && c (Z.of_nat i).
Proof.
  induction n as [|n IH].
  - reflexivity.
  - rewrite seq_S, List.map_app, existsb_app, IH. simpl.
    rewrite Nat2Z.id, orb_false_r.
    destruct (Nat.eqb_spec n i) as [->|Hne].
    + rewrite andb_true_r.
      destruct (Nat.ltb_spec i i); [lia|].
      destruct (Nat.ltb_spec i (Datatypes.S i)); [|lia]. reflexivity.
    + rewrite andb_false_r, orb_false_r.
      destruct (Nat.ltb_spec i n), (Nat.ltb_spec i (Datatypes.S n)); try lia; reflexivity.
Qed.

Lemma existsb_allLocs (R : Rules) (c : Loc -> bool) (i : nat) :
  existsb (fun loc => c loc && (Z.to_nat loc =? i)%nat) (allLocs R) =
  (i <? MAX_ARR_SIZE R)%nat && c (Z.of_nat i).
Proof. exact (existsb_upto c i (MAX_ARR_SIZE R)). Qed.

(** The avoid list of [findNewMovesAlreadyLocked], entry by entry. *)
Lemma avoid_list_entries (R : Rules) (b : Book) (hist : BoardHistory)
    (constNode : BookHash) (allowReExpansion : bool) :
  let found := findNewMovesAlreadyLocked R b hist constNode allowReExpansion in
  let avoidMoveUntilByLoc := fst (fst found) in
  let isReExpansion := snd (fst found) in
  isReExpansion =
    allowReExpansion && canReExpand (getNode b constNode)
    && Qltb (recursiveVisits (getNode b constNode)) (params b maxVisitsForReExpansion) /\
  length avoidMoveUntilByLoc = MAX_ARR_SIZE R /\
  forall i : nat,
    (i < MAX_ARR_SIZE R)%nat ->
    avoidMoveUntilByLoc !! i =
      Some (if isLegal R hist (Z.of_nat i) (presumedNextMovePla hist)
               && (negb isReExpansion && isMoveInBook b constNode (Z.of_nat i))
            then 1 else 0).
Proof.
  unfold findNewMovesAlreadyLocked.
  set (isRe := allowReExpansion && canReExpand (getNode b constNode)
               && Qltb (recursiveVisits (getNode b constNode))
                       (params b maxVisitsForReExpansion)).
  destruct (findNewMoves_loop_avoid R b hist constNode isRe (allLocs R)
              (replicate (MAX_ARR_SIZE R) 0) false) as [_ Havoid].
  destruct (fold_left _ (allLocs R) (replicate (MAX_ARR_SIZE R) 0, false))
    as [avoid hasNew] eqn:Hfold.
  simpl in *. split; [reflexivity|].
  assert (Hlookup : forall i, (i < MAX_ARR_SIZE R)%nat ->
            avoid !! i =
            Some (if isLegal R hist (Z.of_nat i) (presumedNextMovePla hist)
                     && (negb isRe && isMoveInBook b constNode (Z.of_nat i))
                  then 1 else 0)).
  { intros i Hi. rewrite Havoid, lookup_replicate_2 by exact Hi. simpl.
    rewrite (existsb_allLocs R
               (fun moveLoc => isLegal R hist moveLoc (presumedNextMovePla hist)
                               && (negb isRe && isMoveInBook b constNode moveLoc)) i).
    destruct (Nat.ltb_spec i (MAX_ARR_SIZE R)); [reflexivity | lia]. }
  split; [|exact Hlookup].
  destruct (Nat.lt_trichotomy (length avoid) (MAX_ARR_SIZE R)) as [Hlt|[Heq|Hgt]];
    [|exact Heq|].
  - pose proof (Hlookup (length avoid) Hlt) as Hl.
    apply lookup_lt_Some in Hl. lia.
  - assert (Hsome : is_Some (avoid !! MAX_ARR_SIZE R)) by (apply lookup_lt_is_Some; lia).
    rewrite Havoid in Hsome.
    rewrite (proj1 (lookup_replicate_None _ _ _) (Nat.le_refl _)) in Hsome.
    simpl in Hsome. now destruct Hsome.
Qed.

(** X11. The avoid list of [findNewMovesAlreadyLocked] has one entry per
    location. Outside re-expansion an entry is 1 exactly for the legal moves
    that are already in the book, and 0 otherwise; in re-expansion (allowed,
    the node re-expandable, its visits below [maxVisitsForReExpansion])
    every entry is 0. *)
Theorem X11_avoid_list_marks_book_moves (R : Rules) (b : Book) (hist : BoardHistory)
    (constNode : BookHash) (allowReExpansion : bool) :
  let found := findNewMovesAlreadyLocked R b hist constNode allowReExpansion in
  let avoidMoveUntilByLoc := fst (fst found) in
  let isReExpansion := snd (fst found) in
  isReExpansion =
    allowReExpansion && canReExpand (getNode b constNode)
    && Qltb (recursiveVisits (getNode b constNode)) (params b maxVisitsForReExpansion) /\
  length avoidMoveUntilByLoc = MAX_ARR_SIZE R /\
  forall i : nat,
    (i < MAX_ARR_SIZE R)%nat ->
    avoidMoveUntilByLoc !! i =
      Some (if isLegal R hist (Z.of_nat i) (presumedNextMovePla hist)
               && (negb isReExpansion && isMoveInBook b constNode (Z.of_nat i))
            then 1 else 0).
Proof. exact (avoid_list_entries R b hist constNode allowReExpansion). Qed.

(** X12. [findNewMovesAlreadyLocked] returns true exactly when some location
    is legal and not avoided: a search is only started when it is left with
    a legal move to play. *)
Theorem X12_new_move_found_iff_legal_move_not_avoided (R : Rules) (b : Book)
    (hist : BoardHistory) (constNode : BookHash) (allowReExpansion : bool) :
  let found := findNewMovesAlreadyLocked R b hist constNode allowReExpansion in
  snd found = true <->
  exists loc,
    In loc (allLocs R) /\
    isLegal R hist loc (presumedNextMovePla hist) = true /\
    fst (fst found) !! Z.to_nat loc = Some 0.
Proof.
  pose proof (avoid_list_entries R b hist constNode allowReExpansion)
    as [Hre [_ Havoid]].
  cbv zeta in *. revert Hre Havoid.
  unfold findNewMovesAlreadyLocked.
  set (isRe := allowReExpansion && canReExpand (getNode b constNode)
               && Qltb (recursiveVisits (getNode b constNode))
                       (params b maxVisitsForReExpansion)).
  destruct (findNewMoves_loop_avoid R b hist constNode isRe (allLocs R)
              (replicate (MAX_ARR_SIZE R) 0) false) as [Hnew _].
  destruct (fold_left _ (allLocs R) (replicate (MAX_ARR_SIZE R) 0, false))
    as [avoid hasNew] eqn:Hfold.
  simpl in *. intros _ Havoid. rewrite Hnew. rewrite existsb_exists.
  assert (Hloc : forall loc, In loc (allLocs R) ->
            (Z.to_nat loc < MAX_ARR_SIZE R)%nat /\ Z.of_nat (Z.to_nat loc) = loc).
  { intros loc Hin. unfold allLocs in Hin. apply in_map_iff in Hin.
    destruct Hin as [k [<- Hk]]. apply in_seq in Hk. rewrite Nat2Z.id. lia. }
  split.
  - intros [loc [Hin Hc]]. exists loc. split; [exact Hin|].
    apply andb_true_iff in Hc. destruct Hc as [Hlegal Hnot].
    split; [exact Hlegal|].
    destruct (Hloc loc Hin) as [Hlt Hid].
    rewrite (Havoid _ Hlt), Hid, Hlegal. simpl.
    apply negb_true_iff in Hnot. now rewrite Hnot.
  - intros [loc [Hin [Hlegal Hzero]]]. exists loc. split; [exact Hin|].
    destruct (Hloc loc Hin) as [Hlt Hid].
    rewrite (Havoid _ Hlt), Hid, Hlegal in Hzero. simpl in Hzero.
    rewrite Hlegal. simpl.
    destruct (negb isRe && isMoveInBook b constNode loc); [discriminate | reflexivity].
Qed.

(** ** The compensation of the exploration constants *)




(** On the empty board of the small game nothing is avoided, the mass is
    0.6 + 0.1, and a [cpuctExploration] of 1 becomes 10/7. *)
Example cpuct_on_the_empty_board :
  (cpuctExploration
     (setParamsAndAvoidMovesCompensatingCpuct Tiny.R Tiny.E Tiny.empty
        (searchParams (Tiny.S true)) [0; 0; 0; 0]%Z) == 10 # 7)%Q.
Proof. vm_compute. reflexivity. Qed.

(** ** What expanding keeps *)

Lemma nodeGrows_refl (n : BookNode) : nodeGrows n n.
Proof. unfold nodeGrows. tauto. Qed.

Lemma nodeGrows_trans (n1 n2 n3 : BookNode) :
  nodeGrows n1 n2 -> nodeGrows n2 n3 -> nodeGrows n1 n3.
Proof.
  unfold nodeGrows. intros (A1 & A2 & A3 & A4 & A5 & A6) (B1 & B2 & B3 & B4 & B5 & B6).
  repeat split; try congruence; auto.
Qed.

Lemma bookGrows_refl (b : Book) : bookGrows b b.
Proof.
  split; [now destruct b|].
  intros h n Hn. exists n. split; [exact Hn | apply nodeGrows_refl].
Qed.

Lemma bookGrows_trans (b1 b2 b3 : Book) :
  bookGrows b1 b2 -> bookGrows b2 b3 -> bookGrows b1 b3.
Proof.
  intros [H1 N1] [H2 N2]. split.
  - rewrite H2. rewrite H1. reflexivity.
  - intros h n Hn. destruct (N1 h n Hn) as [n' [Hn' G1]].
    destruct (N2 h n' Hn') as [n'' [Hn'' G2]].
    exists n''. split; [exact Hn'' | eapply nodeGrows_trans; eassumption].
Qed.

Lemma grows_refl (st : State) : grows st st.
Proof. split; [apply bookGrows_refl | exists []; now rewrite app_nil_r]. Qed.

Lemma grows_trans (st1 st2 st3 : State) : grows st1 st2 -> grows st2 st3 -> grows st1 st3.
Proof.
  intros [B1 [e1 T1]] [B2 [e2 T2]]. split; [eapply bookGrows_trans; eassumption|].
  exists (e1 ++ e2). now rewrite T2, T1, <- app_assoc.
Qed.

Lemma grows_logging (evs : list Ev) (st : State) : grows st (logging evs st).
Proof. split; [apply bookGrows_refl | now exists evs]. Qed.

Lemma grows_withBook (b : Book) (st : State) :
  bookGrows (book st) b -> grows st (withBook b st).
Proof. intros Hb. split; [exact Hb | exists []; simpl; now rewrite app_nil_r]. Qed.

(** A change of one node that leaves a later state of the node. *)
Lemma bookGrows_updateNode (f : BookNode -> BookNode) (h : BookHash) (b : Book) :
  (forall n, nodes b !! h = Some n -> nodeGrows n (f n)) ->
  bookGrows b (updateNode f h b).
Proof.
  intros Hf. split; [reflexivity|].
  intros h' n Hn. rewrite lookup_updateNode.
  destruct (decide (h = h')) as [<-|Hne].
  - rewrite Hn. simpl. eexists. split; [reflexivity | now apply Hf].
  - exists n. split; [exact Hn | apply nodeGrows_refl].
Qed.

Lemma nodeGrows_setCanExpand (n : BookNode) : nodeGrows n (setCanExpand false n).
Proof. unfold nodeGrows. simpl. repeat split; auto; discriminate. Qed.

Lemma nodeGrows_setCanReExpand (n : BookNode) : nodeGrows n (setCanReExpand false n).
Proof. unfold nodeGrows. simpl. repeat split; auto; discriminate. Qed.

Lemma nodeGrows_setThisValues (v : BookValues) (n : BookNode) :
  nodeGrows n (setThisValuesNotInBook v n).
Proof. unfold nodeGrows. simpl. repeat split; auto. Qed.

Lemma nodeGrows_addChild (loc : Loc) (child : BookHash) (rawPolicy : Q) (n : BookNode) :
  childrenInBook n !! loc = None -> nodeGrows n (addChild loc child rawPolicy n).
Proof.
  intros Hnone. unfold nodeGrows. simpl. repeat split; auto.
  intros loc' e He. rewrite lookup_insert_ne; [exact He | congruence].
Qed.

Lemma grows_setNodeThisValuesNoMoves (node : BookHash) (st : State) :
  grows st (setNodeThisValuesNoMoves node st).
Proof.
  unfold setNodeThisValuesNoMoves. apply grows_withBook, bookGrows_updateNode.
  intros n _. eapply nodeGrows_trans;
    [apply nodeGrows_setThisValues | apply nodeGrows_setCanExpand].
Qed.

Lemma grows_setNodeThisValuesTerminal (R : Rules) (S : Settings) (node : BookHash)
    (hist : BoardHistory) (st : State) :
  grows st (setNodeThisValuesTerminal R S node hist st).
Proof.
  unfold setNodeThisValuesTerminal.
  destruct (if isNoResult R hist then _ else _) as [wl score].
  apply grows_withBook, bookGrows_updateNode.
  intros n _. eapply nodeGrows_trans;
    [apply nodeGrows_setThisValues | apply nodeGrows_setCanExpand].
Qed.

Lemma grows_setNodeThisValuesFromFinishedSearch (R : Rules) (E : Engine) (node : BookHash)
    (search : Search) (searchNode : SearchNodePtr) (hist : BoardHistory)
    (avoidMoveUntilByLoc : list Z) (st : State) :
  grows st (setNodeThisValuesFromFinishedSearch R E node search searchNode hist
              avoidMoveUntilByLoc st).
Proof.
  unfold setNodeThisValuesFromFinishedSearch.
  eapply grows_trans; [|apply grows_logging].
  apply grows_withBook, bookGrows_updateNode.
  intros n _. apply nodeGrows_setThisValues.
Qed.

Lemma grows_setCanExpand (node : BookHash) (st : State) :
  grows st (withBook (updateNode (setCanExpand false) node (book st)) st).
Proof.
  apply grows_withBook, bookGrows_updateNode. intros n _. apply nodeGrows_setCanExpand.
Qed.

Lemma grows_setCanReExpand (node : BookHash) (st : State) :
  grows st (withBook (updateNode (setCanReExpand false) node (book st)) st).
Proof.
  apply grows_withBook, bookGrows_updateNode. intros n _. apply nodeGrows_setCanReExpand.
Qed.

(** [playAndAddMove] adds a node that was not there and an edge that was not
    there. *)
Lemma bookGrows_playAndAddMove (R : Rules) (b : Book) (node : BookHash)
    (hist : BoardHistory) (moveLoc : Loc) (rawPolicy : Q) :
  bookGrows b (snd (playAndAddMove R b node hist moveLoc rawPolicy)).
Proof.
  unfold playAndAddMove.
  destruct (follow b node moveLoc) as [child|] eqn:Hfollow; [apply bookGrows_refl|].
  destruct (negb (isLegal R hist moveLoc (pla (getNode b node))));
    [apply bookGrows_refl|].
  cbn [snd].
  set (nextHist := makeBoardMoveAssumeLegal hist moveLoc (pla (getNode b node))).
  set (child := getHashAndSymmetry R nextHist (repBound b) (bookVersion b)).
  set (b1 := if bool_decide (is_Some (nodes b !! child)) then b else _).
  assert (Hb1 : bookGrows b b1 /\
                forall n, nodes b1 !! node = Some n -> childrenInBook n !! moveLoc = None).
  { unfold follow, getNode in Hfollow. subst b1.
    destruct (bool_decide (is_Some (nodes b !! child))) eqn:Hin.
    - split; [apply bookGrows_refl|]. intros n Hn. rewrite Hn in Hfollow.
      destruct (childrenInBook n !! moveLoc); [discriminate | reflexivity].
    - apply bool_decide_eq_false in Hin.
      assert (Hnone : nodes b !! child = None).
      { destruct (nodes b !! child) eqn:Hc; [|reflexivity]. exfalso. apply Hin. eauto. }
      split.
      + split; [reflexivity|]. intros h n Hn. exists n. split; [|apply nodeGrows_refl].
        simpl. rewrite lookup_insert_ne; [exact Hn | congruence].
      + simpl. intros n Hn. destruct (decide (child = node)) as [->|Hne].
        * rewrite lookup_insert_eq in Hn. inversion Hn. reflexivity.
        * rewrite lookup_insert_ne in Hn by exact Hne. rewrite Hn in Hfollow.
          destruct (childrenInBook n !! moveLoc); [discriminate | reflexivity]. }
  destruct Hb1 as [Hgrow Hfree].
  eapply bookGrows_trans; [exact Hgrow|].
  apply bookGrows_updateNode. intros n Hn. apply nodeGrows_addChild. now apply Hfree.
Qed.

(** The value refresh ends and leaves a later state. *)
Lemma ends_searchAndUpdateNodeThisValues (R : Rules) (E : Engine) (S : Settings)
    (node : BookHash) (st : State) :
  ends st id (searchAndUpdateNodeThisValues R E S node st).
Proof.
  unfold ends, searchAndUpdateNodeThisValues.
  destruct (historyReachingHere (getNode (book st) node)) as [hist|];
    [|eexists; split; [reflexivity | apply grows_logging]].
  destruct (isGameFinished R hist);
    [eexists; split; [reflexivity | apply grows_setNodeThisValuesTerminal]|].
  destruct (findNewMovesAlreadyLocked R (book st) hist node false)
    as [[avoid isReExpansion] found].
  destruct (negb found);
    [eexists; split; [reflexivity | apply grows_setNodeThisValuesNoMoves]|].
  eexists. split; [reflexivity|]. simpl.
  eapply grows_trans; [apply grows_logging|].
  apply grows_setNodeThisValuesFromFinishedSearch.
Qed.

Lemma ends_searchEach (R : Rules) (E : Engine) (S : Settings) (hashes : list BookHash) :
  forall st, ends st id (searchEach R E S hashes st).
Proof.
  induction hashes as [|hash rest IH]; intros st; simpl.
  - exists st. split; [reflexivity | apply grows_refl].
  - destruct (ends_searchAndUpdateNodeThisValues R E S hash st) as [st1 [H1 G1]].
    destruct (searchAndUpdateNodeThisValues R E S hash st) as [st1'| | | |];
      try (exists st1; split; [exact H1 | exact G1]).
    simpl in H1. inversion H1; subst st1'.
    destruct (IH st1) as [st2 [H2 G2]].
    exists st2. split; [exact H2 | eapply grows_trans; eassumption].
Qed.

Lemma setsGrow_refl (s : Sets) : setsGrow s s.
Proof. unfold setsGrow. repeat split; auto. Qed.

Lemma setsGrow_trans (s1 s2 s3 : Sets) : setsGrow s1 s2 -> setsGrow s2 s3 -> setsGrow s1 s3.
Proof.
  unfold setsGrow. intros (A1 & A2 & A3) (B1 & B2 & B3).
  split; [now transitivity (nodesHashesToSearch s2)|].
  split; [now transitivity (nodesHashesToUpdate s2) | auto].
Qed.

Lemma setsGrow_insertToUpdate (h : BookHash) (s : Sets) : setsGrow s (insertToUpdate h s).
Proof.
  unfold setsGrow. simpl. split; [reflexivity|].
  split; [apply union_subseteq_r|]. intros H. etransitivity; [exact H | apply union_subseteq_r].
Qed.

Lemma setsGrow_insertRecursedOn (p : SearchNodePtr) (s : Sets) :
  setsGrow s (insertRecursedOn p s).
Proof. unfold setsGrow. simpl. repeat split; auto. Qed.

Lemma setsGrow_finishSplice (node : BookHash) (anythingAdded anyRecursion : bool)
    (s : Sets) :
  setsGrow s (finishSplice node anythingAdded anyRecursion s) /\
  (anythingAdded = true ->
   node ∈ nodesHashesToSearch (finishSplice node anythingAdded anyRecursion s) /\
   node ∈ nodesHashesToUpdate (finishSplice node anythingAdded anyRecursion s)).
Proof.
  unfold finishSplice, setsGrow.
  assert (Hin : forall X : gset BookHash, node ∈ {[node]} ∪ X).
  { intros X. apply elem_of_union_l. now apply elem_of_singleton. }
  assert (Hsub : forall X : gset BookHash, X ⊆ {[node]} ∪ X).
  { intros X. apply union_subseteq_r. }
  assert (Hmono : forall X Y : gset BookHash, X ⊆ Y -> {[node]} ∪ X ⊆ {[node]} ∪ Y).
  { intros X Y H. now apply union_mono_l. }
  assert (Hweak : forall X Y : gset BookHash, X ⊆ Y -> X ⊆ {[node]} ∪ Y).
  { intros X Y H. etransitivity; [exact H | apply Hsub]. }
  destruct anythingAdded, anyRecursion; simpl.
  - split; [split; [apply Hsub | split; [apply Hsub | apply Hmono]]|].
    intros _. split; apply Hin.
  - split; [split; [apply Hsub | split; [apply Hsub | apply Hmono]]|].
    intros _. split; apply Hin.
  - split; [split; [reflexivity | split; [apply Hsub | apply Hweak]]|]. discriminate.
  - split; [split; [reflexivity | split; [reflexivity | auto]]|]. discriminate.
Qed.

Section Growing.

Variables (R : Rules) (E : Engine) (S : Settings) (search : Search).

(** One child of the search node. *)
Lemma spliceChild_grows (node : BookHash) (hist : BoardHistory) (moveLoc : Loc)
    (childSearchNode : SearchNodePtr) (rawPolicy : Q) (sets : Sets) (st : State) :
  match spliceChild R E search node hist moveLoc childSearchNode rawPolicy sets st with
  | Returned (_, _, _, sets1, st1) => grows st st1 /\ setsGrow sets sets1
  | Threw _ st' => grows st st'
  | AssertionFailed st' => grows st st'
  | NullNode st' => grows st st'
  | OutOfFuel => True
  end.
Proof.
  unfold spliceChild.
  destruct (isMoveInBook (book st) node moveLoc).
  - destruct (follow (book st) node moveLoc) as [child|]; [|apply grows_refl].
    split; [|apply setsGrow_refl].
    set (st1 := if negb _ then _ else st).
    assert (H1 : grows st st1).
    { subst st1. destruct (negb _); [|apply grows_refl].
      eapply grows_trans; [apply grows_setCanExpand | apply grows_logging]. }
    destruct (leafWithFewerVisits (book st1) child search childSearchNode); [|exact H1].
    eapply grows_trans; [exact H1 | apply grows_setNodeThisValuesFromFinishedSearch].
  - pose proof (bookGrows_playAndAddMove R (book st) node hist moveLoc rawPolicy) as Hplay.
    destruct (playAndAddMove R (book st) node hist moveLoc rawPolicy)
      as [[[[child|] nextHist] transposing] b1]; simpl in Hplay.
    + split; [|apply setsGrow_insertToUpdate].
      set (st1 := logging _ (withBook b1 st)).
      assert (H1 : grows st st1).
      { eapply grows_trans; [apply grows_withBook; exact Hplay | apply grows_logging]. }
      destruct (_ || _)%bool; [|exact H1].
      eapply grows_trans; [exact H1 | apply grows_setNodeThisValuesFromFinishedSearch].
    + eapply grows_trans; [apply grows_withBook; exact Hplay|].
      eapply grows_trans; [|apply grows_logging].
      apply (grows_setCanExpand node (withBook b1 st)).
Qed.

Lemma spliceChildren_spliced
    (recurse : SearchNodePtr -> BookHash -> BoardHistory -> Sets -> State ->
               Outcome (bool * Sets * State))
    (node : BookHash) (hist : BoardHistory) (maxDepth : Z) (bestLoc : Loc)
    (policyProbs : list Q) :
  (forall c child h s st, spliced child s st (recurse c child h s st)) ->
  forall (cs : list (Loc * SearchNodePtr)) (anyRecursion anythingAdded : bool)
         (sets : Sets) (st : State),
    spliced node sets st
      (spliceChildren R E S recurse search node hist maxDepth bestLoc policyProbs
         cs anyRecursion anythingAdded sets st).
Proof.
  intros Hrec. induction cs as [|[moveLoc childSearchNode] cs IH];
    intros anyRecursion anythingAdded sets st; simpl.
  - split; [apply grows_refl|]. apply setsGrow_finishSplice.
  - destruct (_ || _)%bool; [|now apply IH].
    pose proof (spliceChild_grows node hist moveLoc childSearchNode
                  (nth (getPos E bestLoc) policyProbs 0%Q) sets st) as Hchild.
    destruct (spliceChild R E search node hist moveLoc childSearchNode
                (nth (getPos E bestLoc) policyProbs 0%Q) sets st)
      as [[[[[child nextHist] added] sets1] st1] | | | |]; try exact Hchild.
    destruct Hchild as [G1 S1].
    destruct (_ && _)%bool.
    + pose proof (Hrec childSearchNode child nextHist sets1 st1) as Hcall.
      destruct (recurse childSearchNode child nextHist sets1 st1)
        as [[[a2 sets2] st2] | | | |]; simpl in *;
        try (eapply grows_trans; eassumption); [|exact I].
      destruct Hcall as (G2 & S2 & _).
      pose proof (IH true (anythingAdded || added)%bool sets2 st2) as Hrest.
      destruct (spliceChildren _ _ _ _ _ _ _ _ _ _ _ _ _ sets2 st2)
        as [[[a3 sets3] st3] | | | |]; simpl in *;
        try (eapply grows_trans; [exact G1|]; eapply grows_trans; eassumption);
        [|exact I].
      destruct Hrest as (G3 & S3 & N3). split; [|split; [|exact N3]].
      * eapply grows_trans; [exact G1|]. eapply grows_trans; eassumption.
      * eapply setsGrow_trans; [exact S1|]. eapply setsGrow_trans; eassumption.
    + pose proof (IH anyRecursion (anythingAdded || added)%bool sets1 st1) as Hrest.
      destruct (spliceChildren _ _ _ _ _ _ _ _ _ _ _ _ _ sets1 st1)
        as [[[a3 sets3] st3] | | | |]; simpl in *;
        try (eapply grows_trans; eassumption); [|exact I].
      destruct Hrest as (G3 & S3 & N3). split; [|split; [|exact N3]].
      * eapply grows_trans; eassumption.
      * eapply setsGrow_trans; eassumption.
Qed.

Lemma expandFromSearchResultRecursively_spliced (fuel : nat) :
  forall (searchNode : SearchNodePtr) (node : BookHash) (hist : BoardHistory)
         (maxDepth : Z) (sets : Sets) (st : State),
    spliced node sets st
      (expandFromSearchResultRecursively R E S fuel search searchNode node hist
         maxDepth sets st).
Proof.
  induction fuel as [|fuel IH]; intros searchNode node hist maxDepth sets st.
  - exact I.
  - simpl.
    assert (Hsame : forall s, setsGrow sets s -> spliced node sets st (Returned (false, s, st))).
    { intros s Hs. split; [apply grows_refl|]. split; [exact Hs | discriminate]. }
    destruct (maxDepth <=? 0); [apply Hsame, setsGrow_refl|].
    destruct (bool_decide _); [apply Hsame, setsGrow_refl|].
    destruct (playSelectionValues (nodeAt search searchNode)) as [[locs values]|];
      [|apply Hsame, setsGrow_insertRecursedOn].
    destruct (_ || _)%bool; [apply Hsame, setsGrow_insertRecursedOn|].
    match goal with
    | |- spliced _ _ _ ?call =>
      assert (Hcall : spliced node (insertRecursedOn searchNode sets) st call)
    end.
    { apply spliceChildren_spliced. intros c child h s st'. apply IH. }
    match goal with
    | |- spliced _ _ _ ?call => destruct call as [[[a sets'] st'] | | | |]
    end; exact Hcall.
Qed.

End Growing.

Lemma tracked_noSets : tracked noSets.
Proof. split; [apply NoDup_nil_2 | intros p []]. Qed.

(** [expandNode] ends, leaves a later state, and only appends to the list of
    new and changed nodes. *)
Lemma expandNode_ends (R : Rules) (E : Engine) (S : Settings) (shouldStop : bool)
    (node : BookHash) (newAndChangedNodes : list BookHash) (st : State) :
  ends st snd (expandNode R E S shouldStop node newAndChangedNodes st) /\
  forall changed st',
    expandNode R E S shouldStop node newAndChangedNodes st = Returned (changed, st') ->
    exists more, changed = newAndChangedNodes ++ more.
Proof.
  assert (Hsame : forall st1, grows st st1 ->
            ends st snd (Returned (newAndChangedNodes, st1)) /\
            forall changed st',
              Returned (newAndChangedNodes, st1) = Returned (changed, st') ->
              exists more, changed = newAndChangedNodes ++ more).
  { intros st1 G. split; [exists st1; split; [reflexivity | exact G]|].
    intros changed st' Heq. inversion Heq. exists []. now rewrite app_nil_r. }
  assert (Hfail : forall o : Outcome (list BookHash * State),
            (forall changed st', o <> Returned (changed, st')) ->
            ends st snd o ->
            ends st snd o /\
            forall changed st', o = Returned (changed, st') ->
                                exists more, changed = newAndChangedNodes ++ more).
  { intros o Hno He. split; [exact He|]. intros changed st' Heq.
    now destruct (Hno changed st'). }
  unfold expandNode.
  destruct (historyReachingHere (getNode (book st) node)) as [hist|].
  2:{ apply Hsame. eapply grows_trans; [apply grows_setCanExpand | apply grows_logging]. }
  destruct (_ && _)%bool.
  { apply Hfail; [discriminate|]. eexists. split; [reflexivity | apply grows_logging]. }
  destruct (_ || _)%bool; [apply Hsame, grows_setCanExpand|].
  set (st0 := logging [LogExpanding node] st).
  assert (G0 : grows st st0) by apply grows_logging.
  destruct (findNewMovesAlreadyLocked R (book st0) hist node true)
    as [[avoid isReExpansion] found].
  destruct (negb found).
  { apply Hsame. eapply grows_trans; [exact G0 | apply (grows_setCanExpand node st0)]. }
  set (thisParams := setParamsAndAvoidMovesCompensatingCpuct R E hist _ avoid).
  set (search := runWholeSearch E thisParams hist avoid).
  set (st1 := logging [RanSearch thisParams hist avoid] st0).
  assert (G1 : grows st st1).
  { eapply grows_trans; [exact G0 | apply grows_logging]. }
  destruct shouldStop; [now apply Hsame|].
  pose proof (expandFromSearchResultRecursively_spliced R E S search
                (Datatypes.S (Z.to_nat (maxDepthToRecord S))) (rootNode search) node hist
                (maxDepthToRecord S) noSets st1) as Hsp.
  pose proof (expandFromSearchResultRecursively_settled R E S search
                (Datatypes.S (Z.to_nat (maxDepthToRecord S))) (rootNode search) node hist
                (maxDepthToRecord S) noSets st1 (Nat.lt_succ_diag_r _) tracked_noSets) as Hst.
  destruct (expandFromSearchResultRecursively R E S _ search (rootNode search) node hist
              (maxDepthToRecord S) noSets st1) as [[[anythingAdded sets] st2] | | | |];
    simpl in Hsp, Hst;
    try (apply Hfail; [discriminate|]; eexists; split; [reflexivity|];
         eapply grows_trans; eassumption);
    [|contradiction].
  destruct Hsp as (G2' & _ & _).
  assert (G2 : grows st st2) by (eapply grows_trans; eassumption).
  destruct (_ && _)%bool.
  { apply Hfail; [discriminate|]. eexists. split; [reflexivity | exact G2]. }
  destruct (ends_searchEach R E S (elements (nodesHashesToSearch sets)) st2)
    as [st3 [H3 G3']].
  destruct (searchEach R E S (elements (nodesHashesToSearch sets)) st2)
    as [st3'| | | |]; simpl in H3; try discriminate H3; inversion H3; subst;
    try (apply Hfail; [discriminate|]; eexists; split; [reflexivity|];
         eapply grows_trans; eassumption).
  assert (G3 : grows st st3) by (eapply grows_trans; eassumption).
  set (st4 := withBook (updateNode (setCanReExpand false) node (book st3)) st3).
  assert (G4 : grows st st4).
  { eapply grows_trans; [exact G3 | apply grows_setCanReExpand]. }
  destruct (_ && _)%bool.
  - split.
    + eexists. split; [reflexivity|]. simpl.
      eapply grows_trans; [exact G4|].
      eapply grows_trans; [apply (grows_setCanExpand node st4) | apply grows_logging].
    + intros changed st' Heq. inversion Heq. eauto.
  - split.
    + eexists. split; [reflexivity | exact G4].
    + intros changed st' Heq. inversion Heq. eauto.
Qed.

Lemma loopExpandingNodes_ends (R : Rules) (E : Engine) (S : Settings) (shouldStop : bool)
    (positionsToSearch : list BookHash) :
  forall (newAndChangedNodes : list BookHash) (st : State),
    ends st snd (loopExpandingNodes R E S shouldStop positionsToSearch newAndChangedNodes st) /\
    forall changed st',
      loopExpandingNodes R E S shouldStop positionsToSearch newAndChangedNodes st
        = Returned (changed, st') ->
      exists more, changed = newAndChangedNodes ++ more.
Proof.
  assert (Hsame : forall (newAndChangedNodes : list BookHash) (st : State),
            ends st snd (Returned (newAndChangedNodes, st)) /\
            forall changed st',
              Returned (newAndChangedNodes, st) = Returned (changed, st') ->
              exists more, changed = newAndChangedNodes ++ more).
  { intros l st. split; [exists st; split; [reflexivity | apply grows_refl]|].
    intros changed st' Heq. inversion Heq. exists []. now rewrite app_nil_r. }
  induction positionsToSearch as [|node rest IH]; intros newAndChangedNodes st; simpl.
  - destruct shouldStop; apply Hsame.
  - destruct shouldStop eqn:Hstop; [apply Hsame|].
    destruct (expandNode_ends R E S false node newAndChangedNodes st)
      as [[st1 [H1 G1]] Happ].
    destruct (expandNode R E S false node newAndChangedNodes st)
      as [[changed1 st1']| | | |]; simpl in H1; try discriminate H1; inversion H1; subst;
      try (split; [eexists; split; [reflexivity | exact G1] | discriminate]).
    destruct (Happ changed1 st1 eq_refl) as [more1 ->].
    destruct (IH (newAndChangedNodes ++ more1) st1) as [[st2 [H2 G2]] Happ2].
    split.
    + exists st2. split; [exact H2 | eapply grows_trans; eassumption].
    + intros changed st' Heq. destruct (Happ2 changed st' Heq) as [more2 ->].
      exists (more1 ++ more2). now rewrite app_assoc.
Qed.

(** ** The value refresh touches one node *)

Lemma refreshed_same (n : BookNode) : refreshed n n.
Proof. exists (thisValuesNotInBook n). left. now destruct n. Qed.

Lemma updateNode_frame (f : BookNode -> BookNode) (node : BookHash) (b : Book) :
  (forall n, refreshed n (f n)) ->
  let b' := updateNode f node b in
  b' = setNodes (nodes b') b /\
  (forall h, h <> node -> nodes b' !! h = nodes b !! h) /\
  (forall n, nodes b !! node = Some n ->
             exists n', nodes b' !! node = Some n' /\ refreshed n n') /\
  (nodes b !! node = None -> nodes b' !! node = None).
Proof.
  intros Hf b'. subst b'. split; [reflexivity|]. split; [|split].
  - intros h Hne. rewrite lookup_updateNode.
    destruct (decide (node = h)); [congruence | reflexivity].
  - intros n Hn. rewrite lookup_updateNode.
    destruct (decide (node = node)); [|congruence].
    rewrite Hn. simpl. eauto.
  - intros Hn. rewrite lookup_updateNode.
    destruct (decide (node = node)); [|congruence]. now rewrite Hn.
Qed.

(** X14. A value refresh always ends, by returning or by throwing. Whatever
    it does, the only thing of the book it changes is the node it was
    called on, and of that node only the values of its own and [canExpand],
    which may be switched off: the parameters, every other node, and the
    player, the history, the edges, the visits and [canReExpand] of the node
    itself stay as they were, and no node is added. *)
Theorem X14_refresh_touches_only_the_values_of_its_node (R : Rules) (E : Engine)
    (S : Settings) (node : BookHash) (st : State) :
  exists st',
    stateAfter id (searchAndUpdateNodeThisValues R E S node st) = Some st' /\
    book st' = setNodes (nodes (book st')) (book st) /\
    (forall h, h <> node -> nodes (book st') !! h = nodes (book st) !! h) /\
    (forall n, nodes (book st) !! node = Some n ->
               exists n', nodes (book st') !! node = Some n' /\ refreshed n n') /\
    (nodes (book st) !! node = None -> nodes (book st') !! node = None).
Proof.
  assert (Hvc : forall v n, refreshed n (setCanExpand false (setThisValuesNotInBook v n))).
  { intros v n. exists v. now right. }
  assert (Hv : forall v n, refreshed n (setThisValuesNotInBook v n)).
  { intros v n. exists v. now left. }
  unfold searchAndUpdateNodeThisValues.
  destruct (historyReachingHere (getNode (book st) node)) as [hist|].
  2:{ eexists. split; [reflexivity|]. simpl. split; [now destruct (book st)|].
      split; [reflexivity|]. split; [|tauto].
      intros n Hn. exists n. split; [exact Hn | apply refreshed_same]. }
  destruct (isGameFinished R hist).
  { eexists. split; [reflexivity|]. unfold setNodeThisValuesTerminal.
    destruct (if isNoResult R hist then _ else _) as [wl score].
    apply updateNode_frame. intros n. apply Hvc. }
  destruct (findNewMovesAlreadyLocked R (book st) hist node false)
    as [[avoid isReExpansion] found].
  destruct (negb found).
  { eexists. split; [reflexivity|]. unfold setNodeThisValuesNoMoves.
    apply updateNode_frame. intros n. apply Hvc. }
  eexists. split; [reflexivity|].
  unfold setNodeThisValuesFromFinishedSearch. cbn [id book logging withBook].
  apply updateNode_frame. intros n. apply Hv.
Qed.

(** ** Expanding only adds *)

(** X15. [expandNode] always ends: by returning, by throwing, by a failed
    assertion or on a null child. However it ends, the book it leaves is a
    later state of the book it found: the header and the parameters are the
    same, every node is still there with the same player, history and
    visits, every edge is still there with the same child and the same
    policy, no [canExpand] or [canReExpand] was switched on, and the log was
    only appended to. When it returns, the list of new and changed nodes
    was only appended to. ([playAndAddMove] is modelled from the spec.) *)
Theorem X15_expandNode_only_adds (R : Rules) (E : Engine) (S : Settings)
    (shouldStop : bool) (node : BookHash) (newAndChangedNodes : list BookHash)
    (st : State) :
  (exists st',
     stateAfter snd (expandNode R E S shouldStop node newAndChangedNodes st) = Some st' /\
     grows st st') /\
  forall changed st',
    expandNode R E S shouldStop node newAndChangedNodes st = Returned (changed, st') ->
    exists more, changed = newAndChangedNodes ++ more.
Proof. exact (expandNode_ends R E S shouldStop node newAndChangedNodes st). Qed.

(** X16. The same for a worker that expands the nodes it is given one after
    the other: it ends, every node and every edge of the book it found is
    in the book it leaves, and what it reports as new and changed extends
    what was reported before. *)
Theorem X16_worker_only_adds (R : Rules) (E : Engine) (S : Settings)
    (shouldStop : bool) (positionsToSearch newAndChangedNodes : list BookHash)
    (st : State) :
  (exists st',
     stateAfter snd
       (loopExpandingNodes R E S shouldStop positionsToSearch newAndChangedNodes st)
       = Some st' /\
     grows st st') /\
  forall changed st',
    loopExpandingNodes R E S shouldStop positionsToSearch newAndChangedNodes st
      = Returned (changed, st') ->
    exists more, changed = newAndChangedNodes ++ more.
Proof.
  exact (loopExpandingNodes_ends R E S shouldStop positionsToSearch newAndChangedNodes st).
Qed.

(** X17. The sets a splice threads through only grow. If every node to
    search was a node to update before the call, that is so after it; and a
    call that returns true has put its node into both sets, so that the
    assertion of genbook.cpp:1016-1017 holds whenever something was added. *)
Theorem X17_splice_sets_grow (R : Rules) (E : Engine) (S : Settings) (fuel : nat)
    (search : Search) (searchNode : SearchNodePtr) (node : BookHash)
    (hist : BoardHistory) (maxDepth : Z) (sets : Sets) (st : State)
    (anythingAdded : bool) (sets' : Sets) (st' : State) :
  expandFromSearchResultRecursively R E S fuel search searchNode node hist maxDepth
    sets st = Returned (anythingAdded, sets', st') ->
  nodesHashesToSearch sets ⊆ nodesHashesToSearch sets' /\
  nodesHashesToUpdate sets ⊆ nodesHashesToUpdate sets' /\
  (nodesHashesToSearch sets ⊆ nodesHashesToUpdate sets ->
   nodesHashesToSearch sets' ⊆ nodesHashesToUpdate sets') /\
  (anythingAdded = true ->
   node ∈ nodesHashesToSearch sets' /\ node ∈ nodesHashesToUpdate sets').
Proof.
  intros Heq.
  pose proof (expandFromSearchResultRecursively_spliced R E S search fuel searchNode
                node hist maxDepth sets st) as Hsp.
  rewrite Heq in Hsp. destruct Hsp as (_ & (H1 & H2 & H3) & H4).
  repeat split; auto; now apply H4.
Qed.

Lemma X17_splice_sets_grow_witness :
  exists (sets' : Sets) (st' : State),
    expandFromSearchResultRecursively Tiny.R Tiny.E (Tiny.S true) 3 Tiny.searchOfRoot
      1 2 Tiny.empty 2 noSets (Tiny.start Tiny.freshBook) = Returned (true, sets', st') /\
    2 ∈ nodesHashesToSearch sets' /\ 2 ∈ nodesHashesToUpdate sets'.
Proof.
  eexists _, _. split; [reflexivity|].
  eapply (X17_splice_sets_grow Tiny.R Tiny.E (Tiny.S true) 3 Tiny.searchOfRoot
            1 2 Tiny.empty 2 noSets (Tiny.start Tiny.freshBook) true);
    reflexivity.
Defined.

(** ** The value refresh without a search *)

(** Without re-expansion, no move is found when every legal move is in the
    book. *)
Lemma findNewMoves_none (R : Rules) (b : Book) (hist : BoardHistory) (constNode : BookHash) :
  (forall loc, In loc (allLocs R) ->
               isLegal R hist loc (presumedNextMovePla hist) = true ->
               isMoveInBook b constNode loc = true) ->
  snd (findNewMovesAlreadyLocked R b hist constNode false) = false.
Proof.
  intros Hall. unfold findNewMovesAlreadyLocked. simpl.
  match goal with
  | |- context [fold_left ?f ?l ?a] =>
    pose proof (findNewMoves_loop R b hist constNode (allLocs R)
                  (replicate (MAX_ARR_SIZE R) 0) false) as Hloop;
    destruct (fold_left f l a) as [avoid hasNew] eqn:Hfold
  end.
  simpl in *. rewrite Hfold in Hloop. simpl in Hloop. rewrite Hloop.
  match goal with |- ?e = false => destruct e eqn:Hex end; [|reflexivity].
  apply existsb_exists in Hex. destruct Hex as [loc [Hin Hc]].
  apply andb_true_iff in Hc. destruct Hc as [Hlegal Hout].
  rewrite (Hall loc Hin Hlegal) in Hout. discriminate.
Qed.

(** X18. A value refresh of a node whose game is finished, or whose legal
    moves are all in the book already, runs no search: nothing is logged,
    [canExpand] of the node is switched off and its values are written with
    zero errors. For a finished game the visits and the weight are
    [maxVisitsForLeaves], the largest policy is 1, the win/loss value is 1,
    0 or -1, zero with a zero score when there is no result, and else the
    score is the final score. For a node with no move left the visits, the
    weight and the largest policy are 0 and the win/loss value and the
    scores are [1e20] for black to move and [-1e20] for white to move. *)
Theorem X18_refresh_without_search (R : Rules) (E : Engine) (S : Settings)
    (node : BookHash) (st : State) (hist : BoardHistory) :
  historyReachingHere (getNode (book st) node) = Some hist ->
  isGameFinished R hist = true \/
  (forall loc, In loc (allLocs R) ->
               isLegal R hist loc (presumedNextMovePla hist) = true ->
               isMoveInBook (book st) node loc = true) ->
  exists st',
    searchAndUpdateNodeThisValues R E S node st = Returned st' /\
    trace st' = trace st /\
    canExpand (getNode (book st') node) = false /\
    let v := thisValuesNotInBook (getNode (book st') node) in
    winLossError v = 0%Q /\ scoreError v = 0%Q /\ scoreStdev v = 0%Q /\
    sharpScoreMean v = scoreMean v /\
    if isGameFinished R hist
    then
      visits v = inject_Z (maxVisitsForLeaves S) /\
      weight v = inject_Z (maxVisitsForLeaves S) /\
      maxPolicy v = 1%Q /\
      (winLossValue v = 1%Q \/ winLossValue v = 0%Q \/ winLossValue v = (-1)%Q) /\
      (if isNoResult R hist
       then winLossValue v = 0%Q /\ scoreMean v = 0%Q
       else scoreMean v = finalWhiteMinusBlackScore R hist)
    else
      visits v = 0%Q /\ weight v = 0%Q /\ maxPolicy v = 0%Q /\
      winLossValue v = scoreMean v /\
      scoreMean v = match pla (getNode (book st) node) with
                    | P_WHITE => (- huge)%Q
                    | P_BLACK => huge
                    end.
Proof.
  intros Hhist Hcase.
  assert (Hn : exists n, nodes (book st) !! node = Some n).
  { unfold getNode in Hhist. destruct (nodes (book st) !! node) as [n|]; [eauto|].
    discriminate Hhist. }
  destruct Hn as [n Hn].
  unfold searchAndUpdateNodeThisValues. rewrite Hhist.
  destruct (isGameFinished R hist) eqn:Hfin.
  - eexists. split; [reflexivity|]. unfold setNodeThisValuesTerminal.
    destruct (isNoResult R hist) eqn:Hno; cbn [book trace withBook];
      rewrite (getNode_updateNode_same _ node (book st) n Hn); cbn;
      repeat split; auto.
    destruct (winner R hist) as [[]|]; auto.
  - destruct Hcase as [Hc|Hall]; [discriminate Hc|].
    pose proof (findNewMoves_none R (book st) hist node Hall) as Hnone.
    destruct (findNewMovesAlreadyLocked R (book st) hist node false)
      as [[avoid isReExpansion] found].
    simpl in Hnone. subst found. cbn [negb].
    eexists. split; [reflexivity|]. unfold setNodeThisValuesNoMoves.
    cbn [book trace withBook].
    rewrite (getNode_updateNode_same _ node (book st) n Hn). cbn.
    repeat split; reflexivity.
Qed.

Lemma X18_refresh_without_search_witness :
  exists st',
    searchAndUpdateNodeThisValues Tiny.R Tiny.E (Tiny.S true) 1102
      (Tiny.start Tiny.lineBook) = Returned st' /\
    trace st' = [] /\
    canExpand (getNode (book st') 1102) = false /\
    visits (thisValuesNotInBook (getNode (book st') 1102)) = 0%Q.
Proof.
  destruct (X18_refresh_without_search Tiny.R Tiny.E (Tiny.S true) 1102
              (Tiny.start Tiny.lineBook) Tiny.after12)
    as [st' (H1 & H2 & H3 & _ & _ & _ & _ & H4 & _)].
  - reflexivity.
  - right. intros loc Hin Hlegal. simpl in Hin.
    destruct Hin as [<-|[<-|[<-|[<-|[]]]]]; vm_compute in Hlegal; discriminate Hlegal.
  - exists st'. repeat split; assumption.
Defined.

(** ** The best move of a search node *)

(** genbook.cpp:780-789 after the values [pre ++ l], started after [pre]. *)
Lemma bestIdx_loop (l : list Q) :
  forall (pre : list Q) (bestIdx : nat) (bestValue : Q),
    pre !! bestIdx = Some bestValue ->
    (forall j v, pre !! j = Some v -> (v <= bestValue)%Q) ->
    (forall j v, pre !! j = Some v -> (j < bestIdx)%nat -> (v < bestValue)%Q) ->
    let '(bestIdx', bestValue', _) :=
      fold_left
        (fun '(bestIdx, bestValue, i) v =>
           if Qltb bestValue v then (i, v, Datatypes.S i)
           else (bestIdx, bestValue, Datatypes.S i))
        l (bestIdx, bestValue, length pre) in
    (pre ++ l) !! bestIdx' = Some bestValue' /\
    (forall j v, (pre ++ l) !! j = Some v -> (v <= bestValue')%Q) /\
    (forall j v, (pre ++ l) !! j = Some v -> (j < bestIdx')%nat -> (v < bestValue')%Q).
Proof.
  induction l as [|x l IH]; intros pre bestIdx bestValue Hbest Hall Hbefore.
  - simpl. rewrite app_nil_r. auto.
  - simpl.
    assert (Hlen : length (pre ++ [x]) = Datatypes.S (length pre)).
    { rewrite length_app. simpl. lia. }
    assert (Hsnoc : forall j v, (pre ++ [x]) !! j = Some v ->
                                pre !! j = Some v \/ (j = length pre /\ v = x)).
    { intros j v Hj. destruct (Nat.lt_ge_cases j (length pre)) as [Hlt|Hge].
      - left. now rewrite lookup_app_l in Hj.
      - right. rewrite lookup_app_r in Hj by exact Hge.
        destruct (j - length pre)%nat as [|k] eqn:Hk; simpl in Hj; [|discriminate Hj].
        split; [lia | congruence]. }
    destruct (Qltb bestValue x) eqn:Hlt.
    + apply Qltb_true in Hlt.
      specialize (IH (pre ++ [x]) (length pre) x).
      rewrite Hlen, <- app_assoc in IH. simpl in IH. apply IH.
      * rewrite lookup_app_r by lia. now rewrite Nat.sub_diag.
      * intros j v Hj. destruct (Hsnoc j v Hj) as [Hpre|[_ ->]]; [|apply Qle_refl].
        apply Qlt_le_weak. eapply Qle_lt_trans; [exact (Hall j v Hpre) | exact Hlt].
      * intros j v Hj Hjlt. destruct (Hsnoc j v Hj) as [Hpre|[-> _]]; [|lia].
        eapply Qle_lt_trans; [exact (Hall j v Hpre) | exact Hlt].
    + apply Qltb_false in Hlt.
      specialize (IH (pre ++ [x]) bestIdx bestValue).
      rewrite Hlen, <- app_assoc in IH. simpl in IH. apply IH.
      * rewrite lookup_app_l; [exact Hbest|]. now apply lookup_lt_Some in Hbest.
      * intros j v Hj. destruct (Hsnoc j v Hj) as [Hpre|[_ ->]];
          [exact (Hall j v Hpre) | exact Hlt].
      * intros j v Hj Hjlt. destruct (Hsnoc j v Hj) as [Hpre|[-> _]].
        -- exact (Hbefore j v Hpre Hjlt).
        -- apply lookup_lt_Some in Hbest. lia.
Qed.

(** X19. The best move of a search node is the first move with the largest
    play-selection value: [bestIdx] is an index of the list, no value is
    larger than the value there, and every value before it is smaller. *)
Theorem X19_best_move_is_first_largest (playSelectionValues : list Q) :
  playSelectionValues <> [] ->
  exists bestValue : Q,
    playSelectionValues !! bestIdxOf playSelectionValues = Some bestValue /\
    (forall j v, playSelectionValues !! j = Some v -> (v <= bestValue)%Q) /\
    (forall j v, playSelectionValues !! j = Some v ->
                 (j < bestIdxOf playSelectionValues)%nat -> (v < bestValue)%Q).
Proof.
  destruct playSelectionValues as [|x l]; [congruence|]. intros _.
  unfold bestIdxOf. simpl hd. simpl tl.
  pose proof (bestIdx_loop l [x] 0%nat x eq_refl) as Hloop.
  simpl length in Hloop.
  destruct (fold_left _ l (0%nat, x, 1%nat)) as [[bestIdx bestValue] i].
  simpl fst. exists bestValue. apply Hloop.
  - intros [|j] v Hj; simpl in Hj; [|discriminate Hj].
    inversion Hj. apply Qle_refl.
  - intros j v _ Hj. lia.
Qed.

Lemma X19_best_move_is_first_largest_witness :
  exists bestValue : Q,
    [(3 # 10)%Q; (7 # 10)%Q; (7 # 10)%Q] !! bestIdxOf [(3 # 10)%Q; (7 # 10)%Q; (7 # 10)%Q]
      = Some bestValue /\
    (forall j v, [(3 # 10)%Q; (7 # 10)%Q; (7 # 10)%Q] !! j = Some v -> (v <= bestValue)%Q) /\
    (forall j v, [(3 # 10)%Q; (7 # 10)%Q; (7 # 10)%Q] !! j = Some v ->
                 (j < bestIdxOf [(3 # 10)%Q; (7 # 10)%Q; (7 # 10)%Q])%nat ->
                 (v < bestValue)%Q).
Proof.
  apply (X19_best_move_is_first_largest [(3 # 10)%Q; (7 # 10)%Q; (7 # 10)%Q]).
  discriminate.
Defined.

(** ** Nodes that are not expanded *)

(** Whether [findNewMovesAlreadyLocked] finds a move. *)
Lemma findNewMoves_found (R : Rules) (b : Book) (hist : BoardHistory)
    (constNode : BookHash) (allowReExpansion : bool) :
  let found := findNewMovesAlreadyLocked R b hist constNode allowReExpansion in
  snd (fst found) =
    allowReExpansion && canReExpand (getNode b constNode)
    && Qltb (recursiveVisits (getNode b constNode)) (params b maxVisitsForReExpansion) /\
  snd found =
    existsb (fun moveLoc =>
               isLegal R hist moveLoc (presumedNextMovePla hist)
               && negb (negb (snd (fst found)) && isMoveInBook b constNode moveLoc))
            (allLocs R).
Proof.
  unfold findNewMovesAlreadyLocked.
  set (isRe := allowReExpansion && canReExpand (getNode b constNode)
               && Qltb (recursiveVisits (getNode b constNode))
                       (params b maxVisitsForReExpansion)).
  destruct (findNewMoves_loop_avoid R b hist constNode isRe (allLocs R)
              (replicate (MAX_ARR_SIZE R) 0) false) as [Hnew _].
  destruct (fold_left _ (allLocs R) (replicate (MAX_ARR_SIZE R) 0, false))
    as [avoid hasNew] eqn:Hfold.
  simpl in *. split; [reflexivity | exact Hnew].
Qed.

(** X20. A node that passes the integrity check and whose game is finished
    or past its normal phase, or that has no legal move that a search could
    add (every legal move is in the book and the node is not re-expanded),
    is not searched: [expandNode] switches [canExpand] of the node off,
    changes nothing else of the book, and returns the list of new and
    changed nodes as it got it. It logs nothing in the first case and only
    that it expands the node in the second. *)
Theorem X20_unexpandable_node_is_marked_not_searched (R : Rules) (E : Engine)
    (S : Settings) (shouldStop : bool) (node : BookHash)
    (newAndChangedNodes : list BookHash) (st : State) (hist : BoardHistory) :
  let isReExpansion :=
    canReExpand (getNode (book st) node)
    && Qltb (recursiveVisits (getNode (book st) node))
            (params (book st) maxVisitsForReExpansion) in
  let over := isGameFinished R hist || isPastNormalPhaseEnd R hist in
  historyReachingHere (getNode (book st) node) = Some hist ->
  bookVersion (book st) < 2 \/
  getHashAndSymmetry R hist (repBound (book st)) (bookVersion (book st)) = node ->
  over = true \/
  (forall loc, In loc (allLocs R) ->
               isLegal R hist loc (presumedNextMovePla hist) = true ->
               isReExpansion = false /\ isMoveInBook (book st) node loc = true) ->
  expandNode R E S shouldStop node newAndChangedNodes st =
    Returned (newAndChangedNodes,
              {| book := updateNode (setCanExpand false) node (book st);
                 trace := trace st ++ (if over then [] else [LogExpanding node]) |}).
Proof.
  intros isReExpansion over Hhist Hint Hcase.
  unfold expandNode. rewrite Hhist.
  assert (Hcheck : (2 <=? bookVersion (book st))
                   && negb (getHashAndSymmetry R hist (repBound (book st))
                              (bookVersion (book st)) =? node) = false).
  { destruct Hint as [Hv|Hh].
    - destruct (Z.leb_spec 2 (bookVersion (book st))); [lia | reflexivity].
    - rewrite Hh, Z.eqb_refl. apply andb_false_r. }
  rewrite Hcheck. fold over. destruct over eqn:Hover.
  { unfold withBook. now rewrite app_nil_r. }
  destruct Hcase as [Hc|Hall]; [discriminate Hc|].
  cbn [book logging].
  destruct (findNewMoves_found R (book st) hist node true) as [Hre Hfound].
  cbv zeta in Hre, Hfound.
  destruct (findNewMovesAlreadyLocked R (book st) hist node true)
    as [[avoid isRe] found].
  simpl in Hre, Hfound. change (isRe = isReExpansion) in Hre. subst isRe.
  assert (Hnone : found = false).
  { rewrite Hfound. match goal with |- ?e = false => destruct e eqn:Hex end; [|reflexivity].
    apply existsb_exists in Hex. destruct Hex as [loc [Hin Hc]].
    apply andb_true_iff in Hc. destruct Hc as [Hlegal Hout].
    destruct (Hall loc Hin Hlegal) as [Hr Hb]. rewrite Hr, Hb in Hout. discriminate. }
  rewrite Hnone. reflexivity.
Qed.

Lemma X20_unexpandable_node_is_marked_not_searched_witness :
  expandNode Tiny.R Tiny.E (Tiny.S true) false 1102 [] (Tiny.start Tiny.lineBook) =
    Returned ([],
              {| book := updateNode (setCanExpand false) 1102 Tiny.lineBook;
                 trace := [LogExpanding 1102] |}).
Proof.
  apply (X20_unexpandable_node_is_marked_not_searched Tiny.R Tiny.E (Tiny.S true) false
           1102 [] (Tiny.start Tiny.lineBook) Tiny.after12).
  - reflexivity.
  - right. reflexivity.
  - right. intros loc Hin Hlegal. simpl in Hin.
    destruct Hin as [<-|[<-|[<-|[<-|[]]]]]; vm_compute in Hlegal; discriminate Hlegal.
Defined.

(** X21. When a stop is requested while [expandNode] searches, what the
    search found is dropped: however the call ends, the book is as it was,
    but for [canExpand] of the node, which is switched off when the node
    could not be expanded anyway; and the list of new and changed nodes is
    returned as it was. *)
Theorem X21_stopped_expansion_adds_nothing (R : Rules) (E : Engine) (S : Settings)
    (node : BookHash) (newAndChangedNodes : list BookHash) (st : State) :
  exists st',
    stateAfter snd (expandNode R E S true node newAndChangedNodes st) = Some st' /\
    (book st' = book st \/
     book st' = updateNode (setCanExpand false) node (book st)) /\
    forall changed st'',
      expandNode R E S true node newAndChangedNodes st = Returned (changed, st'') ->
      changed = newAndChangedNodes.
Proof.
  unfold expandNode.
  destruct (historyReachingHere (getNode (book st) node)) as [hist|].
  2:{ eexists. split; [reflexivity|]. split; [now right|]. intros c s Heq. now inversion Heq. }
  destruct (_ && _)%bool.
  { eexists. split; [reflexivity|]. split; [now left | discriminate]. }
  destruct (_ || _)%bool.
  { eexists. split; [reflexivity|]. split; [now right|]. intros c s Heq. now inversion Heq. }
  cbn [book logging].
  destruct (findNewMovesAlreadyLocked R (book st) hist node true)
    as [[avoid isReExpansion] found].
  destruct (negb found).
  - eexists. split; [reflexivity|]. split; [now right|]. intros c s Heq. now inversion Heq.
  - eexists. split; [reflexivity|]. split; [now left|]. intros c s Heq. now inversion Heq.
Qed.

(** ** Adding a variation without updating *)

Lemma insertByPolicy_In (x y : Loc * Q) (l : list (Loc * Q)) :
  In y (insertByPolicy x l) <-> y = x \/ In y l.
Proof.
  induction l as [|z l IH]; simpl.
  - intuition congruence.
  - destruct (Qltb (snd x) (snd z)); simpl; [rewrite IH|]; intuition congruence.
Qed.

Lemma sortByPolicy_In (y : Loc * Q) (l : list (Loc * Q)) :
  In y (sortByPolicy l) <-> In y l.
Proof.
  induction l as [|x l IH]; simpl; [tauto|].
  rewrite insertByPolicy_In, IH. intuition congruence.
Qed.

Lemma insertByPolicy_sorted (x : Loc * Q) (l : list (Loc * Q)) :
  StronglySorted (fun a b => (snd b <= snd a)%Q) l ->
  StronglySorted (fun a b => (snd b <= snd a)%Q) (insertByPolicy x l).
Proof.
  induction l as [|z l IH]; intros Hs; simpl.
  - constructor; constructor.
  - inversion Hs as [|z' l' Hsl Hall]; subst.
    destruct (Qltb (snd x) (snd z)) eqn:Hlt.
    + apply Qltb_true in Hlt. constructor; [now apply IH|].
      apply List.Forall_forall. intros y Hy. apply insertByPolicy_In in Hy.
      destruct Hy as [->|Hy]; [now apply Qlt_le_weak|].
      rewrite List.Forall_forall in Hall. now apply Hall.
    + apply Qltb_false in Hlt. constructor; [exact Hs|].
      constructor; [exact Hlt|].
      apply List.Forall_forall. intros y Hy. rewrite List.Forall_forall in Hall.
      eapply Qle_trans; [apply Hall; exact Hy | exact Hlt].
Qed.

Lemma sortByPolicy_sorted (l : list (Loc * Q)) :
  StronglySorted (fun a b => (snd b <= snd a)%Q) (sortByPolicy l).
Proof.
  induction l as [|x l IH]; simpl; [constructor | now apply insertByPolicy_sorted].
Qed.

(** X22. The extra moves that a traced variation adds beside its own move
    are exactly the locations of the policy positions whose full-symmetry
    policy is positive and larger than [1.5 * moveLocPolicy + 0.05f], with
    [0.05f] the [float] nearest to 0.05, which is a little above it; the
    null location and the move itself are left out. They are tried in the
    order of their policy, largest first. *)
Theorem X22_extra_moves_have_noticeably_higher_policy (T : Tracer) (policyProbs : list Q)
    (moveLoc : Loc) (moveLocPolicy : Q) :
  let extras := extraMoveLocsToExpand T policyProbs moveLoc moveLocPolicy in
  StronglySorted (fun a b => (snd b <= snd a)%Q) extras /\
  forall loc p,
    In (loc, p) extras <->
    exists pos : nat,
      (pos < MAX_NN_POLICY_SIZE T)%nat /\ loc = posToLoc T pos /\
      p = nth pos policyProbs 0%Q /\
      loc <> NULL_LOC T /\ loc <> moveLoc /\
      (0 < p)%Q /\ ((3 # 2) * moveLocPolicy + float_0_05 < p)%Q.
Proof.
  intros extras. split; [apply sortByPolicy_sorted|].
  intros loc p. subst extras. unfold extraMoveLocsToExpand, higherPolicyMoves.
  rewrite sortByPolicy_In, in_flat_map. split.
  - intros [pos [Hpos Hin]]. apply in_seq in Hpos. exists pos. cbv zeta in Hin.
    destruct (Z.eqb_spec (posToLoc T pos) (NULL_LOC T)) as [|Hnull];
      cbn [orb andb In] in Hin; [contradiction|].
    destruct (Z.eqb_spec (posToLoc T pos) moveLoc) as [|Hmove];
      cbn [orb andb In] in Hin; [contradiction|].
    destruct (Qltb 0 (nth pos policyProbs 0%Q)) eqn:H0; cbn [orb andb In] in Hin; [|contradiction].
    destruct (Qltb ((3 # 2) * moveLocPolicy + float_0_05) (nth pos policyProbs 0%Q)) eqn:H1;
      cbn [orb andb In] in Hin; [|contradiction].
    destruct Hin as [Heq|[]]. inversion Heq; subst.
    apply Qltb_true in H0. apply Qltb_true in H1.
    repeat split; auto; lia.
  - intros [pos (Hlt & -> & -> & Hnull & Hmove & H0 & H1)]. exists pos.
    split; [apply in_seq; lia|]. cbv zeta.
    destruct (Z.eqb_spec (posToLoc T pos) (NULL_LOC T)); [contradiction|].
    destruct (Z.eqb_spec (posToLoc T pos) moveLoc); [contradiction|].
    cbn [orb]. apply Qltb_true in H0. apply Qltb_true in H1. rewrite H0, H1.
    now left.
Qed.

(** A policy of exactly [0.05f] beside a move of policy 0 is not above the
    threshold; a policy of 0.1 is. *)
Example policy_at_the_threshold_is_no_extra :
  extraMoveLocsToExpand TinyMore.tracer [0%Q; float_0_05; (1 # 10)%Q; 0%Q] 3 0%Q =
  [(2, (1 # 10)%Q)].
Proof. reflexivity. Qed.

Lemma walkGrows_refl (b : Book) : walkGrows b b.
Proof. split; [apply bookGrows_refl|]. intros h n' Hn. now rewrite Hn. Qed.

Lemma walkGrows_trans (b1 b2 b3 : Book) :
  walkGrows b1 b2 -> walkGrows b2 b3 -> walkGrows b1 b3.
Proof.
  intros [G1 V1] [G2 V2]. split; [eapply bookGrows_trans; eassumption|].
  intros h n3 Hn3. rewrite (V2 h n3 Hn3).
  destruct (nodes b2 !! h) as [n2|] eqn:Hn2.
  - exact (V1 h n2 Hn2).
  - destruct (nodes b1 !! h) as [n1|] eqn:Hn1; [|reflexivity].
    destruct G1 as [_ N1]. destruct (N1 h n1 Hn1) as [n2 [Hn2' _]]. congruence.
Qed.

Lemma accounted_refl (b : Book) (s : gset BookHash) : accounted b b s.
Proof. intros h _. now left. Qed.

Lemma accounted_trans (b1 b2 b3 : Book) (s s' : gset BookHash) :
  s ⊆ s' -> accounted b1 b2 s -> accounted b2 b3 s' -> accounted b1 b3 s'.
Proof.
  intros Hs A1 A2 h Hh.
  assert (Hh' : h ∉ s) by (intros Hin; apply Hh, Hs, Hin).
  destruct (A1 h Hh') as [E1|[n [E1 E1']]]; destruct (A2 h Hh) as [E2|[n' [E2 E2']]].
  - left. congruence.
  - right. exists n'. split; congruence.
  - right. exists n. split; [exact E1 | congruence].
  - right. exists n. split; [exact E1|]. rewrite E2'. rewrite E1' in E2.
    inversion E2. reflexivity.
Qed.

Lemma walked_refl (w : Walk) : walked w w.
Proof.
  split; [apply walkGrows_refl|]. split; [reflexivity|].
  split; [apply accounted_refl|]. exists []. now rewrite app_nil_r.
Qed.

Lemma walked_trans (w1 w2 w3 : Walk) : walked w1 w2 -> walked w2 w3 -> walked w1 w3.
Proof.
  intros (G1 & S1 & A1 & [e1 L1]) (G2 & S2 & A2 & [e2 L2]).
  split; [eapply walkGrows_trans; eassumption|].
  split; [etransitivity; eassumption|].
  split; [eapply accounted_trans; eassumption|].
  exists (e1 ++ e2). now rewrite L2, L1, <- app_assoc.
Qed.

(** Switching [canExpand] of a node off. *)
Lemma walked_setCanExpand (node : BookHash) (w : Walk) :
  walked w {| walkBook := updateNode (setCanExpand false) node (walkBook w);
              toUpdate := toUpdate w; walkLog := walkLog w |}.
Proof.
  split; [|split; [reflexivity|split]]; cbn [walkBook toUpdate walkLog].
  - split.
    + apply bookGrows_updateNode. intros n _. apply nodeGrows_setCanExpand.
    + intros h n' Hn'. rewrite lookup_updateNode in Hn'.
      destruct (decide (node = h)) as [->|Hne]; [|now rewrite Hn'].
      destruct (nodes (walkBook w) !! h) as [n|]; simpl in Hn'; [|discriminate Hn'].
      inversion Hn'. reflexivity.
  - intros h _. rewrite lookup_updateNode.
    destruct (decide (node = h)) as [->|Hne]; [|now left].
    destruct (nodes (walkBook w) !! h) as [n|]; [right; eauto | now left].
  - exists []. now rewrite app_nil_r.
Qed.

Lemma walked_skipping (e : SkipEv) (w : Walk) : walked w (skipping e w).
Proof.
  split; [apply walkGrows_refl|]. split; [reflexivity|].
  split; [apply accounted_refl|]. now exists [e].
Qed.

(** What [playAndAddMove] does to the nodes: it adds the child if it is new
    and changes the parent; the values of no node of the book change. *)
Lemma playAndAddMove_nodes (R : Rules) (b : Book) (node : BookHash)
    (hist : BoardHistory) (moveLoc : Loc) (rawPolicy : Q) :
  let r := playAndAddMove R b node hist moveLoc rawPolicy in
  walkGrows b (snd r) /\
  forall h, h <> node ->
            nodes (snd r) !! h = nodes b !! h \/
            (fst (fst (fst r)) = Some h /\ snd (fst r) = false).
Proof.
  intros r. split; [split|].
  - apply bookGrows_playAndAddMove.
  - subst r. unfold playAndAddMove.
    destruct (follow b node moveLoc) as [child|];
      [cbn [snd]; intros h n' Hn'; now rewrite Hn'|].
    destruct (negb (isLegal R hist moveLoc (pla (getNode b node))));
      [cbn [snd]; intros h n' Hn'; now rewrite Hn'|].
    cbn [snd].
    set (nextHist := makeBoardMoveAssumeLegal hist moveLoc (pla (getNode b node))).
    set (child := getHashAndSymmetry R nextHist (repBound b) (bookVersion b)).
    intros h n' Hn'. rewrite lookup_updateNode in Hn'.
    assert (Hn1 : exists n1,
              nodes (if bool_decide (is_Some (nodes b !! child)) then b
                     else setNodes (<[child := newNode (getOpp (pla (getNode b node)))
                                                  (Some nextHist)]> (nodes b)) b) !! h
              = Some n1 /\ thisValuesNotInBook n' = thisValuesNotInBook n1).
    { destruct (decide (node = h)) as [->|Hne]; [|eauto].
      match type of Hn' with _ <$> ?x = _ => destruct x as [n1|] end;
        simpl in Hn'; [|discriminate Hn'].
      inversion Hn'. eauto. }
    destruct Hn1 as [n1 [Hn1 ->]].
    destruct (bool_decide (is_Some (nodes b !! child))) eqn:Hin; [now rewrite Hn1|].
    apply bool_decide_eq_false in Hin. simpl in Hn1.
    destruct (decide (child = h)) as [<-|Hne].
    + rewrite lookup_insert_eq in Hn1. inversion Hn1.
      destruct (nodes b !! child); [exfalso; apply Hin; eauto | reflexivity].
    + rewrite lookup_insert_ne in Hn1 by exact Hne. now rewrite Hn1.
  - subst r. unfold playAndAddMove.
    destruct (follow b node moveLoc) as [child|]; [now left|].
    destruct (negb (isLegal R hist moveLoc (pla (getNode b node)))); [now left|].
    cbn [fst snd]. intros h Hne. rewrite lookup_updateNode.
    destruct (decide (node = h)); [congruence|].
    destruct (bool_decide _) eqn:Hin; [now left|]. simpl.
    match goal with
    | |- context [<[?c := _]> _ !! h] => destruct (decide (c = h)) as [<-|Hc]
    end.
    + now right.
    + left. now rewrite lookup_insert_ne.
Qed.

Lemma addMoveIfAbsent_walked (R : Rules) (node : BookHash) (hist : BoardHistory)
    (loc : Loc) (policy : Q) (w : Walk) :
  node ∈ toUpdate w ->
  walked w (addMoveIfAbsent R node hist loc policy w) /\
  node ∈ toUpdate (addMoveIfAbsent R node hist loc policy w).
Proof.
  intros Hnode. unfold addMoveIfAbsent.
  destruct (isMoveInBook (walkBook w) node loc); [split; [apply walked_refl | exact Hnode]|].
  destruct (playAndAddMove_nodes R (walkBook w) node hist loc policy) as [Hg Hframe].
  cbv zeta in Hg, Hframe.
  assert (Hsame : forall b1,
            walkGrows (walkBook w) b1 ->
            (forall h, h <> node -> nodes b1 !! h = nodes (walkBook w) !! h) ->
            walked w {| walkBook := b1; toUpdate := toUpdate w; walkLog := walkLog w |}).
  { intros b1 G F. split; [exact G|]. split; [reflexivity|]. split.
    - intros h Hh. left. apply F. intros ->. now apply Hh.
    - exists []. simpl. now rewrite app_nil_r. }
  destruct (playAndAddMove R (walkBook w) node hist loc policy)
    as [[[[child|] nextHist] [|]] b1]; cbn [fst snd] in Hg, Hframe.
  - split; [|exact Hnode]. apply Hsame; [exact Hg|].
    intros h Hne. destruct (Hframe h Hne) as [He|[_ Hf]]; [exact He | discriminate Hf].
  - split; [|now apply elem_of_union_r].
    split; [exact Hg|]. split; [apply union_subseteq_r|]. split.
    + intros h Hh. cbn [walkBook toUpdate] in *.
      assert (Hne : h <> node).
      { intros ->. apply Hh. now apply elem_of_union_r. }
      destruct (Hframe h Hne) as [He|[Hc _]]; [now left|].
      exfalso. apply Hh. inversion Hc. apply elem_of_union_l. now apply elem_of_singleton.
    + exists []. simpl. now rewrite app_nil_r.
  - split; [|exact Hnode]. apply Hsame; [exact Hg|].
    intros h Hne. destruct (Hframe h Hne) as [He|[Hf _]]; [exact He | discriminate Hf].
  - split; [|exact Hnode]. apply Hsame; [exact Hg|].
    intros h Hne. destruct (Hframe h Hne) as [He|[Hf _]]; [exact He | discriminate Hf].
Qed.

Lemma addMovesAt_walked (R : Rules) (E : Engine) (T : Tracer) (node : BookHash)
    (hist : BoardHistory) (curPla : Player) (moveLoc : Loc) (w : Walk) :
  walked w (addMovesAt R E T node hist curPla moveLoc w).
Proof.
  unfold addMovesAt.
  set (w1 := {| walkBook := walkBook w; toUpdate := {[node]} ∪ toUpdate w;
                walkLog := walkLog w |}).
  assert (H1 : walked w w1).
  { split; [apply walkGrows_refl|]. split; [apply union_subseteq_r|].
    split; [apply accounted_refl|]. exists []. simpl. now rewrite app_nil_r. }
  assert (Hin1 : node ∈ toUpdate w1).
  { apply elem_of_union_l. now apply elem_of_singleton. }
  destruct (addMoveIfAbsent_walked R node hist moveLoc
              (nth (getPos E moveLoc) (getFullSymmetryNNOutput E hist curPla) 0%Q) w1 Hin1)
    as [H2 Hin2].
  assert (H12 : walked w (addMoveIfAbsent R node hist moveLoc
                            (nth (getPos E moveLoc)
                               (getFullSymmetryNNOutput E hist curPla) 0%Q) w1))
    by (eapply walked_trans; eassumption).
  clear H1 H2. revert H12 Hin2.
  generalize (addMoveIfAbsent R node hist moveLoc
                (nth (getPos E moveLoc) (getFullSymmetryNNOutput E hist curPla) 0%Q) w1).
  generalize (extraMoveLocsToExpand T (getFullSymmetryNNOutput E hist curPla) moveLoc
                (nth (getPos E moveLoc) (getFullSymmetryNNOutput E hist curPla) 0%Q)).
  intros extras. induction extras as [|extra extras IH]; intros w2 H2 Hin2; simpl.
  - exact H2.
  - destruct (addMoveIfAbsent_walked R node hist (fst extra) (snd extra) w2 Hin2)
      as [H3 Hin3].
    apply IH; [eapply walked_trans; eassumption | exact Hin3].
Qed.

(** The loop over the moves, however it ends. *)
Lemma walkVariation_walked (R : Rules) (E : Engine) (S : Settings) (T : Tracer)
    (moves : list (Loc * Player)) :
  forall (node : BookHash) (hist : BoardHistory) (curPla : Player) (w : Walk),
    walked w (walkOf (walkVariation R E S T moves node hist curPla w)).
Proof.
  induction moves as [|[moveLoc movePla] rest IH]; intros node hist curPla w; simpl.
  - apply walked_refl.
  - destruct (_ || _)%bool.
    { simpl. eapply walked_trans; [apply walked_setCanExpand | apply walked_skipping]. }
    destruct (negb (Player_eqb movePla curPla)); [apply walked_refl|].
    destruct (negb (Player_eqb movePla (pla (getNode (walkBook w) node))));
      [apply walked_refl|].
    destruct (negb (isLegal R hist moveLoc movePla)); [apply walked_skipping|].
    destruct (_ && _)%bool; [apply walked_skipping|].
    destruct (_ && _)%bool; [apply walked_refl|].
    set (w1 := if negb (isMoveInBook (walkBook w) node moveLoc) then _ else w).
    assert (H1 : walked w w1).
    { subst w1. destruct (negb _); [apply addMovesAt_walked | apply walked_refl]. }
    destruct (_ && _)%bool; [exact H1|].
    destruct (playMove (walkBook w1) node hist moveLoc) as [[child nextHist]|].
    + eapply walked_trans; [exact H1 | apply IH].
    + destruct (negb (NDEBUG S)); [exact H1|]. destruct rest; exact H1.
Qed.

(** X23. Adding a traced variation writes no values: however the walk ends,
    every node of the book is still there with the values it had, its
    player, history and visits, and all its edges, no expansion flag is
    switched on, and a node that is new has no values yet. A target history
    that does not start like the book (another initial board, or another
    first player) makes the walk throw before it touches the book or the
    set of nodes to update. ([playAndAddMove] and [playMove] are modelled
    from the spec.) *)
Theorem X23_traced_variation_writes_no_values (R : Rules) (E : Engine) (S : Settings)
    (T : Tracer) (targetHist : BoardHistory) (nodesHashesToUpdate : gset BookHash)
    (b : Book) :
  let result := addVariationToBookWithoutUpdate R E S T targetHist nodesHashesToUpdate b in
  bookGrows b (walkBook (walkOf result)) /\
  (forall h n',
     nodes (walkBook (walkOf result)) !! h = Some n' ->
     thisValuesNotInBook n' =
     match nodes b !! h with
     | Some n => thisValuesNotInBook n
     | None => noValues
     end) /\
  (sameInitialBoard T targetHist b = false \/ initialPla targetHist <> bookInitialPla b ->
   result =
   WalkThrew "Target board history to add to book doesn't start from the same position"
     {| walkBook := b; toUpdate := nodesHashesToUpdate; walkLog := [] |}).
Proof.
  intros result. subst result. unfold addVariationToBookWithoutUpdate.
  set (w := {| walkBook := b; toUpdate := nodesHashesToUpdate; walkLog := [] |}).
  set (hist := {| initialPla := bookInitialPla b; moveHistory := [] |}).
  change (presumedNextMovePla hist) with (bookInitialPla b).
  assert (Hgrows : forall o, walked w (walkOf o) ->
            bookGrows b (walkBook (walkOf o)) /\
            forall h n', nodes (walkBook (walkOf o)) !! h = Some n' ->
                         thisValuesNotInBook n' =
                         match nodes b !! h with
                         | Some n => thisValuesNotInBook n
                         | None => noValues
                         end).
  { intros o ([G V] & _). split; [exact G | exact V]. }
  destruct (negb (sameInitialBoard T targetHist b)
            || negb (Player_eqb (initialPla targetHist) (bookInitialPla b))) eqn:Hstart.
  - destruct (Hgrows (WalkThrew "" w) (walked_refl w)) as [G V].
    split; [exact G|]. split; [exact V | reflexivity].
  - destruct (Hgrows _ (walkVariation_walked R E S T (moveHistory targetHist)
                          (getRoot T b) hist (bookInitialPla b) w)) as [G V].
    split; [exact G|]. split; [exact V|].
    apply orb_false_iff in Hstart. destruct Hstart as [Hb Hp].
    apply negb_false_iff in Hb. apply negb_false_iff in Hp.
    intros [Hb'|Hp']; [congruence|]. exfalso. apply Hp'.
    destruct (initialPla targetHist), (bookInitialPla b); simpl in Hp;
      congruence.
Qed.

(** X24. Every node that a traced variation touches is put into
    [nodesHashesToUpdate], so that its values are searched afterwards: the
    set only grows, and a node that is not in it after the walk is in the
    book what it was before, but for [canExpand], which the walk switches
    off where the game is over. *)
Theorem X24_traced_variation_collects_what_it_touches (R : Rules) (E : Engine)
    (S : Settings) (T : Tracer) (targetHist : BoardHistory)
    (nodesHashesToUpdate : gset BookHash) (b : Book) :
  let result := addVariationToBookWithoutUpdate R E S T targetHist nodesHashesToUpdate b in
  nodesHashesToUpdate ⊆ toUpdate (walkOf result) /\
  forall h,
    h ∉ toUpdate (walkOf result) ->
    nodes (walkBook (walkOf result)) !! h = nodes b !! h \/
    exists n, nodes b !! h = Some n /\
              nodes (walkBook (walkOf result)) !! h = Some (setCanExpand false n).
Proof.
  intros result. subst result. unfold addVariationToBookWithoutUpdate.
  set (w := {| walkBook := b; toUpdate := nodesHashesToUpdate; walkLog := [] |}).
  destruct (_ || _)%bool.
  - split; [reflexivity|]. intros h _. now left.
  - match goal with
    | |- context [walkOf ?o] =>
      match o with
      | walkVariation _ _ _ _ ?moves ?node ?hist ?curPla w =>
        destruct (walkVariation_walked R E S T moves node hist curPla w)
          as (_ & Hs & Ha & _)
      end
    end.
    split; [exact Hs | exact Ha].
Qed.

(** An edge of a book is an edge of every later state of the book. *)
Lemma follow_grows (b b' : Book) (node : BookHash) (loc : Loc) (child : BookHash) :
  bookGrows b b' -> follow b node loc = Some child -> follow b' node loc = Some child.
Proof.
  intros [_ Hnodes] Hf. unfold follow, getNode in *.
  destruct (nodes b !! node) as [n|] eqn:Hn.
  - destruct (Hnodes node n Hn) as [n' [Hn' (_ & _ & _ & Hedges & _)]].
    rewrite Hn'. destruct (childrenInBook n !! loc) as [e|] eqn:He; [|discriminate Hf].
    now rewrite (Hedges loc e He).
  - simpl in Hf. rewrite lookup_empty in Hf. discriminate Hf.
Qed.

(** *** On a closed book *)

Lemma Player_eqb_eq (a b : Player) : Player_eqb a b = true -> a = b.
Proof. destruct a, b; simpl; congruence. Qed.

Lemma is_Some_updateNode (f : BookNode -> BookNode) (h x : BookHash) (b : Book) :
  is_Some (nodes (updateNode f h b) !! x) <-> is_Some (nodes b !! x).
Proof.
  rewrite lookup_updateNode. destruct (decide (h = x)); [apply fmap_is_Some | reflexivity].
Qed.

Lemma closedBook_grows (b b' : Book) (h : BookHash) :
  bookGrows b b' -> is_Some (nodes b !! h) -> is_Some (nodes b' !! h).
Proof.
  intros [_ Hn] [n Hh]. destruct (Hn h n Hh) as [n' [Hn' _]]. eauto.
Qed.

Lemma isMoveInBook_follow (b : Book) (node : BookHash) (loc : Loc) :
  isMoveInBook b node loc = true <-> exists child, follow b node loc = Some child.
Proof.
  unfold isMoveInBook, follow.
  destruct (childrenInBook (getNode b node) !! loc) as [e|]; simpl.
  - split; [eauto | reflexivity].
  - split; [discriminate | intros [c Hc]; discriminate Hc].
Qed.

(** [playAndAddMove] keeps the book closed, and adds the edge of a legal
    move to a node of the book. *)
Lemma playAndAddMove_closed (R : Rules) (b : Book) (node : BookHash)
    (hist : BoardHistory) (moveLoc : Loc) (rawPolicy : Q) :
  closedBook b ->
  closedBook (snd (playAndAddMove R b node hist moveLoc rawPolicy)) /\
  (forall n, nodes b !! node = Some n ->
             isLegal R hist moveLoc (pla n) = true ->
             isMoveInBook (snd (playAndAddMove R b node hist moveLoc rawPolicy))
               node moveLoc = true).
Proof.
  intros Hclosed. unfold playAndAddMove.
  destruct (follow b node moveLoc) as [child|] eqn:Hfollow.
  { cbn [snd]. split; [exact Hclosed|]. intros n _ _.
    apply isMoveInBook_follow. eauto. }
  destruct (isLegal R hist moveLoc (pla (getNode b node))) eqn:Hlegal; cbn [negb snd].
  2:{ split; [exact Hclosed|]. intros n Hn Hl. unfold getNode in Hlegal.
      rewrite Hn in Hlegal. congruence. }
  set (nextHist := makeBoardMoveAssumeLegal hist moveLoc (pla (getNode b node))).
  set (child := getHashAndSymmetry R nextHist (repBound b) (bookVersion b)).
  set (b1 := if bool_decide (is_Some (nodes b !! child)) then b else _).
  assert (H1 : closedBook b1 /\ is_Some (nodes b1 !! child) /\
                forall n, nodes b !! node = Some n -> nodes b1 !! node = Some n).
  { subst b1. destruct (bool_decide (is_Some (nodes b !! child))) eqn:Hin.
    - apply bool_decide_eq_true in Hin. split; [exact Hclosed|]. split; [exact Hin | auto].
    - apply bool_decide_eq_false in Hin. simpl. split; [|split].
      + intros h n loc e Hn He. simpl in Hn.
        destruct (decide (child = h)) as [<-|Hne].
        * rewrite lookup_insert_eq in Hn. inversion Hn; subst n. simpl in He.
          rewrite lookup_empty in He. discriminate He.
        * rewrite lookup_insert_ne in Hn by exact Hne. simpl.
          destruct (decide (child = fst e)) as [->|Hne'].
          -- rewrite lookup_insert_eq. eauto.
          -- rewrite lookup_insert_ne by exact Hne'. exact (Hclosed h n loc e Hn He).
      + rewrite lookup_insert_eq. eauto.
      + intros n Hn. rewrite lookup_insert_ne; [exact Hn|].
        intros ->. apply Hin. eauto. }
  destruct H1 as (Hc1 & Hchild & Hnode). split.
  - intros h n' loc e Hn' He. apply is_Some_updateNode.
    rewrite lookup_updateNode in Hn'.
    destruct (decide (node = h)) as [<-|Hne]; [|exact (Hc1 h n' loc e Hn' He)].
    destruct (nodes b1 !! node) as [n1|] eqn:Hn1; simpl in Hn'; [|discriminate Hn'].
    inversion Hn'; subst n'. simpl in He.
    destruct (decide (moveLoc = loc)) as [<-|Hl].
    + rewrite lookup_insert_eq in He. inversion He; subst e. exact Hchild.
    + rewrite lookup_insert_ne in He by exact Hl. exact (Hc1 node n1 loc e Hn1 He).
  - intros n Hn _. unfold isMoveInBook, getNode.
    rewrite lookup_updateNode. destruct (decide (node = node)); [|congruence].
    rewrite (Hnode n Hn). simpl. now rewrite lookup_insert_eq.
Qed.

Lemma addMoveIfAbsent_closed (R : Rules) (node : BookHash) (hist : BoardHistory)
    (loc : Loc) (policy : Q) (w : Walk) :
  closedBook (walkBook w) ->
  closedBook (walkBook (addMoveIfAbsent R node hist loc policy w)) /\
  (forall n, nodes (walkBook w) !! node = Some n ->
             isLegal R hist loc (pla n) = true ->
             isMoveInBook (walkBook (addMoveIfAbsent R node hist loc policy w)) node loc
             = true).
Proof.
  intros Hclosed. unfold addMoveIfAbsent.
  destruct (isMoveInBook (walkBook w) node loc) eqn:Hin; [split; [exact Hclosed | auto]|].
  destruct (playAndAddMove_closed R (walkBook w) node hist loc policy Hclosed) as [Hc Hadd].
  destruct (playAndAddMove R (walkBook w) node hist loc policy)
    as [[[[child|] nextHist] [|]] b1]; cbn [snd] in Hc, Hadd; cbn [walkBook];
    (split; [exact Hc | exact Hadd]).
Qed.

Lemma addMovesAt_closed (R : Rules) (E : Engine) (T : Tracer) (node : BookHash)
    (hist : BoardHistory) (curPla : Player) (moveLoc : Loc) (w : Walk) :
  closedBook (walkBook w) ->
  closedBook (walkBook (addMovesAt R E T node hist curPla moveLoc w)) /\
  (forall n, nodes (walkBook w) !! node = Some n ->
             isLegal R hist moveLoc (pla n) = true ->
             isMoveInBook (walkBook (addMovesAt R E T node hist curPla moveLoc w))
               node moveLoc = true).
Proof.
  intros Hclosed. unfold addMovesAt.
  set (w1 := {| walkBook := walkBook w; toUpdate := {[node]} ∪ toUpdate w;
                walkLog := walkLog w |}).
  set (policy := nth (getPos E moveLoc) (getFullSymmetryNNOutput E hist curPla) 0%Q).
  destruct (addMoveIfAbsent_closed R node hist moveLoc policy w1 Hclosed) as [Hc2 Hadd2].
  assert (Hin1 : node ∈ toUpdate w1).
  { apply elem_of_union_l. now apply elem_of_singleton. }
  destruct (addMoveIfAbsent_walked R node hist moveLoc policy w1 Hin1) as [_ Hin2].
  assert (Hkeep : forall n, nodes (walkBook w) !! node = Some n ->
                            isLegal R hist moveLoc (pla n) = true ->
                            isMoveInBook (walkBook (addMoveIfAbsent R node hist moveLoc
                                                      policy w1)) node moveLoc = true)
    by exact Hadd2.
  clear Hadd2. revert Hc2 Hin2 Hkeep.
  generalize (addMoveIfAbsent R node hist moveLoc policy w1).
  generalize (extraMoveLocsToExpand T (getFullSymmetryNNOutput E hist curPla) moveLoc policy).
  intros extras. induction extras as [|extra extras IH]; intros w2 Hc2 Hin2 Hkeep; simpl.
  - split; [exact Hc2 | exact Hkeep].
  - destruct (addMoveIfAbsent_closed R node hist (fst extra) (snd extra) w2 Hc2) as [Hc3 _].
    destruct (addMoveIfAbsent_walked R node hist (fst extra) (snd extra) w2 Hin2)
      as [([G3 _] & _) Hin3].
    apply IH; [exact Hc3 | exact Hin3|].
    intros n Hn Hl. specialize (Hkeep n Hn Hl).
    apply isMoveInBook_follow in Hkeep. destruct Hkeep as [child Hf].
    apply isMoveInBook_follow. exists child. exact (follow_grows _ _ _ _ _ G3 Hf).
Qed.

(** The loop over the moves on a closed book, from a node of the book. *)
Lemma walkVariation_sound (R : Rules) (E : Engine) (S : Settings) (T : Tracer)
    (moves : list (Loc * Player)) :
  forall (node : BookHash) (hist : BoardHistory) (curPla : Player) (w : Walk),
    closedBook (walkBook w) ->
    is_Some (nodes (walkBook w) !! node) ->
    soundWalk R E node (map fst moves) w (walkVariation R E S T moves node hist curPla w).
Proof.
  assert (Hskipped : forall (e : SkipEv) (node : BookHash) (l : list Loc) (w0 w : Walk),
            walkLog w0 = walkLog w ->
            soundWalk R E node l w (WalkReturned (skipping e w0))).
  { intros e node l w0 w H0 Hlog. simpl in Hlog. rewrite H0 in Hlog.
    apply (f_equal (@length SkipEv)) in Hlog.
    rewrite length_app in Hlog. simpl in Hlog. lia. }
  induction moves as [|[moveLoc movePla] rest IH]; intros node hist curPla w Hclosed Hnode;
    simpl.
  - intros _. exists node. reflexivity.
  - destruct (_ || _)%bool; [now apply Hskipped|].
    destruct (Player_eqb movePla curPla) eqn:Hcur; cbn [negb]; [|exact I].
    apply Player_eqb_eq in Hcur.
    destruct (Player_eqb movePla (pla (getNode (walkBook w) node))) eqn:Hpla;
      cbn [negb]; [|exact I].
    apply Player_eqb_eq in Hpla.
    destruct (isLegal R hist moveLoc movePla) eqn:Hlegal; cbn [negb];
      [|now apply Hskipped].
    destruct (_ && _)%bool; [now apply Hskipped|].
    destruct (negb (isMoveInBook (walkBook w) node moveLoc) && negb (NDEBUG S)
              && Qltb (nth (getPos E moveLoc) (getFullSymmetryNNOutput E hist curPla) 0%Q) 0)
      eqn:Hneg.
    { apply andb_true_iff in Hneg. destruct Hneg as [_ Hneg]. apply Qltb_true in Hneg.
      simpl. exists hist, curPla, moveLoc. split; [now rewrite <- Hcur | exact Hneg]. }
    clear Hneg.
    set (w1 := if negb (isMoveInBook (walkBook w) node moveLoc) then _ else w).
    destruct Hnode as [n Hn].
    assert (Hget : getNode (walkBook w) node = n) by (unfold getNode; now rewrite Hn).
    rewrite Hget in Hpla.
    assert (H1 : walked w w1).
    { subst w1. destruct (negb _); [apply addMovesAt_walked | apply walked_refl]. }
    assert (Hw1 : closedBook (walkBook w1) /\
                  isMoveInBook (walkBook w1) node moveLoc = true).
    { subst w1. destruct (isMoveInBook (walkBook w) node moveLoc) eqn:Hin; cbn [negb].
      - split; [exact Hclosed | exact Hin].
      - destruct (addMovesAt_closed R E T node hist curPla moveLoc w Hclosed) as [Hc Hadd].
        split; [exact Hc|]. apply (Hadd n Hn). now rewrite <- Hpla. }
    destruct Hw1 as [Hc1 Hin1]. rewrite Hin1. cbn [negb]. rewrite andb_false_r.
    apply isMoveInBook_follow in Hin1. destruct Hin1 as [child Hfollow].
    unfold playMove. rewrite Hfollow.
    assert (Hchild : is_Some (nodes (walkBook w1) !! child)).
    { unfold follow, getNode in Hfollow.
      destruct (nodes (walkBook w1) !! node) as [n1|] eqn:Hn1.
      - destruct (childrenInBook n1 !! moveLoc) as [e|] eqn:He; [|discriminate Hfollow].
        simpl in Hfollow. inversion Hfollow; subst child.
        exact (Hc1 node n1 moveLoc e Hn1 He).
      - simpl in Hfollow. rewrite lookup_empty in Hfollow. discriminate Hfollow. }
    specialize (IH child
                  (makeBoardMoveAssumeLegal hist moveLoc (pla (getNode (walkBook w1) node)))
                  (getOpp curPla) w1 Hc1 Hchild).
    pose proof (walkVariation_walked R E S T rest child
                  (makeBoardMoveAssumeLegal hist moveLoc (pla (getNode (walkBook w1) node)))
                  (getOpp curPla) w1) as H2.
    destruct (walkVariation R E S T rest child _ (getOpp curPla) w1) as [w'| | |];
      simpl in IH, H2 |- *; try exact IH.
    intros Hlog.
    destruct H1 as (_ & _ & _ & [e1 L1]). destruct H2 as ([G2 _] & _ & _ & [e2 L2]).
    assert (Hlog1 : walkLog w' = walkLog w1).
    { rewrite L2, L1, <- app_assoc in Hlog.
      rewrite <- (app_nil_r (walkLog w)) in Hlog at 2.
      apply app_inv_head in Hlog. apply app_eq_nil in Hlog.
      destruct Hlog as [-> ->]. rewrite L2. now rewrite app_nil_r. }
    destruct (IH Hlog1) as [final Hfinal].
    exists final. rewrite (follow_grows _ _ _ _ _ G2 Hfollow). exact Hfinal.
Qed.

(** X25. On a closed book (every edge leads to a node of the book) that
    holds its root, a traced variation that is walked to its end, that is,
    the call returns and has logged no skip, is in the book afterwards:
    replaying the moves of the target history from the root of the book
    follows an edge at every move. *)
Theorem X25_traced_variation_is_reachable (R : Rules) (E : Engine) (S : Settings)
    (T : Tracer) (targetHist : BoardHistory) (nodesHashesToUpdate : gset BookHash)
    (b : Book) (w' : Walk) :
  closedBook b ->
  is_Some (nodes b !! getRoot T b) ->
  addVariationToBookWithoutUpdate R E S T targetHist nodesHashesToUpdate b
    = WalkReturned w' ->
  walkLog w' = [] ->
  exists final,
    replayMoves (walkBook w') (getRoot T b) (map fst (moveHistory targetHist)) = Some final.
Proof.
  unfold addVariationToBookWithoutUpdate. intros Hclosed Hroot Hret Hlog.
  destruct (_ || _)%bool; [discriminate Hret|].
  match type of Hret with
  | walkVariation _ _ _ _ ?moves ?node ?hist ?curPla ?w = _ =>
    pose proof (walkVariation_sound R E S T moves node hist curPla w Hclosed Hroot) as Hs
  end.
  rewrite Hret in Hs. exact (Hs Hlog).
Qed.

Lemma closedBook_freshBook : closedBook Tiny.freshBook.
Proof.
  intros h n loc e Hn He. simpl in Hn. apply lookup_singleton_Some in Hn.
  destruct Hn as [_ <-]. simpl in He. rewrite lookup_empty in He. discriminate He.
Qed.

Lemma X25_traced_variation_is_reachable_witness :
  exists w' final,
    addVariationToBookWithoutUpdate Tiny.R Tiny.E (Tiny.S true) TinyMore.tracer
      Tiny.after12 ∅ Tiny.freshBook = WalkReturned w' /\
    replayMoves (walkBook w') 2 [1; 2] = Some final.
Proof.
  eexists.
  destruct (X25_traced_variation_is_reachable Tiny.R Tiny.E (Tiny.S true) TinyMore.tracer
              Tiny.after12 ∅ Tiny.freshBook _ closedBook_freshBook
              (ex_intro _ _ eq_refl) eq_refl eq_refl) as [final Hfinal].
  exists final. split; [reflexivity | exact Hfinal].
Defined.

(** X26. On a closed book that holds its root, and with a policy that is
    not negative on legal moves (the net gives a negative policy to illegal
    moves only), no assertion of the walk of a traced variation can fail
    and the walk never goes on with a null node: the policy of the move is
    not negative (genbook.cpp:691), the move it is about to follow is in
    the book (genbook.cpp:735) and leads to a node (genbook.cpp:737), so the
    call returns or throws. *)
Theorem X26_walk_assertions_hold_on_closed_book (R : Rules) (E : Engine) (S : Settings)
    (T : Tracer) (targetHist : BoardHistory) (nodesHashesToUpdate : gset BookHash)
    (b : Book) :
  closedBook b ->
  is_Some (nodes b !! getRoot T b) ->
  (forall hist pla loc,
     isLegal R hist loc pla = true ->
     (0 <= nth (getPos E loc) (getFullSymmetryNNOutput E hist pla) 0)%Q) ->
  exists w',
    addVariationToBookWithoutUpdate R E S T targetHist nodesHashesToUpdate b
      = WalkReturned w' \/
    exists msg,
      addVariationToBookWithoutUpdate R E S T targetHist nodesHashesToUpdate b
        = WalkThrew msg w'.
Proof.
  unfold addVariationToBookWithoutUpdate. intros Hclosed Hroot Hpolicy.
  destruct (_ || _)%bool; [eexists; right; eexists; reflexivity|].
  match goal with
  | |- context [walkVariation _ _ _ _ ?moves ?node ?hist ?curPla ?w] =>
    pose proof (walkVariation_sound R E S T moves node hist curPla w Hclosed Hroot) as Hs;
    destruct (walkVariation R E S T moves node hist curPla w) as [w'|msg w'|w'|w']
  end; simpl in Hs.
  - exists w'. now left.
  - exists w'. right. now exists msg.
  - exfalso. destruct Hs as (hist & pla & loc & Hlegal & Hneg).
    exact (Qlt_not_le _ _ Hneg (Hpolicy hist pla loc Hlegal)).
  - contradiction.
Qed.

(** The policy of [TinyMore.maskedE] is not negative on legal moves. *)
Lemma maskedE_legal_policy (hist : BoardHistory) (pla : Player) (loc : Loc) :
  isLegal Tiny.R hist loc pla = true ->
  (0 <= nth (getPos TinyMore.maskedE loc)
          (getFullSymmetryNNOutput TinyMore.maskedE hist pla) 0)%Q.
Proof.
  intros Hlegal. pose proof Hlegal as Hloc. simpl in Hloc.
  apply andb_true_iff in Hloc. destruct Hloc as [Hloc _].
  apply orb_true_iff in Hloc.
  destruct Hloc as [Hloc|Hloc]; apply Z.eqb_eq in Hloc; subst loc.
  - change (0 <= if isLegal Tiny.R hist 1%Z pla then 3 # 5 else -1)%Q.
    rewrite Hlegal. unfold Qle. simpl. lia.
  - change (0 <= if isLegal Tiny.R hist 2%Z pla then 1 # 10 else -1)%Q.
    rewrite Hlegal. unfold Qle. simpl. lia.
Qed.

Lemma X26_walk_assertions_hold_on_closed_book_witness :
  exists w',
    addVariationToBookWithoutUpdate Tiny.R TinyMore.maskedE (Tiny.S false) TinyMore.tracer
      Tiny.after12 ∅ Tiny.freshBook = WalkReturned w' \/
    exists msg,
      addVariationToBookWithoutUpdate Tiny.R TinyMore.maskedE (Tiny.S false)
        TinyMore.tracer Tiny.after12 ∅ Tiny.freshBook = WalkThrew msg w'.
Proof.
  apply (X26_walk_assertions_hold_on_closed_book Tiny.R TinyMore.maskedE (Tiny.S false)
           TinyMore.tracer Tiny.after12 ∅ Tiny.freshBook closedBook_freshBook).
  - exists (newNode P_BLACK (Some Tiny.empty)). reflexivity.
  - exact maskedE_legal_policy.
Defined.

(** With that policy, negative on every move that is not legal, the walk of
    the variation [1], [2] over the fresh book returns. *)
Example masked_walk_returns :
  exists w',
    addVariationToBookWithoutUpdate Tiny.R TinyMore.maskedE (Tiny.S false) TinyMore.tracer
      Tiny.after12 ∅ Tiny.freshBook = WalkReturned w' /\
    walkLog w' = [] /\ replayMoves (walkBook w') 2 [1; 2] = Some 1102.
Proof. eexists. split; [reflexivity|]. split; reflexivity. Qed.
